(** * ABAP remediators (SAP Notes 1804812 and 2768887)

    A shallow embedding of [app/main.py] (obsolete MB transaction codes)
    and [app/main1.py] (DRAFT filter on VBRK/VBRP SELECTs), with the part
    of Python's [re] module the two files rely on, and the properties of
    the matchers, the suggestion synthesizers, the span replacement
    applier and the two endpoints.

    Layout:
    - [Py]    : Python strings, slices, the Unicode tables used by [re]
                and [str], JSON values;
    - [Re]    : a backtracking matcher with the priorities of [re]
                (greedy and lazy repeats, ordered alternation, named
                groups), [search] and [finditer], and a declarative
                reading of patterns;
    - [Main]  : app/main.py;
    - [Main1] : app/main1.py.

    The lemmas follow: the matcher against the declarative reading
    (soundness, completeness, leftmost search), the two patterns, the
    DRAFT filter, whitespace, the applier, the endpoints, and the
    agreement of all tables on ASCII text.  The claims C1 to C10 come
    last, each with an instance at a concrete input. *)

From Stdlib Require Import String Ascii NArith ZArith Lia Bool List.
From Stdlib Require Import Permutation Sorted.
Import ListNotations.

Set Warnings "-register-all".

(* ===================================================================== *)
(** * Python values *)
(* ===================================================================== *)

Module Py.

(** A Python [str] is a sequence of Unicode code points; offsets and
    spans count code points. *)
Definition char := N.
Definition text := list char.

(** ASCII literals of the source, as code points. *)
Definition str (s : string) : text := map N_of_ascii (list_ascii_of_string s).

Definition text_eqb (a b : text) : bool :=
  if list_eq_dec N.eq_dec a b then true else false.

(** ** The ASCII rows of the Unicode tables *)

Definition between (lo hi c : N) : bool := ((lo <=? c) && (c <=? hi))%N.

(** [str.isspace] and [\s] on ASCII: TAB..CR, FS..US and the space. *)
Definition ascii_isspace (c : char) : bool :=
  between 9 13 c || between 28 31 c || (c =? 32)%N.

Definition ascii_isalpha (c : char) : bool :=
  between 65 90 c || between 97 122 c.

(** [\w] on ASCII: letters, digits and the underscore. *)
Definition ascii_isword (c : char) : bool :=
  between 48 57 c || ascii_isalpha c || (c =? 95)%N.

Definition ascii_lower (c : char) : char :=
  if between 65 90 c then (c + 32)%N else c.

Definition ascii_upper (c : char) : char :=
  if between 97 122 c then (c - 32)%N else c.

(** [txt] contains [pat], in any casing of its ASCII letters. *)
Definition contains_ci (txt pat : text) : Prop :=
  exists pre mid post,
    txt = pre ++ mid ++ post /\ map ascii_lower mid = map ascii_lower pat.

(** A text of ASCII code points. *)
Definition ascii_text (s : text) : Prop := Forall (fun c => (c < 128)%N) s.

Definition ascii_textb (s : text) : bool := forallb (fun c => (c <? 128)%N) s.

(** The literals of the patterns: ASCII, or of the Greek block. *)
Definition literal_ok (p : char) : Prop :=
  (p < 128)%N \/ (880 <= p < 1024)%N.

Definition literal_okb (p : char) : bool :=
  ((p <? 128) || ((880 <=? p) && (p <? 1024)))%N.

(** ** The Unicode character database

    [re] (on [str] patterns) and [str.upper] consult the Unicode tables of
    the interpreter.  They are taken as an interface: the four functions,
    and the fact that on ASCII code points they are the ASCII rows above.

    - [isspace c]     : [c] is matched by [\s]; also [str.isspace], which
                        [str.strip] uses;
    - [isword c]      : [c] is matched by [\w];
    - [casematch p c] : the pattern literal [p], compiled under
                        [re.IGNORECASE], matches the text character [c];
    - [toupper c]     : [str.upper] of the one-character string [c] (one
                        code point may become several).

    A literal of the Greek block (U+0370 to U+03FF) matches no ASCII
    character: its case variants are Greek letters and the micro sign. *)
Class Unicode := {
  isspace : char -> bool;
  isword : char -> bool;
  casematch : char -> char -> bool;
  toupper : char -> text;
  isspace_ascii : forall c, (c < 128)%N -> isspace c = ascii_isspace c;
  isword_ascii : forall c, (c < 128)%N -> isword c = ascii_isword c;
  casematch_ascii : forall p c, (p < 128)%N -> (c < 128)%N ->
    casematch p c = (ascii_lower p =? ascii_lower c)%N;
  casematch_greek : forall p c, (880 <= p < 1024)%N -> (c < 128)%N ->
    casematch p c = false;
  toupper_ascii : forall c, (c < 128)%N -> toupper c = [ascii_upper c]
}.

(** The tables cut down to their ASCII rows: every other code point is
    caseless, is no space and no word character.  On a text of ASCII code
    points the functions of the two files compute the same with these
    tables as with any other ([find_mb_txn_usage_agree],
    [find_selects_agree], [ensure_draft_filter_agree],
    [build_replacement_stmt_agree], [selects_of_agree]). *)
#[export] Instance ascii_tables : Unicode.
Proof.
  refine {| isspace := ascii_isspace;
            isword := ascii_isword;
            casematch := fun p c => (ascii_lower p =? ascii_lower c)%N;
            toupper := fun c => [ascii_upper c];
            isspace_ascii := fun _ _ => eq_refl;
            isword_ascii := fun _ _ => eq_refl;
            casematch_ascii := fun _ _ _ _ => eq_refl;
            casematch_greek := _;
            toupper_ascii := fun _ _ => eq_refl |}.
  intros p c Hp Hc. apply N.eqb_neq. unfold ascii_lower, between.
  destruct (N.leb_spec 65 p), (N.leb_spec p 90), (N.leb_spec 65 c),
    (N.leb_spec c 90); simpl; lia.
Defined.

Section Strings.
Context {U : Unicode}.

(** [s.upper()] *)
Definition upper (s : text) : text := flat_map toupper s.

(** [s.startswith(p)] *)
Fixpoint startswith (s p : text) : bool :=
  match p, s with
  | [], _ => true
  | _ :: _, [] => false
  | y :: p', x :: s' => (x =? y)%N && startswith s' p'
  end.

(** [s.strip()]: leading and trailing whitespace removed. *)
Fixpoint lstrip (s : text) : text :=
  match s with
  | c :: s' => if isspace c then lstrip s' else s
  | [] => []
  end.

Definition rstrip (s : text) : text := rev (lstrip (rev s)).

Definition strip (s : text) : text := rstrip (lstrip s).

(** [s.rstrip(".")]: trailing periods removed. *)
Fixpoint lstrip_char (x : char) (s : text) : text :=
  match s with
  | c :: s' => if (c =? x)%N then lstrip_char x s' else s
  | [] => []
  end.

Definition rstrip_char (x : char) (s : text) : text :=
  rev (lstrip_char x (rev s)).

End Strings.

(** ** Slices

    [l[a:b]], [l[:b]] and [l[a:]] for integer bounds: a negative bound
    counts from the end, and every bound is clamped to [0 .. len(l)]. *)
Definition clamp (len : nat) (i : Z) : nat :=
  Z.to_nat (if (i <? 0)%Z then Z.max 0 (Z.of_nat len + i)
            else Z.min i (Z.of_nat len)).

Definition slice_to {A : Type} (l : list A) (b : Z) : list A :=
  firstn (clamp (length l) b) l.

Definition slice_from {A : Type} (l : list A) (a : Z) : list A :=
  skipn (clamp (length l) a) l.

Definition slice {A : Type} (l : list A) (a b : Z) : list A :=
  firstn (clamp (length l) b - clamp (length l) a)
         (skipn (clamp (length l) a) l).

(** ** JSON values, as [json.loads] builds them.  An object keeps its keys
    in insertion order. *)
Inductive json :=
| JNull
| JBool (b : bool)
| JInt (n : Z)
| JStr (s : text)
| JList (l : list json)
| JObj (fields : list (string * json)).

Fixpoint dict_get (k : string) (d : list (string * json)) : option json :=
  match d with
  | [] => None
  | (k', v) :: d' => if String.eqb k k' then Some v else dict_get k d'
  end.

(** [d[k] = v]: an existing key keeps its place, a new key goes last. *)
Fixpoint dict_set (k : string) (v : json) (d : list (string * json))
  : list (string * json) :=
  match d with
  | [] => [(k, v)]
  | (k', v') :: d' =>
      if String.eqb k k' then (k', v) :: d' else (k', v') :: dict_set k v d'
  end.

Definition opt_json {A} (f : A -> json) (o : option A) : json :=
  match o with Some a => f a | None => JNull end.

(** [j[k]] and [list(j)] for an object [j]. *)
Definition json_get (k : string) (j : json) : option json :=
  match j with JObj d => dict_get k d | _ => None end.

Definition json_keys (j : json) : list string :=
  match j with JObj d => map fst d | _ => [] end.

(** ** What goes through [json.loads(u.model_dump_json())]

    The dump is UTF-8 text: a string with a surrogate code point (U+D800
    to U+DFFF) has no encoding, and the dump raises.  Reading the text
    back, the interpreter refuses an integer of more than 4300 digits,
    and [json.loads] raises.  Every other string and integer comes back
    as it was. *)
Definition utf8_ok (s : text) : bool :=
  forallb (fun c => negb (between 55296 57343 c)) s.

Definition int_ok (n : Z) : bool :=
  match n with
  | Z0 => true
  | Zpos p | Zneg p => Nat.leb (Decimal.nb_digits (Pos.to_uint p)) 4300
  end.

Definition opt_ok {A} (f : A -> bool) (o : option A) : bool :=
  match o with Some a => f a | None => true end.

End Py.

Import Py.

(* ===================================================================== *)
(** * The [re] module *)
(* ===================================================================== *)

Module Re.

(** Patterns, after [re.VERBOSE] has dropped layout and comments.  Every
    repeat in the two files is over a single character class, which is
    how [re] compiles them too; [Rep greedy lo p] is [p{lo,}] when greedy
    and [p{lo,}?] when lazy.  [x?] is [Alt x Eps]. *)
Inductive regex :=
| Eps
| Chr (p : char -> bool)
| Seq (r1 r2 : regex)
| Alt (r1 r2 : regex)
| Rep (greedy : bool) (lo : nat) (p : char -> bool)
| Group (name : string) (r : regex)
| WordB.

Definition Opt (r : regex) : regex := Alt r Eps.

Fixpoint seqs (rs : list regex) : regex :=
  match rs with
  | [] => Eps
  | [r] => r
  | r :: rs' => Seq r (seqs rs')
  end.

(** [a|b|c], tried from left to right; the list is not empty. *)
Fixpoint alts (rs : list regex) : regex :=
  match rs with
  | [] => Eps
  | [r] => r
  | r :: rs' => Alt r (alts rs')
  end.

(** Groups that took part in a match, with their spans; the latest
    binding of a name comes first. *)
Definition caps := list (string * (nat * nat)).

Fixpoint lookup (name : string) (c : caps) : option (nat * nat) :=
  match c with
  | [] => None
  | (n, sp) :: c' => if String.eqb name n then Some sp else lookup name c'
  end.

Definition result := (nat * caps)%type.

(** Number of consecutive characters of class [p] from offset [i] on. *)
Fixpoint run_len (p : char -> bool) (s : text) : nat :=
  match s with
  | c :: s' => if p c then S (run_len p s') else 0
  | [] => 0
  end.

Definition run (p : char -> bool) (txt : text) (i : nat) : nat :=
  run_len p (skipn i txt).

(** A greedy repeat takes the longest run and gives characters back one
    at a time; a lazy repeat takes the fewest and adds one at a time. *)
Fixpoint greedy_try (k : nat -> option result) (lo i n : nat)
  : option result :=
  if n <? lo then None
  else match k (i + n) with
       | Some r => Some r
       | None => match n with
                 | O => None
                 | S n' => greedy_try k lo i n'
                 end
       end.

Fixpoint lazy_try (k : nat -> option result) (i j fuel : nat)
  : option result :=
  match k (i + j) with
  | Some r => Some r
  | None => match fuel with
            | O => None
            | S f => lazy_try k i (S j) f
            end
  end.

Section Matcher.
Context {U : Unicode}.

(** [\b]: exactly one of the characters before and after the offset is a
    word character (none at either end of the text). *)
Definition word_at (txt : text) (i : nat) : bool :=
  match nth_error txt i with Some c => isword c | None => false end.

Definition boundary (txt : text) (i : nat) : bool :=
  negb (Bool.eqb (match i with O => false | S j => word_at txt j end)
                 (word_at txt i)).

(** The matcher, in continuation-passing style: [k] is the rest of the
    pattern, and [None] from it makes the matcher try its next choice. *)
Fixpoint bt (r : regex) (txt : text) (i : nat) (c : caps)
            (k : nat -> caps -> option result) : option result :=
  match r with
  | Eps => k i c
  | Chr p =>
      match nth_error txt i with
      | Some x => if p x then k (S i) c else None
      | None => None
      end
  | Seq a b => bt a txt i c (fun j c' => bt b txt j c' k)
  | Alt a b =>
      match bt a txt i c k with
      | Some res => Some res
      | None => bt b txt i c k
      end
  | Rep greedy lo p =>
      let n := run p txt i in
      if greedy then greedy_try (fun j => k j c) lo i n
      else if n <? lo then None
           else lazy_try (fun j => k j c) i lo (n - lo)
  | Group name a => bt a txt i c (fun j c' => k j ((name, (i, j)) :: c'))
  | WordB => if boundary txt i then k i c else None
  end.

Definition accept : nat -> caps -> option result := fun j c => Some (j, c).

(** A match object. *)
Record rmatch := { m_start : nat; m_end : nat; m_caps : caps }.

Definition match_at (r : regex) (txt : text) (i : nat) : option rmatch :=
  match bt r txt i [] accept with
  | Some (e, c) => Some {| m_start := i; m_end := e; m_caps := c |}
  | None => None
  end.

(** [pattern.search(txt, pos)]: the leftmost offset at which the pattern
    matches. *)
Fixpoint search_from (r : regex) (txt : text) (i fuel : nat)
  : option rmatch :=
  match match_at r txt i with
  | Some m => Some m
  | None => match fuel with
            | O => None
            | S f => search_from r txt (S i) f
            end
  end.

Definition search (r : regex) (txt : text) (pos : nat) : option rmatch :=
  if length txt <? pos then None
  else search_from r txt pos (length txt - pos).

(** [pattern.finditer(txt)]: search, then search again from the end of the
    match.  After an empty match the interpreter searches again from the
    same offset for a match that is not empty there; the patterns of the
    two files never match the empty string ([MB_TXN_RE_nonempty],
    [SELECT_RE_nonempty]), and the model moves one character on. *)
Fixpoint finditer_from (r : regex) (txt : text) (pos fuel : nat)
  : list rmatch :=
  match fuel with
  | O => []
  | S f =>
      match search r txt pos with
      | None => []
      | Some m =>
          m :: finditer_from r txt
                 (if m_end m =? m_start m then S (m_end m) else m_end m) f
      end
  end.

Definition finditer (r : regex) (txt : text) : list rmatch :=
  finditer_from r txt 0 (S (length txt)).

(** [before a b]: the match [a] lies to the left of [b], without overlap. *)
Definition before (a b : rmatch) : Prop :=
  m_end a <= m_start b /\ m_start a < m_start b.

(** [m.span(0)], [m.span(name)] and [m.group(name)]; a group that took no
    part in the match has span [(-1, -1)] and value [None]. *)
Definition span0 (m : rmatch) : Z * Z :=
  (Z.of_nat (m_start m), Z.of_nat (m_end m)).

Definition span (m : rmatch) (name : string) : Z * Z :=
  match lookup name (m_caps m) with
  | Some (s, e) => (Z.of_nat s, Z.of_nat e)
  | None => ((-1)%Z, (-1)%Z)
  end.

Definition group (txt : text) (m : rmatch) (name : string) : option text :=
  match lookup name (m_caps m) with
  | Some (s, e) => Some (firstn (e - s) (skipn s txt))
  | None => None
  end.

(** Literal text in a pattern compiled with [re.IGNORECASE]: a cased
    character is compared through the case tables, an uncased one
    (digits, punctuation) as it is.  The only literals outside ASCII in
    the two files are Greek capitals, which are cased. *)
Definition cased (p : char) : bool := ascii_isalpha p || (128 <=? p)%N.

Definition ichr_class (p : char) : char -> bool :=
  if cased p then casematch p else N.eqb p.

Definition ichr (p : char) : regex := Chr (ichr_class p).

Definition ilit (s : text) : regex := seqs (map ichr s).

(** The keyword [kw] stands at offset [i] of [txt], in any casing and
    between two word boundaries: what [\bkw\b] looks for.  [keyword_atb]
    decides it. *)
Definition keyword_at (kw txt : text) (i : nat) : Prop :=
  boundary txt i = true /\
  Forall2 (fun p x => ichr_class p x = true) kw
          (firstn (length kw) (skipn i txt)) /\
  boundary txt (i + length kw) = true.

Fixpoint all2 {A B : Type} (f : A -> B -> bool) (l1 : list A) (l2 : list B)
  : bool :=
  match l1, l2 with
  | [], [] => true
  | a :: l1', b :: l2' => f a b && all2 f l1' l2'
  | _, _ => false
  end.

Definition keyword_atb (kw txt : text) (i : nat) : bool :=
  boundary txt i
  && all2 ichr_class kw (firstn (length kw) (skipn i txt))
  && boundary txt (i + length kw).

(** What a pattern matches, without the order in which the matcher tries
    its choices: [Matches r txt i c j c'] when [r] can take [txt] from
    offset [i] to offset [j], extending the groups [c] to [c']. *)
Inductive Matches (txt : text) : regex -> nat -> caps -> nat -> caps -> Prop :=
| M_Eps i c : Matches txt Eps i c i c
| M_Chr p i c x :
    nth_error txt i = Some x -> p x = true ->
    Matches txt (Chr p) i c (S i) c
| M_Seq a b i c j c' l c'' :
    Matches txt a i c j c' -> Matches txt b j c' l c'' ->
    Matches txt (Seq a b) i c l c''
| M_AltL a b i c j c' :
    Matches txt a i c j c' -> Matches txt (Alt a b) i c j c'
| M_AltR a b i c j c' :
    Matches txt b i c j c' -> Matches txt (Alt a b) i c j c'
| M_Rep g lo p i c n :
    lo <= n -> n <= run p txt i ->
    Matches txt (Rep g lo p) i c (i + n) c
| M_Group name a i c j c' :
    Matches txt a i c j c' ->
    Matches txt (Group name a) i c j ((name, (i, j)) :: c')
| M_WordB i c :
    boundary txt i = true -> Matches txt WordB i c i c.

End Matcher.

(** [always_binds name r]: every match of [r] sets the group [name]. *)
Fixpoint always_binds (name : string) (r : regex) : bool :=
  match r with
  | Seq a b => always_binds name a || always_binds name b
  | Alt a b => always_binds name a && always_binds name b
  | Group n a => String.eqb name n || always_binds name a
  | _ => false
  end.

(** Two patterns of the same shape whose character classes hold the same
    ASCII characters. *)
Inductive agree : regex -> regex -> Prop :=
| A_Eps : agree Eps Eps
| A_Chr p q :
    (forall c, (c < 128)%N -> p c = q c) -> agree (Chr p) (Chr q)
| A_Seq a a' b b' : agree a a' -> agree b b' -> agree (Seq a b) (Seq a' b')
| A_Alt a a' b b' : agree a a' -> agree b b' -> agree (Alt a b) (Alt a' b')
| A_Rep g lo p q :
    (forall c, (c < 128)%N -> p c = q c) -> agree (Rep g lo p) (Rep g lo q)
| A_Group name a a' : agree a a' -> agree (Group name a) (Group name a')
| A_WordB : agree WordB WordB.

(** Patterns that do not tell a small ASCII letter from its capital: a
    character class of the pattern holds of the one when it holds of the
    other. *)
Inductive caseless : regex -> Prop :=
| CL_Eps : caseless Eps
| CL_Chr p :
    (forall c, (c < 128)%N -> p (ascii_upper c) = p c) -> caseless (Chr p)
| CL_Seq a b : caseless a -> caseless b -> caseless (Seq a b)
| CL_Alt a b : caseless a -> caseless b -> caseless (Alt a b)
| CL_Rep g lo p :
    (forall c, (c < 128)%N -> p (ascii_upper c) = p c) ->
    caseless (Rep g lo p)
| CL_Group name a : caseless a -> caseless (Group name a)
| CL_WordB : caseless WordB.

(** The names of the groups of [r]. *)
Fixpoint groups_of (r : regex) : list string :=
  match r with
  | Seq a b | Alt a b => groups_of a ++ groups_of b
  | Group n a => n :: groups_of a
  | _ => []
  end.

(** The least number of characters a match of [r] takes. *)
Fixpoint min_len (r : regex) : nat :=
  match r with
  | Eps | WordB => 0
  | Chr _ => 1
  | Seq a b => min_len a + min_len b
  | Alt a b => Nat.min (min_len a) (min_len b)
  | Rep _ lo _ => lo
  | Group _ a => min_len a
  end.

End Re.

Import Re.

(** Exceptions: [None] stands for a raised exception. *)
Fixpoint mapM {A B : Type} (f : A -> option B) (l : list A)
  : option (list B) :=
  match l with
  | [] => Some []
  | a :: l' =>
      match f a with
      | None => None
      | Some b =>
          match mapM f l' with
          | None => None
          | Some bs => Some (b :: bs)
          end
      end
  end.

(** Truth value of the value of a group, and [a or b]: [None] and the
    empty string are false. *)
Definition truthy (o : option text) : bool :=
  match o with Some (_ :: _) => true | _ => false end.

Definition py_or (a b : option text) : option text :=
  if truthy a then a else b.

(** The class of the two quote characters, single and double. *)
Definition quote : regex := Chr (fun c => (c =? 39)%N || (c =? 34)%N).

(** [\.] *)
Definition period : regex := Chr (N.eqb 46).

(* ===================================================================== *)
(** * app/main.py *)
(* ===================================================================== *)

Module Main.

(** The sixth entry is written in Greek capitals in the source: MU, BETA,
    THETA, ALPHA. *)
Definition OBSOLETE_MB_TXNS : list text :=
  [str "MB01"; str "MB02"; str "MB03"; str "MB04"; str "MB05";
   [924; 914; 920; 913]%N; str "MB11";
   str "MB1A"; str "MB18"; str "MBC"; str "MB31"; str "MBNL"; str "MBRL";
   str "MBSF"; str "MBSL"; str "MBST"; str "MBSU"].

Record Unit := {
  pgm_name : text;
  inc_name : text;
  type : text;
  name : option text;
  class_implementation : option text;
  start_line : option Z;
  end_line : option Z;
  code : option text
}.

(** The eight fields of a unit, as the JSON object of its dump. *)
Definition unit_fields (u : Unit) : list (string * json) :=
  [("pgm_name", JStr (pgm_name u));
   ("inc_name", JStr (inc_name u));
   ("type", JStr (type u));
   ("name", opt_json JStr (name u));
   ("class_implementation", opt_json JStr (class_implementation u));
   ("start_line", opt_json JInt (start_line u));
   ("end_line", opt_json JInt (end_line u));
   ("code", opt_json JStr (code u))]%string.

(** The unit goes through the dump and back: no string field holds a
    surrogate, no integer field has more than 4300 digits. *)
Definition dumpable (u : Unit) : bool :=
  utf8_ok (pgm_name u) && utf8_ok (inc_name u) && utf8_ok (type u)
  && opt_ok utf8_ok (name u) && opt_ok utf8_ok (class_implementation u)
  && opt_ok int_ok (start_line u) && opt_ok int_ok (end_line u)
  && opt_ok utf8_ok (code u).

(** [json.loads(u.model_dump_json())]; [None] when it raises. *)
Definition model_dump (u : Unit) : option (list (string * json)) :=
  if dumpable u then Some (unit_fields u) else None.

(** One entry of the list [find_mb_txn_usage] returns.  [stmt] is a
    string: [suggest_replacement] raises on [None]. *)
Record usage := {
  full : option text;
  stmt : text;
  txn : option text;
  suggested_statement : text;
  span : Z * Z
}.

Section Defs.
Context {U : Unicode}.

Definition MB_TXN_RE : regex :=
  Group "full"
    (seqs [Group "stmt"
             (Alt (seqs [ilit (str "CALL"); Rep true 1 isspace;
                         ilit (str "TRANSACTION")])
                  (ilit (str "SUBMIT")));
           Rep true 1 isspace;
           Opt quote;
           Group "txn" (alts (map ilit OBSOLETE_MB_TXNS));
           Opt quote;
           Rep true 0 isspace;
           Opt period]).

Definition suggest_replacement (stmt : text) : text :=
  let stmt_up := upper stmt in
  if startswith stmt_up (str "SUBMIT") then str "SUBMIT MIGO."
  else str "CALL TRANSACTION 'MIGO'.".

Definition usage_of (txt : text) (m : rmatch) : option usage :=
  match group txt m "stmt" with
  | None => None
  | Some stmt =>
      Some {| full := group txt m "full";
              stmt := stmt;
              txn := group txt m "txn";
              suggested_statement := suggest_replacement stmt;
              span := Re.span m "full" |}
  end.

Definition find_mb_txn_usage (txt : text) : option (list usage) :=
  mapM (usage_of txt) (finditer MB_TXN_RE txt).

Definition NOTE : text :=
  str "Replace obsolete MB transaction with MIGO per SAP Note 1804812.".

Definition metadata_of (m : usage) : json :=
  JObj [("table", JStr (str "None"));
        ("target_type", JStr (str "None"));
        ("target_name", JStr (str "None"));
        ("used_fields", JList []);
        ("ambiguous", JBool false);
        ("obsolete_mb_txn", opt_json JStr (txn m));
        ("obsolete_txn", opt_json JStr (txn m));
        ("start_char_in_unit", JInt (fst (span m)));
        ("end_char_in_unit", JInt (snd (span m)));
        ("suggested_statement", JStr (suggested_statement m));
        ("suggested_fields", JNull);
        ("note", JStr NOTE)]%string.

(** [u.code] or else the empty string. *)
Definition code_or_empty (u : Unit) : text :=
  match code u with Some c => c | None => [] end.

Definition remediate_unit (u : Unit) : option json :=
  let src := code_or_empty u in
  match find_mb_txn_usage src with
  | None => None
  | Some matches =>
      let metadata := map metadata_of matches in
      match model_dump u with
      | None => None
      | Some obj =>
          Some (JObj (dict_set "mb_txn_usage" (JList metadata) obj))
      end
  end.

Definition remediate_mb_txns (units : list Unit) : option (list json) :=
  mapM remediate_unit units.

End Defs.

End Main.

(* ===================================================================== *)
(** * app/main1.py *)
(* ===================================================================== *)

Module Main1.

Record Unit := {
  pgm_name : text;
  inc_name : text;
  type : text;
  name : option text;
  class_implementation : option text;
  start_line : option Z;
  end_line : option Z;
  code : option text
}.

(** The eight fields of a unit, as the JSON object of its dump. *)
Definition unit_fields (u : Unit) : list (string * json) :=
  [("pgm_name", JStr (pgm_name u));
   ("inc_name", JStr (inc_name u));
   ("type", JStr (type u));
   ("name", opt_json JStr (name u));
   ("class_implementation", opt_json JStr (class_implementation u));
   ("start_line", opt_json JInt (start_line u));
   ("end_line", opt_json JInt (end_line u));
   ("code", opt_json JStr (code u))]%string.

(** The unit goes through the dump and back: no string field holds a
    surrogate, no integer field has more than 4300 digits. *)
Definition dumpable (u : Unit) : bool :=
  utf8_ok (pgm_name u) && utf8_ok (inc_name u) && utf8_ok (type u)
  && opt_ok utf8_ok (name u) && opt_ok utf8_ok (class_implementation u)
  && opt_ok int_ok (start_line u) && opt_ok int_ok (end_line u)
  && opt_ok utf8_ok (code u).

(** [json.loads(u.model_dump_json())]; [None] when it raises. *)
Definition model_dump (u : Unit) : option (list (string * json)) :=
  if dumpable u then Some (unit_fields u) else None.

(** One entry of the list [find_selects] returns. *)
Record select := {
  sel_text : option text;
  sel_table : option text;
  sel_target_type : text;
  sel_target_name : option text;
  sel_span : Z * Z
}.

(** The dictionary [sel_info]; its [used_fields], [ambiguous] and
    [suggested_fields] are constants. *)
Record sel_info := {
  table : text;
  target_type : text;
  target_name : option text;
  start_char_in_unit : Z;
  end_char_in_unit : Z;
  suggested_statement : option text
}.

Definition sel_info_json (i : sel_info) : json :=
  JObj [("table", JStr (table i));
        ("target_type", JStr (target_type i));
        ("target_name", opt_json JStr (target_name i));
        ("start_char_in_unit", JInt (start_char_in_unit i));
        ("end_char_in_unit", JInt (end_char_in_unit i));
        ("used_fields", JList []);
        ("ambiguous", JBool false);
        ("suggested_fields", JNull);
        ("suggested_statement", opt_json JStr (suggested_statement i))]%string.

Definition replacement := ((Z * Z) * text)%type.

(** [sorted(repls, key=lambda x: x[0][0], reverse=True)]: a stable sort,
    equal starts keep the order they came in. *)
Fixpoint insert_desc (x : replacement) (l : list replacement)
  : list replacement :=
  match l with
  | [] => [x]
  | y :: l' =>
      if (fst (fst y) <=? fst (fst x))%Z then x :: l
      else y :: insert_desc x l'
  end.

Fixpoint sorted_desc (l : list replacement) : list replacement :=
  match l with
  | [] => []
  | x :: l' => insert_desc x (sorted_desc l')
  end.

Definition splice (out : text) (x : replacement) : text :=
  let '((s, e), r) := x in slice_to out s ++ r ++ slice_from out e.

Definition apply_span_replacements (source : text) (repls : list replacement)
  : text :=
  fold_left splice (sorted_desc repls) source.

(** The words of the specification on the applier, for comparison with
    [apply_span_replacements]: a span lies within the text, two spans do
    not overlap, and [replaced_text src 0 asc] is the text with each span
    replaced by its replacement, for the pairs [asc] listed from left to
    right. *)
Definition start (x : replacement) : Z := fst (fst x).

Definition stop (x : replacement) : Z := snd (fst x).

Definition in_text (src : text) (x : replacement) : Prop :=
  (0 <= start x <= stop x)%Z /\ (stop x <= Z.of_nat (length src))%Z.

Definition disjoint (x y : replacement) : Prop :=
  (stop x <= start y)%Z \/ (stop y <= start x)%Z.

Definition ascending : list replacement -> Prop :=
  StronglySorted (fun x y => (start x < start y)%Z).

Fixpoint replaced_text (src : text) (pos : Z) (asc : list replacement)
  : text :=
  match asc with
  | [] => slice_from src pos
  | x :: rest =>
      slice src pos (start x) ++ snd x ++ replaced_text src (stop x) rest
  end.

Definition WATCH : list text := [str "VBRK"; str "VBRP"].

Definition in_watch (t : text) : bool := existsb (text_eqb t) WATCH.

Section Defs.
Context {U : Unicode}.

(** [[\w\s,*]] and [[\w@()\->]] *)
Definition field_char (c : char) : bool :=
  isword c || isspace c || (c =? 44)%N || (c =? 42)%N.

Definition dest_char (c : char) : bool :=
  isword c || (c =? 64)%N || (c =? 40)%N || (c =? 41)%N || (c =? 45)%N
  || (c =? 62)%N.

(** [.] under [re.DOTALL] *)
Definition any_char (c : char) : bool := true.

Definition SELECT_RE : regex :=
  Seq (Group "full"
         (seqs [ilit (str "SELECT"); Rep true 1 isspace;
                Opt (Seq (ilit (str "SINGLE")) (Rep true 1 isspace));
                Group "fields" (Rep true 1 field_char);
                Rep true 1 isspace; ilit (str "FROM"); Rep true 1 isspace;
                Group "table" (Rep true 1 isword);
                Group "middle" (Rep false 0 any_char);
                Alt (seqs [ilit (str "INTO"); Rep true 1 isspace;
                           ilit (str "TABLE"); Rep true 1 isspace;
                           Group "into_tab" (Rep true 1 dest_char)])
                    (seqs [ilit (str "INTO"); Rep true 1 isspace;
                           Group "into_wa" (Rep true 1 dest_char)]);
                Group "tail" (Rep false 0 any_char)]))
      period.

(** The pattern [{table_up}-DRAFT\s*=\s*Q?\s?Q?], with Q the class of the
    two quote characters; [table_up] is VBRK or VBRP where the pattern is
    built. *)
Definition DRAFT_RE (table_up : text) : regex :=
  seqs [ilit (table_up ++ str "-DRAFT"); Rep true 0 isspace; ilit (str "=");
        Rep true 0 isspace; Opt quote; Opt (Chr isspace); Opt quote].

Definition WHERE_RE : regex := seqs [WordB; ilit (str "WHERE"); WordB].

Definition INTO_RE : regex := seqs [WordB; ilit (str "INTO"); WordB].

Definition ensure_draft_filter (sel_stmt table : text) : text :=
  let table_up := upper table in
  if negb (in_watch table_up) then sel_stmt
  else
    match search (DRAFT_RE table_up) sel_stmt 0 with
    | Some _ => sel_stmt
    | None =>
        match search WHERE_RE sel_stmt 0 with
        | Some where_match =>
            let start := Z.of_nat (m_end where_match) in
            slice_to sel_stmt start
            ++ (str " " ++ table_up ++ str "-DRAFT = SPACE AND")
            ++ slice_from sel_stmt start
        | None =>
            match search INTO_RE sel_stmt 0 with
            | Some m =>
                let start := Z.of_nat (m_start m) in
                slice_to sel_stmt start
                ++ (str " WHERE " ++ table_up ++ str "-DRAFT = SPACE ")
                ++ slice_from sel_stmt start
            | None =>
                rstrip_char 46%N sel_stmt
                ++ (str " WHERE " ++ table_up ++ str "-DRAFT = SPACE.")
            end
        end
    end.

(** [re.sub(pattern, repl, txt)] for a replacement without group
    references. *)
Fixpoint sub_from (ms : list rmatch) (repl txt : text) (pos : nat) : text :=
  match ms with
  | [] => skipn pos txt
  | m :: ms' =>
      firstn (m_start m - pos) (skipn pos txt) ++ repl
      ++ sub_from ms' repl txt (m_end m)
  end.

Definition sub (r : regex) (repl txt : text) : text :=
  sub_from (finditer r txt) repl txt 0.

Definition build_replacement_stmt
  (sel_text table target_type : text) (target_name : option text) : text :=
  let stmt := ensure_draft_filter sel_text table in
  strip (sub (Rep true 1 isspace) (str " ") stmt).

Definition select_of (txt : text) (m : rmatch) : select :=
  {| sel_text := group txt m "full";
     sel_table := group txt m "table";
     sel_target_type :=
       if truthy (group txt m "into_tab") then str "itab" else str "wa";
     sel_target_name := py_or (group txt m "into_tab") (group txt m "into_wa");
     sel_span := span0 m |}.

Definition find_selects (txt : text) : list select :=
  map (select_of txt) (finditer SELECT_RE txt).

Definition code_or_empty (u : Unit) : text :=
  match code u with Some c => c | None => [] end.

(** The body of the loop over [selects]; the state is the pair of
    [replacements] and [selects_metadata]. *)
Definition step (acc : list replacement * list sel_info) (sel : select)
  : option (list replacement * list sel_info) :=
  match sel_table sel with
  | None => None
  | Some tab =>
      if in_watch (upper tab) then
        match sel_text sel with
        | None => None
        | Some txt =>
            let new_stmt :=
              build_replacement_stmt txt tab (sel_target_type sel)
                                     (sel_target_name sel) in
            let changed := negb (text_eqb new_stmt txt) in
            let info :=
              {| table := tab;
                 target_type := sel_target_type sel;
                 target_name := sel_target_name sel;
                 start_char_in_unit := fst (sel_span sel);
                 end_char_in_unit := snd (sel_span sel);
                 suggested_statement :=
                   if changed then Some new_stmt else None |} in
            Some (if changed then fst acc ++ [(sel_span sel, new_stmt)]
                  else fst acc,
                  snd acc ++ [info])
        end
      else Some acc
  end.

Fixpoint loop (sels : list select) (acc : list replacement * list sel_info)
  : option (list replacement * list sel_info) :=
  match sels with
  | [] => Some acc
  | sel :: sels' =>
      match step acc sel with
      | None => None
      | Some acc' => loop sels' acc'
      end
  end.

(** What one pass of the loop adds to [selects_metadata]. *)
Definition infos_of (sel : select) : list sel_info :=
  match step ([], []) sel with
  | Some (_, infos) => infos
  | None => []
  end.

Definition repls_of (sel : select) : list replacement :=
  match step ([], []) sel with
  | Some (repls, _) => repls
  | None => []
  end.

(** Whitespace runs collapsed to one space each, written as a scan: what
    [re.sub] with the pattern [\s+] and a one-space replacement computes
    ([sub_spaces]).  [in_run] says that the previous character was
    whitespace. *)
Fixpoint collapse (in_run : bool) (s : text) : text :=
  match s with
  | [] => []
  | c :: s' =>
      if isspace c then
        if in_run then collapse true s' else 32%N :: collapse true s'
      else c :: collapse false s'
  end.

(** Two whitespace characters in a row. *)
Fixpoint has_ws_run (s : text) : bool :=
  match s with
  | x :: s' =>
      match s' with
      | y :: _ => (isspace x && isspace y) || has_ws_run s'
      | [] => false
      end
  | [] => false
  end.

(** A whitespace character other than the space, such as a line break. *)
Definition has_other_ws (s : text) : bool :=
  existsb (fun c => isspace c && negb (c =? 32)%N) s.

Definition remediate_unit (u : Unit) : option json :=
  let src := code_or_empty u in
  let selects := find_selects src in
  match loop selects ([], []) with
  | None => None
  | Some (replacements, selects_metadata) =>
      let _patched := apply_span_replacements src replacements in
      match model_dump u with
      | None => None
      | Some obj =>
          Some (JObj (dict_set "selects"
                        (JList (map sel_info_json selects_metadata)) obj))
      end
  end.

Definition remediate_array (units : list Unit) : option (list json) :=
  mapM remediate_unit units.

(** The records the loop collects for a unit. *)
Definition selects_of (u : Unit) : list sel_info :=
  flat_map infos_of (find_selects (code_or_empty u)).

End Defs.

End Main1.

(* ===================================================================== *)
(** * Strings and slices *)
(* ===================================================================== *)

Lemma text_eqb_eq (a b : text) : text_eqb a b = true <-> a = b.
Proof.
  unfold text_eqb. destruct (list_eq_dec N.eq_dec a b); split; congruence.
Qed.

Lemma text_eqb_neq (a b : text) : text_eqb a b = false <-> a <> b.
Proof.
  unfold text_eqb. destruct (list_eq_dec N.eq_dec a b); split; congruence.
Qed.

Lemma clamp_nat (len n : nat) : clamp len (Z.of_nat n) = Nat.min n len.
Proof.
  unfold clamp. destruct (Z.ltb_spec (Z.of_nat n) 0); lia.
Qed.

Lemma slice_to_nat (A : Type) (l : list A) (n : nat) :
  slice_to l (Z.of_nat n) = firstn n l.
Proof.
  unfold slice_to. rewrite clamp_nat.
  destruct (Nat.le_gt_cases n (length l)).
  - now rewrite Nat.min_l.
  - rewrite Nat.min_r by lia. now rewrite !firstn_all2 by lia.
Qed.

Lemma slice_from_nat (A : Type) (l : list A) (n : nat) :
  slice_from l (Z.of_nat n) = skipn n l.
Proof.
  unfold slice_from. rewrite clamp_nat.
  destruct (Nat.le_gt_cases n (length l)).
  - now rewrite Nat.min_l.
  - rewrite Nat.min_r by lia. now rewrite !skipn_all2 by lia.
Qed.

Lemma slice_nat (A : Type) (l : list A) (a b : nat) :
  slice l (Z.of_nat a) (Z.of_nat b) = firstn (b - a) (skipn a l).
Proof.
  unfold slice. rewrite !clamp_nat.
  destruct (Nat.le_gt_cases a (length l)) as [Ha | Ha].
  - rewrite (Nat.min_l a) by lia.
    destruct (Nat.le_gt_cases b (length l)) as [Hb | Hb].
    + now rewrite Nat.min_l by lia.
    + rewrite Nat.min_r by lia.
      rewrite !firstn_all2; auto; rewrite length_skipn; lia.
  - rewrite (Nat.min_r a) by lia. now rewrite !skipn_all2, !firstn_nil by lia.
Qed.

(* ===================================================================== *)
(** * The matcher against the declarative reading *)
(* ===================================================================== *)

Section ReFacts.
Context {U : Unicode}.

Lemma run_len_le p s : run_len p s <= length s.
Proof. induction s as [|c s IH]; simpl; [lia | destruct (p c); lia]. Qed.

Lemma run_le p txt i : i <= length txt -> i + run p txt i <= length txt.
Proof.
  intros H. unfold run. pose proof (run_len_le p (skipn i txt)) as L.
  rewrite length_skipn in L. lia.
Qed.

Lemma greedy_try_sound k lo i n res :
  greedy_try k lo i n = Some res ->
  exists m, lo <= m <= n /\ k (i + m) = Some res.
Proof.
  induction n as [|n IH]; simpl.
  - destruct (Nat.ltb_spec 0 lo); [discriminate|].
    destruct (k (i + 0)) eqn:E; [|discriminate].
    intros [= <-]. exists 0. split; [lia | assumption].
  - destruct (Nat.ltb_spec (S n) lo); [discriminate|].
    destruct (k (i + S n)) eqn:E.
    + intros [= <-]. exists (S n). split; [lia | assumption].
    + intros Hn. destruct (IH Hn) as (m & Hm & Hk). exists m. split; [lia|auto].
Qed.

Lemma lazy_try_sound k i fuel : forall j res,
  lazy_try k i j fuel = Some res ->
  exists m, j <= m <= j + fuel /\ k (i + m) = Some res.
Proof.
  induction fuel as [|f IH]; simpl; intros j res.
  - destruct (k (i + j)) eqn:E; [|discriminate].
    intros [= <-]. exists j. split; [lia | assumption].
  - destruct (k (i + j)) eqn:E.
    + intros [= <-]. exists j. split; [lia | assumption].
    + intros Hn. destruct (IH _ _ Hn) as (m & Hm & Hk).
      exists m. split; [lia|auto].
Qed.

(** Soundness: a result of the matcher comes from its continuation, called
    at the end of a match of the pattern. *)
Lemma bt_sound r : forall txt i c k res,
  bt r txt i c k = Some res ->
  exists j c', Matches txt r i c j c' /\ k j c' = Some res.
Proof.
  induction r as [|p|a IHa b IHb|a IHa b IHb|g lo p|name a IHa|];
    intros txt i c k res; simpl.
  - intros H. exists i, c. split; [constructor | assumption].
  - destruct (nth_error txt i) as [x|] eqn:E; [|discriminate].
    destruct (p x) eqn:P; [|discriminate].
    intros H. exists (S i), c. split; [econstructor; eauto | assumption].
  - intros H. apply IHa in H as (j & c' & Ma & H).
    apply IHb in H as (l & c'' & Mb & H).
    exists l, c''. split; [econstructor; eauto | assumption].
  - destruct (bt a txt i c k) eqn:E.
    + intros [= <-]. apply IHa in E as (j & c' & Ma & H).
      exists j, c'. split; [now apply M_AltL | assumption].
    + intros H. apply IHb in H as (j & c' & Mb & H).
      exists j, c'. split; [now apply M_AltR | assumption].
  - destruct g.
    + intros H. apply greedy_try_sound in H as (m & Hm & H).
      exists (i + m), c. split; [apply M_Rep; lia | assumption].
    + destruct (Nat.ltb_spec (run p txt i) lo); [discriminate|].
      intros H0. apply lazy_try_sound in H0 as (m & Hm & H0).
      exists (i + m), c. split; [apply M_Rep; lia | assumption].
  - intros H. apply IHa in H as (j & c' & Ma & H).
    exists j, ((name, (i, j)) :: c'). split; [now constructor | assumption].
  - destruct (boundary txt i) eqn:B; [|discriminate].
    intros H. exists i, c. split; [now constructor | assumption].
Qed.

Lemma greedy_try_complete k lo i n m :
  lo <= m <= n -> k (i + m) <> None -> greedy_try k lo i n <> None.
Proof.
  induction n as [|n IH]; simpl; intros Hm Hk.
  - assert (m = 0) by lia. subst m.
    destruct (Nat.ltb_spec 0 lo); [lia|].
    destruct (k (i + 0)); congruence.
  - destruct (Nat.ltb_spec (S n) lo); [lia|].
    destruct (k (i + S n)) eqn:E; [congruence|].
    apply IH; [|assumption].
    destruct (Nat.eq_dec m (S n)); [subst; congruence | lia].
Qed.

Lemma lazy_try_complete k i fuel : forall j m,
  j <= m <= j + fuel -> k (i + m) <> None -> lazy_try k i j fuel <> None.
Proof.
  induction fuel as [|f IH]; simpl; intros j m Hm Hk.
  - assert (m = j) by lia. subst m. destruct (k (i + j)); congruence.
  - destruct (k (i + j)) eqn:E; [congruence|].
    apply (IH (S j) m); [|assumption].
    destruct (Nat.eq_dec m j); [subst; congruence | lia].
Qed.

(** Completeness: when the pattern has a match after which the
    continuation succeeds, the matcher does not fail. *)
Lemma bt_complete txt r i c j c' :
  Matches txt r i c j c' ->
  forall k, k j c' <> None -> bt r txt i c k <> None.
Proof.
  induction 1 as [i c|p i c x Hx Hp|a b i c j c' l c'' Ma IHa Mb IHb
                 |a b i c j c' Ma IHa|a b i c j c' Mb IHb
                 |g lo p i c n Hlo Hn|name a i c j c' Ma IHa|i c Hb];
    intros k Hk; simpl.
  - assumption.
  - now rewrite Hx, Hp.
  - apply IHa. now apply IHb.
  - destruct (bt a txt i c k) eqn:E; [congruence|].
    exfalso. now apply (IHa k).
  - destruct (bt a txt i c k) eqn:E; [congruence|]. now apply IHb.
  - destruct g.
    + apply greedy_try_complete with (m := n); [lia | assumption].
    + destruct (Nat.ltb_spec (run p txt i) lo); [lia|].
      apply lazy_try_complete with (m := n); [lia | assumption].
  - now apply IHa.
  - now rewrite Hb.
Qed.

(** Inversion of [Matches], one lemma for each pattern. *)
Lemma Matches_Eps_inv txt i c j c' :
  Matches txt Eps i c j c' -> j = i /\ c' = c.
Proof. inversion 1; auto. Qed.

Lemma Matches_Chr_inv txt p i c j c' :
  Matches txt (Chr p) i c j c' ->
  j = S i /\ c' = c /\ exists x, nth_error txt i = Some x /\ p x = true.
Proof. inversion 1; subst; eauto. Qed.

Lemma Matches_Seq_inv txt a b i c l c'' :
  Matches txt (Seq a b) i c l c'' ->
  exists j c', Matches txt a i c j c' /\ Matches txt b j c' l c''.
Proof. inversion 1; subst; eauto. Qed.

Lemma Matches_Alt_inv txt a b i c j c' :
  Matches txt (Alt a b) i c j c' ->
  Matches txt a i c j c' \/ Matches txt b i c j c'.
Proof. inversion 1; subst; auto. Qed.

Lemma Matches_Rep_inv txt g lo p i c j c' :
  Matches txt (Rep g lo p) i c j c' ->
  c' = c /\ exists n, j = i + n /\ lo <= n <= run p txt i.
Proof. inversion 1; subst; eauto. Qed.

Lemma Matches_Group_inv txt name a i c j c' :
  Matches txt (Group name a) i c j c' ->
  exists c0, c' = (name, (i, j)) :: c0 /\ Matches txt a i c j c0.
Proof. inversion 1; subst; eauto. Qed.

Lemma Matches_WordB_inv txt i c j c' :
  Matches txt WordB i c j c' -> j = i /\ c' = c /\ boundary txt i = true.
Proof. inversion 1; subst; auto. Qed.

Lemma Matches_min_len txt r i c j c' :
  Matches txt r i c j c' -> i + min_len r <= j.
Proof. induction 1; simpl in *; lia. Qed.

Lemma Matches_le txt r i c j c' : Matches txt r i c j c' -> i <= j.
Proof. intros H. apply Matches_min_len in H. lia. Qed.

Lemma Matches_in_text txt r i c j c' :
  Matches txt r i c j c' -> i <= length txt -> j <= length txt.
Proof.
  induction 1 as [| p i c x Hx Hp | | | | g lo p i c n Hlo Hn | |];
    intros Hi; auto.
  - apply nth_error_Some. congruence.
  - pose proof (run_le p txt i Hi). lia.
Qed.

(** A match only adds groups, in front of those it started from. *)
Lemma Matches_caps txt r i c j c' :
  Matches txt r i c j c' -> exists d, c' = d ++ c.
Proof.
  induction 1 as [| | a b i c j c' l c'' _ IHa _ IHb | | | |
                  name a i c j c' _ IHa |];
    try (now exists []); auto.
  - destruct IHa as [d1 ->], IHb as [d2 ->].
    exists (d2 ++ d1). now rewrite app_assoc.
  - destruct IHa as [d ->]. now exists ((name, (i, j)) :: d).
Qed.

(** The groups a match adds are groups of the pattern. *)
Lemma Matches_caps_names txt r i c j c' :
  Matches txt r i c j c' ->
  exists d, c' = d ++ c /\ incl (map fst d) (groups_of r).
Proof.
  induction 1 as [| | a b i c j c' l c'' _ IHa _ IHb
                 | a b i c j c' _ IHa | a b i c j c' _ IHb | |
                  name a i c j c' _ IHa |];
    simpl; try (exists []; split; [reflexivity | apply incl_nil_l]).
  - destruct IHa as (d1 & -> & I1), IHb as (d2 & -> & I2).
    exists (d2 ++ d1). split; [now rewrite app_assoc|].
    rewrite map_app. apply incl_app;
      [now apply incl_appr | now apply incl_appl].
  - destruct IHa as (d & -> & I). exists d. split; [reflexivity|].
    now apply incl_appl.
  - destruct IHb as (d & -> & I). exists d. split; [reflexivity|].
    now apply incl_appr.
  - destruct IHa as (d & -> & I). exists ((name, (i, j)) :: d).
    split; [reflexivity|]. simpl. intros n [<- | H]; [now left|].
    right. now apply I.
Qed.

Lemma lookup_app_skip name d c :
  ~ In name (map fst d) -> lookup name (d ++ c) = lookup name c.
Proof.
  induction d as [|[n sp] d IH]; simpl; intros H; [reflexivity|].
  destruct (String.eqb_spec name n) as [->|]; [tauto|]. apply IH. tauto.
Qed.

Lemma lookup_app_bound name d c :
  lookup name c <> None -> lookup name (d ++ c) <> None.
Proof.
  intros H. induction d as [|[n sp] d IH]; simpl; auto.
  destruct (String.eqb name n); congruence.
Qed.

Lemma Matches_binds name txt r i c j c' :
  Matches txt r i c j c' ->
  always_binds name r = true -> lookup name c' <> None.
Proof.
  induction 1 as [| | a b i c j c' l c'' Ma IHa Mb IHb | | | | |];
    simpl; intros B; try discriminate.
  - apply orb_true_iff in B as [B | B]; auto.
    destruct (Matches_caps _ _ _ _ _ _ Mb) as [d ->]. apply lookup_app_bound; auto.
  - apply andb_true_iff in B as [B _]; auto.
  - apply andb_true_iff in B as [_ B]; auto.
  - destruct (String.eqb name name0); [congruence | auto].
Qed.

Lemma match_at_spec r txt i m :
  match_at r txt i = Some m ->
  m_start m = i /\ Matches txt r i [] (m_end m) (m_caps m).
Proof.
  unfold match_at. destruct (bt r txt i [] accept) as [[e c]|] eqn:E;
    [|discriminate].
  intros [= <-]. simpl. split; [reflexivity|].
  apply bt_sound in E as (j & c' & M & A). unfold accept in A.
  now injection A as <- <-.
Qed.

Lemma match_at_complete r txt i j c' :
  Matches txt r i [] j c' -> match_at r txt i <> None.
Proof.
  intros M. unfold match_at.
  pose proof (bt_complete txt r i [] j c' M accept) as H.
  destruct (bt r txt i [] accept) as [[e c]|]; [congruence|].
  exfalso. apply H; unfold accept; congruence.
Qed.

Lemma match_at_in_text r txt i m :
  match_at r txt i = Some m -> i <= length txt -> m_end m <= length txt.
Proof.
  intros H Hi. apply match_at_spec in H as [_ M].
  eapply Matches_in_text; eauto.
Qed.

Lemma match_at_le r txt i m :
  match_at r txt i = Some m -> m_start m + min_len r <= m_end m.
Proof.
  intros H. apply match_at_spec in H as [-> M].
  now apply Matches_min_len in M.
Qed.

(** [search] returns the match at the leftmost offset that has one. *)
Lemma search_from_Some r txt fuel : forall i m,
  search_from r txt i fuel = Some m ->
  i <= m_start m <= i + fuel /\ match_at r txt (m_start m) = Some m /\
  forall q, i <= q < m_start m -> match_at r txt q = None.
Proof.
  induction fuel as [|f IH]; simpl; intros i m.
  - destruct (match_at r txt i) eqn:E; [|discriminate].
    intros [= ->]. pose proof (match_at_spec _ _ _ _ E) as [S _].
    rewrite S. repeat split; try lia; try assumption.
  - destruct (match_at r txt i) eqn:E.
    + intros [= ->]. pose proof (match_at_spec _ _ _ _ E) as [S _].
      rewrite S. repeat split; try lia; try assumption.
    + intros H. apply IH in H as (B & A & L). repeat split; try lia; auto.
      intros q Hq. destruct (Nat.eq_dec q i) as [->|]; [assumption|].
      apply L. lia.
Qed.

Lemma search_from_None r txt fuel : forall i,
  search_from r txt i fuel = None ->
  forall q, i <= q <= i + fuel -> match_at r txt q = None.
Proof.
  induction fuel as [|f IH]; simpl; intros i.
  - destruct (match_at r txt i) eqn:E; [discriminate|].
    intros _ q Hq. now replace q with i by lia.
  - destruct (match_at r txt i) eqn:E; [discriminate|].
    intros H q Hq. destruct (Nat.eq_dec q i) as [->|]; [assumption|].
    apply (IH _ H). lia.
Qed.

Lemma search_Some r txt pos m :
  search r txt pos = Some m ->
  pos <= m_start m <= length txt /\ match_at r txt (m_start m) = Some m /\
  forall q, pos <= q < m_start m -> match_at r txt q = None.
Proof.
  unfold search. destruct (Nat.ltb_spec (length txt) pos); [discriminate|].
  intros H0. apply search_from_Some in H0 as (B & A & L).
  repeat split; try lia; auto.
Qed.

Lemma search_None r txt pos :
  search r txt pos = None ->
  forall q, pos <= q <= length txt -> match_at r txt q = None.
Proof.
  unfold search. destruct (Nat.ltb_spec (length txt) pos).
  - intros _ q Hq. lia.
  - intros H0 q Hq. apply (search_from_None _ _ _ _ H0). lia.
Qed.

(** When the pattern matches somewhere at or after [pos], [search] finds
    a match. *)
Lemma search_complete r txt pos q j c' :
  pos <= q <= length txt -> Matches txt r q [] j c' ->
  search r txt pos <> None.
Proof.
  intros Hq M N. apply (match_at_complete _ _ _ _ _ M).
  now apply (search_None _ _ _ N).
Qed.

Lemma finditer_from_In r txt fuel : forall pos m,
  In m (finditer_from r txt pos fuel) ->
  pos <= m_start m <= length txt /\ match_at r txt (m_start m) = Some m.
Proof.
  induction fuel as [|f IH]; simpl; intros pos m; [tauto|].
  destruct (search r txt pos) as [m0|] eqn:E; simpl; [|tauto].
  pose proof (search_Some _ _ _ _ E) as (B & A & _).
  intros [<- | H]; [split; [lia | assumption]|].
  apply IH in H as [B' A']. split; [|assumption].
  pose proof (match_at_le _ _ _ _ A) as L.
  destruct (Nat.eqb_spec (m_end m0) (m_start m0)); lia.
Qed.

Lemma finditer_from_sorted r txt fuel : forall pos,
  StronglySorted before (finditer_from r txt pos fuel).
Proof.
  induction fuel as [|f IH]; simpl; intros pos; [constructor|].
  destruct (search r txt pos) as [m0|] eqn:E; [|constructor].
  pose proof (search_Some _ _ _ _ E) as (B & A & _).
  pose proof (match_at_le _ _ _ _ A) as L.
  constructor; [apply IH|].
  apply Forall_forall. intros m H. apply finditer_from_In in H as [B' _].
  unfold before. destruct (Nat.eqb_spec (m_end m0) (m_start m0)); lia.
Qed.

Lemma finditer_sorted r txt : StronglySorted before (finditer r txt).
Proof. apply finditer_from_sorted. Qed.

Lemma finditer_In r txt m :
  In m (finditer r txt) ->
  m_start m <= length txt /\ match_at r txt (m_start m) = Some m.
Proof.
  intros H. apply finditer_from_In in H as [B A]. split; [lia | assumption].
Qed.

(** The fuel of [finditer] is enough: more of it finds nothing more. *)
Lemma finditer_from_fuel r txt f1 : forall pos f2,
  S (length txt) - pos <= f1 -> S (length txt) - pos <= f2 ->
  finditer_from r txt pos f1 = finditer_from r txt pos f2.
Proof.
  induction f1 as [|f1 IH]; intros pos f2 H1 H2.
  - destruct f2 as [|f2]; [reflexivity|]. simpl. unfold search.
    destruct (Nat.ltb_spec (length txt) pos); [reflexivity | lia].
  - destruct f2 as [|f2]; simpl.
    + unfold search.
      destruct (Nat.ltb_spec (length txt) pos); [reflexivity | lia].
    + destruct (search r txt pos) as [m0|] eqn:E; [|reflexivity].
      pose proof (search_Some _ _ _ _ E) as (B & A & _).
      pose proof (match_at_le _ _ _ _ A) as L.
      f_equal. apply IH;
        destruct (Nat.eqb_spec (m_end m0) (m_start m0)); lia.
Qed.

End ReFacts.

(* ===================================================================== *)
(** * Loops that may raise *)
(* ===================================================================== *)

Lemma mapM_Some {A B : Type} (f : A -> option B) l : forall bs,
  mapM f l = Some bs -> Forall2 (fun a b => f a = Some b) l bs.
Proof.
  induction l as [|a l IH]; simpl; intros bs.
  - intros [= <-]. constructor.
  - destruct (f a) as [b|] eqn:E; [|discriminate].
    destruct (mapM f l) as [bs'|]; [|discriminate].
    intros [= <-]. constructor; auto.
Qed.

Lemma mapM_total {A B : Type} (f : A -> option B) l :
  (forall a, In a l -> f a <> None) -> exists bs, mapM f l = Some bs.
Proof.
  induction l as [|a l IH]; simpl; intros H.
  - now exists [].
  - destruct (f a) as [b|] eqn:E; [|exfalso; apply (H a); auto].
    destruct IH as [bs ->]; [intros; apply H; auto|].
    now exists (b :: bs).
Qed.

(** The loop returns when no pass raises, and only then. *)
Lemma mapM_defined {A B : Type} (f : A -> option B) l :
  mapM f l <> None <-> forall a, In a l -> f a <> None.
Proof.
  induction l as [|a l IH]; simpl.
  - split; [intros _ a [] | discriminate].
  - destruct (f a) as [b|] eqn:E.
    + destruct (mapM f l) as [bs|].
      * split; [|discriminate]. intros _ x [<- | Hx]; [congruence|].
        now apply (proj1 IH).
      * split; [congruence|]. intros H. apply (proj2 IH).
        intros x Hx. apply H. now right.
    + split; [congruence|]. intros H. exfalso.
      apply (H a (or_introl eq_refl)). exact E.
Qed.

Lemma Forall2_In_r {A B : Type} (R : A -> B -> Prop) l bs b :
  Forall2 R l bs -> In b bs -> exists a, In a l /\ R a b.
Proof.
  induction 1 as [|a b' l bs Hab _ IH]; simpl; [tauto|].
  intros [<- | H].
  - exists a. auto.
  - destruct (IH H) as (a' & Ha & Hr). exists a'. auto.
Qed.

Lemma Forall2_nth_l {A B : Type} (R : A -> B -> Prop) l bs :
  Forall2 R l bs ->
  forall n a, nth_error l n = Some a ->
  exists b, nth_error bs n = Some b /\ R a b.
Proof.
  induction 1 as [|a0 b0 l bs Hab _ IH]; intros [|n] a; simpl;
    try discriminate.
  - intros [= <-]. exists b0. auto.
  - apply IH.
Qed.

(* ===================================================================== *)
(** * Sequences of patterns *)
(* ===================================================================== *)

Section SeqFacts.
Context {U : Unicode}.

(** The last pattern of a sequence runs after a match of those before it,
    with the continuation of the whole sequence. *)
Lemma bt_seqs_snoc r rs : forall txt i c k res,
  bt (seqs (rs ++ [r])) txt i c k = Some res ->
  exists j c', Matches txt (seqs rs) i c j c' /\ bt r txt j c' k = Some res.
Proof.
  induction rs as [|a rs IH]; intros txt i c k res H.
  - exists i, c. split; [constructor | exact H].
  - destruct rs as [|b rs].
    + simpl in H. apply bt_sound in H as (j & c' & Ma & H).
      exists j, c'. auto.
    + change (bt a txt i c (fun j c' => bt (seqs ((b :: rs) ++ [r])) txt j c' k)
              = Some res) in H.
      apply bt_sound in H as (j & c' & Ma & H).
      apply IH in H as (l & c'' & Mb & H).
      exists l, c''. split; [|exact H].
      change (Matches txt (Seq a (seqs (b :: rs))) i c l c'').
      econstructor; eauto.
Qed.

Lemma bt_Group name a txt i c k :
  bt (Group name a) txt i c k =
  bt a txt i c (fun j c' => k j ((name, (i, j)) :: c')).
Proof. reflexivity. Qed.

(** [x?] at the end of a pattern: when the class [p] has the next
    character, it is taken. *)
Lemma bt_Opt_Chr_accept p txt i c k res :
  (forall j c', k j c' <> None) ->
  bt (Opt (Chr p)) txt i c k = Some res ->
  match nth_error txt i with
  | Some x => if p x then k (S i) c = Some res else k i c = Some res
  | None => k i c = Some res
  end.
Proof.
  intros Hk. simpl. destruct (nth_error txt i) as [x|]; [|auto].
  destruct (p x); [|auto].
  destruct (k (S i) c) eqn:E; [congruence|]. now apply Hk in E.
Qed.

End SeqFacts.

Section SeqLast.
Context {U : Unicode}.

Lemma bt_seqs_last rs : forall txt i c k res,
  rs <> [] ->
  bt (seqs rs) txt i c k = Some res ->
  exists j c', Matches txt (seqs (removelast rs)) i c j c' /\
               bt (last rs Eps) txt j c' k = Some res.
Proof.
  intros txt i c k res Hne H.
  rewrite (app_removelast_last Eps Hne) in H at 1.
  now apply bt_seqs_snoc in H.
Qed.

End SeqLast.

(* ===================================================================== *)
(** * Literal text in a pattern *)
(* ===================================================================== *)

Lemma skipn_cons_nth {A : Type} (l : list A) : forall q x rest,
  skipn q l = x :: rest -> nth_error l q = Some x /\ skipn (S q) l = rest.
Proof.
  induction l as [|a l IH]; intros [|q] x rest; simpl; try discriminate.
  - intros [= -> ->]. auto.
  - intros H. now apply IH.
Qed.

Lemma ascii_lower_lt c p :
  (p < 128)%N -> ascii_lower c = ascii_lower p -> (c < 128)%N.
Proof.
  unfold ascii_lower, between. intros Hp.
  destruct (N.leb_spec 65 c), (N.leb_spec c 90), (N.leb_spec 65 p),
    (N.leb_spec p 90); simpl; lia.
Qed.

Lemma ascii_lower_fix c v :
  between 65 90 v = false -> between 97 122 v = false ->
  ascii_lower c = v -> c = v.
Proof.
  unfold ascii_lower, between.
  destruct (N.leb_spec 65 c), (N.leb_spec c 90), (N.leb_spec 65 v),
    (N.leb_spec v 90), (N.leb_spec 97 v), (N.leb_spec v 122);
    simpl; intros; try discriminate; lia.
Qed.

Section Literals.
Context {U : Unicode}.

(** An ASCII literal of a pattern matches its case variants. *)
Lemma ichr_class_ci p c :
  (p < 128)%N -> ascii_lower c = ascii_lower p -> ichr_class p c = true.
Proof.
  intros Hp E. pose proof (ascii_lower_lt c p Hp E) as Hc.
  unfold ichr_class, cased.
  destruct (N.leb_spec 128 p); [lia|]. rewrite orb_false_r.
  destruct (ascii_isalpha p) eqn:A.
  - rewrite casematch_ascii by assumption. apply N.eqb_eq. now symmetry.
  - apply N.eqb_eq. symmetry. revert E A.
    unfold ascii_lower, ascii_isalpha, between.
    destruct (N.leb_spec 65 c), (N.leb_spec c 90), (N.leb_spec 65 p),
      (N.leb_spec p 90), (N.leb_spec 97 p), (N.leb_spec p 122);
      simpl; intros; try discriminate; lia.
Qed.

Lemma Matches_ilit txt pat : forall q c,
  Forall2 (fun p x => ichr_class p x = true) pat
          (firstn (length pat) (skipn q txt)) ->
  Matches txt (ilit pat) q c (q + length pat) c.
Proof.
  induction pat as [|p pat IH]; intros q c H.
  - simpl. rewrite Nat.add_0_r. constructor.
  - simpl length in H. destruct (skipn q txt) as [|x rest] eqn:E;
      [inversion H|].
    apply skipn_cons_nth in E as [N R]. simpl in H.
    inversion H as [|? ? ? ? Hp Hrest]; subst.
    assert (M1 : Matches txt (ichr p) q c (S q) c)
      by (econstructor; eauto).
    destruct pat as [|p' pat].
    + simpl. now replace (q + 1) with (S q) by lia.
    + change (ilit (p :: p' :: pat)) with (Seq (ichr p) (ilit (p' :: pat))).
      replace (q + length (p :: p' :: pat))
        with (S q + length (p' :: pat)) by (simpl; lia).
      econstructor; [exact M1|]. now apply IH.
Qed.

Lemma Matches_ilit_inv txt pat : forall q c j c',
  Matches txt (ilit pat) q c j c' ->
  j = q + length pat /\ c' = c /\
  Forall2 (fun p x => ichr_class p x = true) pat
          (firstn (length pat) (skipn q txt)).
Proof.
  assert (One : forall p q c j c',
             Matches txt (ichr p) q c j c' ->
             j = S q /\ c' = c /\
             exists x rest, skipn q txt = x :: rest /\
                            ichr_class p x = true).
  { intros p q c j c' M.
    apply Matches_Chr_inv in M as (-> & -> & x & N & P).
    repeat split. rewrite <- (firstn_skipn q txt) in N.
    assert (L : q <= length txt) by (apply Nat.lt_le_incl, nth_error_Some;
      rewrite <- (firstn_skipn q txt); congruence).
    rewrite nth_error_app2 in N by (rewrite length_firstn; lia).
    rewrite length_firstn, Nat.min_l, Nat.sub_diag in N by lia.
    destruct (skipn q txt) as [|y rest]; [discriminate|].
    injection N as ->. eauto. }
  induction pat as [|p pat IH]; intros q c j c' M.
  - apply Matches_Eps_inv in M as [-> ->]. simpl.
    repeat split; [lia | constructor].
  - destruct pat as [|p' pat].
    + apply One in M as (-> & -> & x & rest & E & P). simpl. rewrite E.
      repeat split; [lia|]. simpl. repeat constructor. exact P.
    + change (ilit (p :: p' :: pat)) with (Seq (ichr p) (ilit (p' :: pat)))
        in M.
      apply Matches_Seq_inv in M as (j1 & c1 & M1 & M2).
      apply One in M1 as (-> & -> & x & rest & E & P).
      apply IH in M2 as (-> & -> & F).
      repeat split; [simpl; lia|].
      apply skipn_cons_nth in E as E'. destruct E' as [_ R].
      change (length (p :: p' :: pat)) with (S (length (p' :: pat))).
      rewrite E. simpl firstn. constructor; [exact P|]. now rewrite <- R.
Qed.

End Literals.

(* ===================================================================== *)
(** * app/main.py: the matcher *)
(* ===================================================================== *)

Section MainFacts.
Context {U : Unicode}.

(** A match of [MB_TXN_RE] sets its three groups, [full] to the span of
    the whole match, and takes ten characters or more. *)
Lemma MB_TXN_RE_match txt i m :
  match_at Main.MB_TXN_RE txt i = Some m ->
  m_start m = i /\
  lookup "full" (m_caps m) = Some (i, m_end m) /\
  lookup "stmt" (m_caps m) <> None /\
  lookup "txn" (m_caps m) <> None /\
  i + 10 <= m_end m.
Proof.
  intros H. pose proof (match_at_le _ _ _ _ H) as L.
  apply match_at_spec in H as [S M]. rewrite S in L.
  change (min_len Main.MB_TXN_RE) with 10 in L.
  split; [exact S|]. unfold Main.MB_TXN_RE in M.
  apply Matches_Group_inv in M as (c0 & -> & Mb).
  repeat split; try exact L.
  - simpl. apply (Matches_binds "stmt" _ _ _ _ _ _ Mb). reflexivity.
  - simpl. apply (Matches_binds "txn" _ _ _ _ _ _ Mb). reflexivity.
Qed.

Lemma MB_TXN_RE_nonempty txt i m :
  match_at Main.MB_TXN_RE txt i = Some m -> m_start m < m_end m.
Proof. intros H. apply MB_TXN_RE_match in H. lia. Qed.

(** The period at the end of [MB_TXN_RE] is optional and greedy: a match
    ends with a period, or stops where no period follows. *)
Lemma MB_TXN_RE_period txt i m :
  match_at Main.MB_TXN_RE txt i = Some m ->
  nth_error txt (m_end m - 1) = Some 46%N \/
  nth_error txt (m_end m) <> Some 46%N.
Proof.
  unfold match_at.
  destruct (bt Main.MB_TXN_RE txt i [] accept) as [[e c]|] eqn:E;
    [|discriminate].
  intros [= <-]. simpl m_end.
  unfold Main.MB_TXN_RE in E. rewrite bt_Group in E.
  apply bt_seqs_last in E as (j & c' & _ & E); [|discriminate].
  simpl last in E. apply bt_Opt_Chr_accept in E; [|discriminate].
  unfold accept in E.
  destruct (nth_error txt j) as [x|] eqn:N.
  - destruct (N.eqb_spec 46 x) as [<-|Hx].
    + injection E as <- _. left. simpl. now rewrite Nat.sub_0_r.
    + injection E as <- _. right. congruence.
  - injection E as <- _. right. congruence.
Qed.

(** The group [stmt] of a match holds a match of one of the two verbs. *)
Lemma MB_TXN_RE_stmt txt i m :
  match_at Main.MB_TXN_RE txt i = Some m ->
  exists j,
    lookup "stmt" (m_caps m) = Some (i, j) /\
    (Matches txt (ilit (str "SUBMIT")) i [] j [] \/
     exists j1, j1 <= j /\ Matches txt (ilit (str "CALL")) i [] j1 []).
Proof.
  intros H. apply match_at_spec in H as [_ M].
  unfold Main.MB_TXN_RE in M.
  apply Matches_Group_inv in M as (c0 & -> & M).
  cbn [seqs] in M.
  apply Matches_Seq_inv in M as (j & c1 & Ms & Mr).
  apply Matches_Group_inv in Ms as (c2 & -> & Ma).
  exists j. split.
  - apply Matches_caps_names in Mr as (d & -> & I).
    cbn [lookup]. change (String.eqb "stmt" "full") with false. cbv iota.
    rewrite lookup_app_skip; [simpl; reflexivity|].
    intros C. apply I in C. simpl in C.
    destruct C as [C | []]. discriminate.
  - apply Matches_Alt_inv in Ma as [Ma | Ma].
    + right. cbn [seqs] in Ma.
      apply Matches_Seq_inv in Ma as (j1 & c3 & M1 & M2).
      apply Matches_le in M2.
      pose proof (Matches_ilit_inv _ _ _ _ _ _ M1) as (_ & -> & _).
      exists j1. auto.
    + left. pose proof (Matches_ilit_inv _ _ _ _ _ _ Ma) as (_ & -> & _).
      exact Ma.
Qed.

(** Upper-casing an ASCII text that matches a literal in capitals gives
    the literal. *)
Lemma upper_of_ilit pat : forall mid,
  Forall (fun p => between 65 90 p = true) pat ->
  Forall (fun c => (c < 128)%N) mid ->
  Forall2 (fun p x => ichr_class p x = true) pat mid ->
  upper mid = pat.
Proof.
  induction pat as [|p pat IH]; intros mid Fp Fm F;
    inversion F as [|? x ? rest Hc Hrest]; subst; [reflexivity|].
  inversion Fp as [|? ? Hp Fp']; inversion Fm as [|? ? Hx Fm']; subst.
  unfold upper. simpl. fold (upper rest). rewrite (IH rest) by assumption.
  rewrite toupper_ascii by assumption. simpl. f_equal.
  revert Hc. unfold ichr_class, cased, ascii_isalpha. rewrite Hp. simpl.
  assert (Lp : (p < 128)%N).
  { unfold between in Hp. apply andb_true_iff in Hp as [_ Hp].
    apply N.leb_le in Hp. lia. }
  rewrite casematch_ascii by assumption. intros E. apply N.eqb_eq in E.
  revert E Hp. unfold ascii_lower, ascii_upper, between.
  destruct (N.leb_spec 65 p), (N.leb_spec p 90), (N.leb_spec 65 x),
    (N.leb_spec x 90), (N.leb_spec 97 x), (N.leb_spec x 122);
    simpl; intros; try discriminate; lia.
Qed.

Lemma usage_of_spec txt m o :
  match_at Main.MB_TXN_RE txt (m_start m) = Some m ->
  Main.usage_of txt m = Some o ->
  Main.span o = (Z.of_nat (m_start m), Z.of_nat (m_end m)) /\
  Main.full o = Some (firstn (m_end m - m_start m) (skipn (m_start m) txt)) /\
  Main.txn o <> None /\
  Main.suggested_statement o = Main.suggest_replacement (Main.stmt o).
Proof.
  intros H. apply MB_TXN_RE_match in H as (_ & F & _ & T & _).
  unfold Main.usage_of, group, span.
  destruct (lookup "stmt" (m_caps m)) as [[s e]|]; [|discriminate].
  intros [= <-]. simpl. rewrite F.
  repeat split. destruct (lookup "txn" (m_caps m)) as [[s' e']|]; congruence.
Qed.

Lemma usage_of_total txt m :
  match_at Main.MB_TXN_RE txt (m_start m) = Some m ->
  Main.usage_of txt m <> None.
Proof.
  intros H. apply MB_TXN_RE_match in H as (_ & _ & S & _).
  unfold Main.usage_of, group.
  destruct (lookup "stmt" (m_caps m)) as [[s e]|]; congruence.
Qed.

(** [find_mb_txn_usage] raises on no text. *)
Lemma find_mb_txn_usage_total txt :
  exists l, Main.find_mb_txn_usage txt = Some l.
Proof.
  apply mapM_total. intros m H. apply finditer_In in H as [_ H].
  now apply usage_of_total.
Qed.

(** Every entry of [find_mb_txn_usage] comes from a match of the
    pattern. *)
Lemma find_mb_txn_usage_In txt l o :
  Main.find_mb_txn_usage txt = Some l -> In o l ->
  exists m, m_start m <= length txt /\
            match_at Main.MB_TXN_RE txt (m_start m) = Some m /\
            Main.usage_of txt m = Some o.
Proof.
  intros H Ho. apply mapM_Some in H.
  destruct (Forall2_In_r _ _ _ _ H Ho) as (m & Hm & Hu).
  apply finditer_In in Hm as [B A]. exists m. auto.
Qed.

(** The verb of a match, when it is ASCII text: SUBMIT in some casing,
    with the SUBMIT suggestion, or a text that starts with CALL in some
    casing, with the CALL TRANSACTION suggestion. *)
Lemma usage_verb txt l o :
  Main.find_mb_txn_usage txt = Some l -> In o l ->
  Forall (fun c => (c < 128)%N) (Main.stmt o) ->
  (upper (Main.stmt o) = str "SUBMIT" /\
   Main.suggested_statement o = str "SUBMIT MIGO.") \/
  (firstn 4 (upper (Main.stmt o)) = str "CALL" /\
   Main.suggested_statement o = str "CALL TRANSACTION 'MIGO'.").
Proof.
  intros H Ho A.
  destruct (find_mb_txn_usage_In _ _ _ H Ho) as (m & _ & Hm & Hu).
  destruct (MB_TXN_RE_stmt _ _ _ Hm) as (j & L & V).
  unfold Main.usage_of, group in Hu. rewrite L in Hu.
  injection Hu as <-. simpl in A |- *.
  set (i := m_start m) in *.
  set (stmt := firstn (j - i) (skipn i txt)) in *.
  destruct V as [M | (j1 & Hj & M)].
  - left. apply Matches_ilit_inv in M as (-> & _ & F).
    assert (E : upper stmt = str "SUBMIT").
    { apply upper_of_ilit; [repeat constructor | exact A|].
      unfold stmt. now replace (i + length (str "SUBMIT") - i) with 6
        by (simpl; lia). }
    split; [exact E|]. unfold Main.suggest_replacement. now rewrite E.
  - right. apply Matches_ilit_inv in M as (-> & _ & F).
    simpl length in *.
    assert (E4 : firstn 4 stmt = firstn 4 (skipn i txt)).
    { unfold stmt. rewrite firstn_firstn. f_equal. lia. }
    rewrite <- (firstn_skipn 4 stmt) in A. apply Forall_app in A as [A4 _].
    assert (E : upper (firstn 4 stmt) = str "CALL").
    { apply upper_of_ilit; [repeat constructor | exact A4|]. now rewrite E4. }
    assert (Eu : upper stmt = str "CALL" ++ upper (skipn 4 stmt)).
    { rewrite <- (firstn_skipn 4 stmt) at 1. unfold upper at 1.
      rewrite flat_map_app. fold (upper (firstn 4 stmt)). now rewrite E. }
    split; [now rewrite Eu|].
    unfold Main.suggest_replacement. now rewrite Eu.
Qed.

End MainFacts.

(* ===================================================================== *)
(** * app/main1.py: the matcher *)
(* ===================================================================== *)

Lemma firstn_S_nth {A : Type} (l : list A) : forall n x,
  nth_error l n = Some x -> firstn (S n) l = firstn n l ++ [x].
Proof.
  induction l as [|a l IH]; intros [|n] x; simpl; try discriminate.
  - now intros [= <-].
  - intros H. f_equal. now apply IH.
Qed.

Lemma nth_error_skipn {A : Type} (l : list A) : forall i n,
  nth_error (skipn i l) n = nth_error l (i + n).
Proof.
  induction l as [|a l IH]; intros [|i] n; simpl; auto.
  now destruct n.
Qed.

Section Main1Facts.
Context {U : Unicode}.

(** A match of [SELECT_RE] ends with the period, which lies outside the
    group [full]; the groups [full] and [table] are set. *)
Lemma SELECT_RE_match txt i m :
  match_at Main1.SELECT_RE txt i = Some m ->
  m_start m = i /\
  exists j, m_end m = S j /\ i + 21 <= j /\ S j <= length txt /\
            nth_error txt j = Some 46%N /\
            lookup "full" (m_caps m) = Some (i, j) /\
            lookup "table" (m_caps m) <> None.
Proof.
  intros H. apply match_at_spec in H as [S M].
  split; [exact S|]. unfold Main1.SELECT_RE in M.
  apply Matches_Seq_inv in M as (j & c' & Mg & Mp).
  apply Matches_Chr_inv in Mp as (E & C & x & Hx & Hp).
  apply N.eqb_eq in Hp. subst x.
  apply Matches_Group_inv in Mg as (c0 & -> & Mb).
  rewrite C. exists j. repeat split; auto.
  - apply Matches_min_len in Mb. exact Mb.
  - apply nth_error_Some. congruence.
  - simpl. apply (Matches_binds "table" _ _ _ _ _ _ Mb). reflexivity.
Qed.

Lemma SELECT_RE_nonempty txt i m :
  match_at Main1.SELECT_RE txt i = Some m -> m_start m < m_end m.
Proof. intros H. apply SELECT_RE_match in H as (-> & j & -> & ? & _). lia. Qed.

Lemma select_of_spec txt m :
  match_at Main1.SELECT_RE txt (m_start m) = Some m ->
  exists j tab,
    m_end m = S j /\ m_start m + 21 <= j /\ S j <= length txt /\
    nth_error txt j = Some 46%N /\
    Main1.sel_text (Main1.select_of txt m)
      = Some (firstn (j - m_start m) (skipn (m_start m) txt)) /\
    Main1.sel_table (Main1.select_of txt m) = Some tab /\
    Main1.sel_span (Main1.select_of txt m)
      = (Z.of_nat (m_start m), Z.of_nat (S j)).
Proof.
  intros H. apply SELECT_RE_match in H as (_ & j & E & L & B & P & F & T).
  unfold Main1.select_of, group, span0. simpl. rewrite F, E.
  destruct (lookup "table" (m_caps m)) as [[s e]|]; [|congruence].
  exists j, (firstn (e - s) (skipn s txt)). repeat split; auto.
Qed.

(** Every entry of [find_selects] comes from a match of the pattern. *)
Lemma find_selects_In txt sel :
  In sel (Main1.find_selects txt) ->
  exists m, match_at Main1.SELECT_RE txt (m_start m) = Some m /\
            sel = Main1.select_of txt m.
Proof.
  unfold Main1.find_selects. intros H. apply in_map_iff in H as (m & <- & H).
  apply finditer_In in H as [_ H]. exists m. auto.
Qed.

(** One pass of the loop appends to both lists, whatever they hold. *)
Lemma step_additive acc sel :
  Main1.step acc sel =
  match Main1.step ([], []) sel with
  | Some (r, i) => Some (fst acc ++ r, snd acc ++ i)
  | None => None
  end.
Proof.
  unfold Main1.step. destruct (Main1.sel_table sel) as [tab|]; [|reflexivity].
  destruct (Main1.in_watch (upper tab)).
  - destruct (Main1.sel_text sel) as [t|]; [|reflexivity]. simpl.
    destruct (negb _); simpl; now rewrite ?app_nil_r.
  - simpl. rewrite !app_nil_r. now destruct acc.
Qed.

Lemma loop_spec sels : forall acc res,
  Main1.loop sels acc = Some res ->
  res = (fst acc ++ flat_map Main1.repls_of sels,
         snd acc ++ flat_map Main1.infos_of sels).
Proof.
  induction sels as [|sel sels IH]; simpl; intros acc res.
  - intros [= <-]. rewrite !app_nil_r. now destruct acc.
  - rewrite step_additive. unfold Main1.repls_of, Main1.infos_of.
    destruct (Main1.step ([], []) sel) as [[r i]|]; [|discriminate].
    intros H. apply IH in H. simpl in H. now rewrite <- !app_assoc in H.
Qed.

Lemma loop_total sels : forall acc,
  (forall sel, In sel sels -> Main1.step ([], []) sel <> None) ->
  exists res, Main1.loop sels acc = Some res.
Proof.
  induction sels as [|sel sels IH]; simpl; intros acc H; [eauto|].
  rewrite step_additive.
  destruct (Main1.step ([], []) sel) as [[r i]|] eqn:E;
    [|exfalso; apply (H sel); auto].
  apply IH. intros; apply H; auto.
Qed.

(** The loop raises on no entry of [find_selects]. *)
Lemma step_total txt sel acc :
  In sel (Main1.find_selects txt) -> Main1.step acc sel <> None.
Proof.
  intros H. apply find_selects_In in H as (m & H & ->).
  apply select_of_spec in H as (j & tab & _ & _ & _ & _ & T & B & _).
  unfold Main1.step. rewrite B, T.
  destruct (Main1.in_watch (upper tab)); discriminate.
Qed.

(** The record of a reported SELECT. *)
Lemma infos_of_In sel info :
  In info (Main1.infos_of sel) ->
  exists tab t,
    Main1.sel_table sel = Some tab /\ Main1.sel_text sel = Some t /\
    Main1.in_watch (upper tab) = true /\
    Main1.table info = tab /\
    Main1.target_type info = Main1.sel_target_type sel /\
    Main1.target_name info = Main1.sel_target_name sel /\
    Main1.start_char_in_unit info = fst (Main1.sel_span sel) /\
    Main1.end_char_in_unit info = snd (Main1.sel_span sel) /\
    Main1.suggested_statement info =
      (let new_stmt :=
         Main1.build_replacement_stmt t tab (Main1.sel_target_type sel)
                                      (Main1.sel_target_name sel) in
       if text_eqb new_stmt t then None else Some new_stmt).
Proof.
  unfold Main1.infos_of, Main1.step.
  destruct (Main1.sel_table sel) as [tab|]; [|simpl; tauto].
  destruct (Main1.in_watch (upper tab)) eqn:W; [|simpl; tauto].
  destruct (Main1.sel_text sel) as [t|]; [|simpl; tauto].
  simpl. intros [<- | []]. exists tab, t. simpl.
  repeat split; auto. now destruct (text_eqb _ t).
Qed.

Lemma infos_of_unwatched sel tab :
  Main1.sel_table sel = Some tab -> Main1.in_watch (upper tab) = false ->
  Main1.infos_of sel = [].
Proof.
  intros T W. unfold Main1.infos_of, Main1.step. now rewrite T, W.
Qed.

End Main1Facts.

(* ===================================================================== *)
(** * Spans and matched texts *)
(* ===================================================================== *)

Section Spans.
Context {U : Unicode}.

(** app/main.py: the text at the recorded span is the recorded text. *)
Lemma find_mb_txn_usage_span_full txt l o :
  Main.find_mb_txn_usage txt = Some l -> In o l ->
  Main.full o = Some (slice txt (fst (Main.span o)) (snd (Main.span o))).
Proof.
  intros H Ho.
  destruct (find_mb_txn_usage_In _ _ _ H Ho) as (m & _ & A & Hu).
  destruct (usage_of_spec _ _ _ A Hu) as (S & F & _).
  rewrite S, F. cbn [fst snd]. now rewrite slice_nat.
Qed.

(** app/main1.py: the recorded span is that of the whole match, the
    recorded text that of the group [full]; the span holds one character
    more, the period. *)
Lemma find_selects_span_text txt sel :
  In sel (Main1.find_selects txt) ->
  exists t,
    Main1.sel_text sel = Some t /\
    slice txt (fst (Main1.sel_span sel)) (snd (Main1.sel_span sel))
      = t ++ [46%N].
Proof.
  intros H. apply find_selects_In in H as (m & A & ->).
  apply select_of_spec in A as (j & tab & E & L & B & P & T & _ & Sp).
  rewrite T, Sp. cbn [fst snd]. rewrite slice_nat.
  eexists. split; [reflexivity|].
  replace (S j - m_start m) with (S (j - m_start m)) by lia.
  apply firstn_S_nth. rewrite nth_error_skipn.
  now replace (m_start m + (j - m_start m)) with j by lia.
Qed.

End Spans.

(* ===================================================================== *)
(** * The span replacement applier *)
(* ===================================================================== *)

Section Applier.
Import Main1.

Lemma insert_desc_comm x y l :
  start x <> start y ->
  insert_desc x (insert_desc y l) = insert_desc y (insert_desc x l).
Proof.
  intros D. unfold start in D.
  induction l as [|a l IH]; simpl;
    repeat (match goal with
            | |- context [Z.leb ?a ?b] => destruct (Z.leb_spec a b); simpl
            end);
    try reflexivity; try lia.
  now rewrite IH.
Qed.

(** With distinct starts the order the pairs come in does not matter. *)
Lemma sorted_desc_perm l1 l2 :
  Permutation l1 l2 -> NoDup (map start l1) ->
  sorted_desc l1 = sorted_desc l2.
Proof.
  induction 1 as [|x l1 l2 P IH|x y l|l1 l2 l3 P1 IH1 P2 IH2]; intros N.
  - reflexivity.
  - simpl. rewrite IH; [reflexivity|]. now inversion N.
  - simpl. apply insert_desc_comm. inversion N as [|? ? Hx _]; subst.
    intros E. apply Hx. simpl. auto.
  - rewrite IH1 by assumption. apply IH2.
    apply (Permutation_NoDup (l := map start l1)); [|assumption].
    now apply Permutation_map.
Qed.

Lemma insert_desc_last x l :
  (forall y, In y l -> (start x < start y)%Z) -> insert_desc x l = l ++ [x].
Proof.
  unfold start. induction l as [|a l IH]; simpl; intros H; [reflexivity|].
  destruct (Z.leb_spec (fst (fst a)) (fst (fst x))) as [L|L].
  - specialize (H a (or_introl eq_refl)). lia.
  - rewrite IH; auto.
Qed.

(** Pairs that come from left to right are sorted into the reverse
    order. *)
Lemma sorted_desc_ascending asc : ascending asc -> sorted_desc asc = rev asc.
Proof.
  induction 1 as [|x rest S IH F]; simpl; [reflexivity|].
  rewrite IH. apply insert_desc_last. intros y Hy.
  apply in_rev in Hy. now apply (proj1 (Forall_forall _ _) F).
Qed.

Lemma ascending_NoDup asc : ascending asc -> NoDup (map start asc).
Proof.
  induction 1 as [|x rest S IH F]; simpl; constructor; auto.
  intros H. apply in_map_iff in H as (y & E & Hy).
  apply (proj1 (Forall_forall _ _) F) in Hy. lia.
Qed.

Lemma sorted_desc_of_perm repls asc :
  Permutation asc repls -> ascending asc -> sorted_desc repls = rev asc.
Proof.
  intros P A. rewrite <- (sorted_desc_perm asc repls P).
  - now apply sorted_desc_ascending.
  - now apply ascending_NoDup.
Qed.

Lemma firstn_firstn_skipn {A : Type} (l : list A) : forall a b,
  a <= b -> firstn a l ++ firstn (b - a) (skipn a l) = firstn b l.
Proof.
  induction l as [|x l IH]; intros a b H.
  - now rewrite skipn_nil, !firstn_nil.
  - destruct a as [|a]; simpl.
    + now rewrite Nat.sub_0_r.
    + destruct b as [|b]; [lia|]. simpl. f_equal. apply IH. lia.
Qed.

Lemma slice_to_Z (l : text) (a : Z) :
  (0 <= a)%Z -> slice_to l a = firstn (Z.to_nat a) l.
Proof. intros H. rewrite <- (Z2Nat.id a H) at 1. apply slice_to_nat. Qed.

Lemma slice_from_Z (l : text) (a : Z) :
  (0 <= a)%Z -> slice_from l a = skipn (Z.to_nat a) l.
Proof. intros H. rewrite <- (Z2Nat.id a H) at 1. apply slice_from_nat. Qed.

Lemma slice_Z (l : text) (a b : Z) :
  (0 <= a)%Z -> (0 <= b)%Z ->
  slice l a b = firstn (Z.to_nat b - Z.to_nat a) (skipn (Z.to_nat a) l).
Proof.
  intros Ha Hb. rewrite <- (Z2Nat.id a Ha) at 1.
  rewrite <- (Z2Nat.id b Hb) at 1. apply slice_nat.
Qed.

(** Splicing from right to left: after the pairs to the right of [pos]
    are done, the text up to [pos] is still the source. *)
Lemma splice_chain src asc : forall pos,
  (0 <= pos)%Z ->
  (forall x, In x asc -> in_text src x /\ (pos <= start x)%Z) ->
  (forall x y, In x asc -> In y asc -> x <> y -> disjoint x y) ->
  ascending asc ->
  fold_right (fun x acc => splice acc x) src asc
  = slice_to src pos ++ replaced_text src pos asc.
Proof.
  induction asc as [|x rest IH]; intros pos Hpos Hin Hdis Hasc.
  - simpl. rewrite slice_to_Z, slice_from_Z by assumption.
    now rewrite firstn_skipn.
  - inversion Hasc as [|? ? Hrest Hlt]; subst.
    destruct (Hin x (or_introl eq_refl)) as [[[Hs0 Hse] Hlen] Hps].
    assert (Hnext : forall y, In y rest ->
                      in_text src y /\ (stop x <= start y)%Z).
    { intros y Hy. destruct (Hin y (or_intror Hy)) as [Iy _].
      split; [exact Iy|].
      pose proof (proj1 (Forall_forall _ _) Hlt y Hy) as L.
      cbv beta in L.
      assert (N : x <> y) by (intros ->; lia).
      destruct (Hdis x y (or_introl eq_refl) (or_intror Hy) N) as [D|D];
        [exact D|].
      destruct Iy as [[_ ?] _]. lia. }
    simpl fold_right.
    rewrite (IH (stop x)); auto; try lia.
    2:{ intros a b Ha Hb. apply Hdis; now right. }
    destruct x as [[s e] r]. unfold start, stop in *. simpl in *.
    change (start (s, e, r)) with s. change (stop (s, e, r)) with e.
    rewrite (slice_to_Z src e), (slice_to_Z src pos) by lia.
    rewrite (slice_Z src pos s) by lia.
    rewrite slice_to_Z, slice_from_Z by lia.
    assert (Le : length (firstn (Z.to_nat e) src) = Z.to_nat e).
    { rewrite length_firstn. lia. }
    rewrite firstn_app, Le.
    replace (Z.to_nat s - Z.to_nat e) with 0 by lia.
    rewrite firstn_O, app_nil_r, firstn_firstn.
    replace (Nat.min (Z.to_nat s) (Z.to_nat e)) with (Z.to_nat s) by lia.
    rewrite skipn_app, Le, Nat.sub_diag.
    rewrite skipn_all2 by lia. simpl.
    rewrite (app_assoc (firstn (Z.to_nat pos) src)).
    now rewrite firstn_firstn_skipn by lia.
Qed.

End Applier.

(* ===================================================================== *)
(** * The endpoints *)
(* ===================================================================== *)

Lemma mapM_nth {A B : Type} (f : A -> option B) l bs :
  mapM f l = Some bs ->
  length bs = length l /\
  forall n a, nth_error l n = Some a ->
              exists b, nth_error bs n = Some b /\ f a = Some b.
Proof.
  intros H. apply mapM_Some in H. split.
  - symmetry. eapply Forall2_length; eauto.
  - now apply Forall2_nth_l.
Qed.

Lemma StronglySorted_Forall2 {A B : Type} (R : A -> B -> Prop)
      (P : A -> A -> Prop) (Q : B -> B -> Prop) l bs :
  Forall2 R l bs -> StronglySorted P l ->
  (forall a a' b b', In a l -> In a' l -> R a b -> R a' b' -> P a a' ->
                     Q b b') ->
  StronglySorted Q bs.
Proof.
  induction 1 as [|a b l bs Hab F IH]; intros S H; [constructor|].
  inversion S as [|? ? S' Fa]; subst. constructor.
  - apply IH; [assumption|]. intros; eapply H; eauto; now right.
  - apply Forall_forall. intros b' Hb'.
    destruct (Forall2_In_r _ _ _ _ F Hb') as (a' & Ha' & Hr).
    apply (H a a' b b'); auto; [now left | now right|].
    now apply (proj1 (Forall_forall _ _) Fa).
Qed.

Lemma StronglySorted_flat_map {A B : Type} (f : A -> list B)
      (P : A -> A -> Prop) (Q : B -> B -> Prop) l :
  StronglySorted P l ->
  (forall a, In a l -> length (f a) <= 1) ->
  (forall a a' b b', In a l -> In a' l -> P a a' ->
                     In b (f a) -> In b' (f a') -> Q b b') ->
  StronglySorted Q (flat_map f l).
Proof.
  induction 1 as [|a l S IH Fa]; intros L H; simpl; [constructor|].
  assert (T : StronglySorted Q (flat_map f l)).
  { apply IH; intros; [apply L | eapply H]; eauto; now right. }
  pose proof (L a (or_introl eq_refl)) as La.
  destruct (f a) as [|b [|b2 rest]] eqn:E; simpl in *; [assumption| |lia].
  constructor; [assumption|].
  apply Forall_forall. intros b' Hb'.
  apply in_flat_map in Hb' as (a' & Ha' & Hb').
  apply (H a a' b b'); auto.
  - now apply (proj1 (Forall_forall _ _) Fa).
  - rewrite E. now left.
Qed.

Section Endpoints.
Context {U : Unicode}.

Lemma Main_remediate_unit_spec u :
  exists usages,
    Main.find_mb_txn_usage (Main.code_or_empty u) = Some usages /\
    Main.remediate_unit u
      = if Main.dumpable u
        then Some (JObj (Main.unit_fields u
                         ++ [("mb_txn_usage"%string,
                              JList (map Main.metadata_of usages))]))
        else None.
Proof.
  destruct (find_mb_txn_usage_total (Main.code_or_empty u)) as [l E].
  exists l. split; [exact E|].
  unfold Main.remediate_unit, Main.model_dump. rewrite E.
  now destruct (Main.dumpable u).
Qed.

(** The entries of [find_mb_txn_usage] come in the order of their
    spans. *)
Lemma find_mb_txn_usage_sorted txt l :
  Main.find_mb_txn_usage txt = Some l ->
  StronglySorted
    (fun a b => (snd (Main.span a) <= fst (Main.span b))%Z /\
                (fst (Main.span a) < fst (Main.span b))%Z) l.
Proof.
  intros H. apply mapM_Some in H.
  apply (StronglySorted_Forall2 _ _ _ _ _ H (finditer_sorted _ txt)).
  intros m m' o o' Hm Hm' Ho Ho' [B1 B2].
  apply finditer_In in Hm as [_ Hm]. apply finditer_In in Hm' as [_ Hm'].
  destruct (usage_of_spec _ _ _ Hm Ho) as (-> & _).
  destruct (usage_of_spec _ _ _ Hm' Ho') as (-> & _).
  simpl. lia.
Qed.

Lemma Main1_remediate_unit_spec u :
  Main1.remediate_unit u
  = if Main1.dumpable u
    then Some (JObj (Main1.unit_fields u
                     ++ [("selects"%string,
                          JList (map Main1.sel_info_json
                                     (Main1.selects_of u)))]))
    else None.
Proof.
  unfold Main1.remediate_unit, Main1.selects_of, Main1.model_dump.
  destruct (loop_total (Main1.find_selects (Main1.code_or_empty u)) ([], []))
    as [[r i] E].
  { intros sel H. eapply step_total; eauto. }
  rewrite E. apply loop_spec in E. injection E as -> ->.
  now destruct (Main1.dumpable u).
Qed.

(** Each endpoint returns when every unit goes through the dump, and only
    then. *)
Lemma remediate_mb_txns_defined units :
  Main.remediate_mb_txns units <> None <->
  forall u, In u units -> Main.dumpable u = true.
Proof.
  unfold Main.remediate_mb_txns. rewrite mapM_defined.
  split; intros H u Hu; specialize (H u Hu);
    destruct (Main_remediate_unit_spec u) as (l & _ & R); rewrite R in *;
    destruct (Main.dumpable u); congruence.
Qed.

Lemma remediate_array_defined units :
  Main1.remediate_array units <> None <->
  forall u, In u units -> Main1.dumpable u = true.
Proof.
  unfold Main1.remediate_array. rewrite mapM_defined.
  split; intros H u Hu; specialize (H u Hu);
    rewrite Main1_remediate_unit_spec in *;
    destruct (Main1.dumpable u); congruence.
Qed.

Lemma infos_of_length sel : length (Main1.infos_of sel) <= 1.
Proof.
  unfold Main1.infos_of, Main1.step.
  destruct (Main1.sel_table sel) as [tab|]; [|simpl; lia].
  destruct (Main1.in_watch (upper tab)); [|simpl; lia].
  destruct (Main1.sel_text sel); simpl; lia.
Qed.

(** The records of a unit come in the order of their spans. *)
Lemma selects_of_sorted u :
  StronglySorted
    (fun a b =>
       (Main1.end_char_in_unit a <= Main1.start_char_in_unit b)%Z /\
       (Main1.start_char_in_unit a < Main1.start_char_in_unit b)%Z)
    (Main1.selects_of u).
Proof.
  unfold Main1.selects_of, Main1.find_selects.
  rewrite flat_map_concat_map, map_map, <- flat_map_concat_map.
  apply (StronglySorted_flat_map _ before).
  - apply finditer_sorted.
  - intros; apply infos_of_length.
  - intros m m' i i' _ _ [B1 B2] Hi Hi'.
    apply infos_of_In in Hi as (_ & _ & _ & _ & _ & _ & _ & _ & S & E & _).
    apply infos_of_In in Hi' as (_ & _ & _ & _ & _ & _ & _ & _ & S' & _).
    rewrite E, S, S'. unfold Main1.select_of, span0. simpl. lia.
Qed.

End Endpoints.

Lemma flat_map_nil {A B : Type} (f : A -> list B) l :
  (forall a, In a l -> f a = []) -> flat_map f l = [].
Proof.
  induction l as [|a l IH]; simpl; intros H; [reflexivity|].
  rewrite (H a (or_introl eq_refl)). apply IH. intros; apply H; now right.
Qed.

Lemma skipn_pre {A : Type} (l1 l2 : list A) : skipn (length l1) (l1 ++ l2) = l2.
Proof. induction l1; simpl; auto. Qed.

Lemma firstn_pre {A : Type} (l1 l2 : list A) : firstn (length l1) (l1 ++ l2) = l1.
Proof. induction l1; simpl; congruence. Qed.

Lemma nth_error_pre {A : Type} (l1 l2 : list A) x :
  nth_error (l1 ++ x :: l2) (length l1) = Some x.
Proof. induction l1; simpl; auto. Qed.

Lemma Forall2_impl_Forall {A B : Type} (P : A -> Prop)
      (R Q : A -> B -> Prop) l l' :
  Forall P l -> Forall2 R l l' ->
  (forall a b, P a -> R a b -> Q a b) -> Forall2 Q l l'.
Proof.
  intros F H I. induction H; inversion F; subst; constructor; auto.
Qed.

Lemma map_eq_Forall2 {A B : Type} (f : A -> B) pat : forall mid,
  map f mid = map f pat -> Forall2 (fun p x => f x = f p) pat mid.
Proof.
  induction pat as [|p pat IH]; intros [|x mid]; simpl; try discriminate.
  - constructor.
  - intros [= E1 E2]. constructor; auto.
Qed.

(* ===================================================================== *)
(** * app/main1.py: the DRAFT filter *)
(* ===================================================================== *)

Section DraftFilter.
Context {U : Unicode}.

Lemma in_watch_cases t :
  Main1.in_watch t = true -> t = str "VBRK" \/ t = str "VBRP".
Proof.
  unfold Main1.in_watch, Main1.WATCH. simpl. rewrite orb_false_r.
  intros H. apply orb_true_iff in H as [H | H]; apply text_eqb_eq in H; auto.
Qed.

Lemma boundary_in_text txt i : boundary txt i = true -> i <= length txt.
Proof.
  intros B. destruct (Nat.le_gt_cases i (length txt)) as [|G]; [assumption|].
  exfalso. unfold boundary, word_at in B.
  destruct i as [|j]; [lia|].
  rewrite (proj2 (nth_error_None txt (S j))) in B by lia.
  rewrite (proj2 (nth_error_None txt j)) in B by lia. discriminate.
Qed.

(** A keyword between word boundaries, against its pattern. *)
Lemma keyword_Matches kw txt i c :
  keyword_at kw txt i ->
  Matches txt (seqs [WordB; ilit kw; WordB]) i c (i + length kw) c.
Proof.
  intros (B1 & F & B2). simpl.
  econstructor; [now constructor|].
  econstructor; [now apply Matches_ilit | now constructor].
Qed.

Lemma keyword_Matches_inv kw txt i c j c' :
  Matches txt (seqs [WordB; ilit kw; WordB]) i c j c' ->
  keyword_at kw txt i /\ j = i + length kw.
Proof.
  simpl. intros M.
  apply Matches_Seq_inv in M as (j1 & c1 & M1 & M).
  apply Matches_Seq_inv in M as (j2 & c2 & M2 & M3).
  apply Matches_WordB_inv in M1 as (-> & -> & B1).
  apply Matches_ilit_inv in M2 as (-> & -> & F).
  apply Matches_WordB_inv in M3 as (-> & -> & B2).
  unfold keyword_at. auto.
Qed.

Lemma all2_Forall2 {A B : Type} (f : A -> B -> bool) l1 : forall l2,
  all2 f l1 l2 = true <-> Forall2 (fun a b => f a b = true) l1 l2.
Proof.
  induction l1 as [|a l1 IH]; intros [|b l2]; simpl; split; intros H;
    try discriminate; try constructor; try (now inversion H).
  - now apply andb_true_iff in H.
  - apply IH. now apply andb_true_iff in H.
  - inversion H; subst. apply andb_true_iff. split; [assumption|].
    now apply IH.
Qed.

Lemma keyword_atb_spec kw txt i :
  keyword_atb kw txt i = true <-> keyword_at kw txt i.
Proof.
  unfold keyword_atb, keyword_at.
  rewrite !andb_true_iff, all2_Forall2. tauto.
Qed.

(** [search] finds the first occurrence of the keyword. *)
Lemma search_keyword kw txt p :
  keyword_at kw txt p ->
  (forall q, q < p -> ~ keyword_at kw txt q) ->
  exists m, search (seqs [WordB; ilit kw; WordB]) txt 0 = Some m /\
            m_start m = p /\ m_end m = p + length kw.
Proof.
  intros K First.
  pose proof (boundary_in_text _ _ (proj1 K)) as L.
  pose proof (keyword_Matches kw txt p [] K) as M.
  destruct (search (seqs [WordB; ilit kw; WordB]) txt 0) as [m|] eqn:E.
  - exists m. split; [reflexivity|].
    apply search_Some in E as (B & A & Left).
    pose proof (match_at_spec _ _ _ _ A) as [_ Mm].
    apply keyword_Matches_inv in Mm as [Km Em].
    assert (m_start m = p).
    { destruct (Nat.lt_trichotomy (m_start m) p) as [G | [G | G]].
      - exfalso. now apply (First _ G).
      - assumption.
      - exfalso. apply (match_at_complete _ _ _ _ _ M). apply Left. lia. }
    split; [assumption | congruence].
  - exfalso. apply (search_complete _ txt 0 p _ _ (conj (Nat.le_0_l p) L) M E).
Qed.

(** A text that contains the literal [T-DRAFT =], in any casing, has a
    match of the pattern [DRAFT_RE T]. *)
Lemma DRAFT_RE_found T sel :
  T = str "VBRK" \/ T = str "VBRP" ->
  contains_ci sel (T ++ str "-DRAFT =") ->
  search (Main1.DRAFT_RE T) sel 0 <> None.
Proof.
  intros HT (pre & mid & post & -> & E).
  assert (A : Forall (fun p => (p < 128)%N) (T ++ str "-DRAFT")).
  { destruct HT as [-> | ->]; repeat constructor. }
  change (str "-DRAFT =") with (str "-DRAFT" ++ [32; 61]%N) in E.
  rewrite app_assoc, map_app in E.
  apply map_eq_app in E as (a & b & -> & Ea & Eb).
  destruct b as [|b1 [|b2 [|b3 b]]]; try discriminate.
  change (map ascii_lower [32; 61]%N) with [32; 61]%N in Eb.
  injection Eb as E1 E2.
  apply ascii_lower_fix in E1; [|reflexivity..].
  apply ascii_lower_fix in E2; [|reflexivity..]. subst b1 b2.
  apply map_eq_Forall2 in Ea.
  set (pat := T ++ str "-DRAFT") in *.
  set (txt := pre ++ (a ++ [32; 61]%N) ++ post).
  assert (La : length a = length pat) by (symmetry; eapply Forall2_length; eauto).
  assert (S1 : skipn (length pre) txt = a ++ 32%N :: 61%N :: post).
  { unfold txt. rewrite skipn_pre, <- app_assoc. reflexivity. }
  assert (S2 : skipn (length pre + length pat) txt = 32%N :: 61%N :: post).
  { rewrite Nat.add_comm, <- skipn_skipn, S1, <- La. apply skipn_pre. }
  assert (N3 : nth_error txt (length pre + length pat + 1) = Some 61%N).
  { now rewrite <- nth_error_skipn, S2. }
  assert (M : exists j, Matches txt (Main1.DRAFT_RE T) (length pre) [] j []).
  { eexists. unfold Main1.DRAFT_RE. simpl seqs. fold pat.
    econstructor.
    { apply Matches_ilit. rewrite S1, <- La, firstn_pre.
      apply (Forall2_impl_Forall _ _ _ _ _ A Ea).
      intros p x Hp Hx. now apply ichr_class_ci. }
    econstructor.
    { apply (M_Rep txt true 0 isspace (length pre + length pat) [] 1);
        [lia|]. unfold run. rewrite S2. simpl.
      rewrite isspace_ascii by reflexivity. simpl. lia. }
    econstructor.
    { unfold ilit. simpl. econstructor; [exact N3|].
      now apply ichr_class_ci. }
    econstructor.
    { apply (M_Rep txt true 0 isspace _ [] 0); lia. }
    econstructor; [apply M_AltR; constructor|].
    econstructor; [apply M_AltR; constructor|].
    apply M_AltR. constructor. }
  destruct M as [j M].
  apply (search_complete _ txt 0 (length pre) j []); [|exact M].
  split; [lia|]. unfold txt. rewrite length_app. lia.
Qed.

Lemma ensure_draft_filter_unchanged sel table :
  Main1.in_watch (upper table) = true ->
  contains_ci sel (upper table ++ str "-DRAFT =") ->
  Main1.ensure_draft_filter sel table = sel.
Proof.
  intros W C. unfold Main1.ensure_draft_filter. rewrite W. simpl.
  pose proof (DRAFT_RE_found _ sel (in_watch_cases _ W) C) as F.
  now destruct (search (Main1.DRAFT_RE (upper table)) sel 0).
Qed.

Lemma contains_ci_inside a b t p c d :
  contains_ci (a ++ (b ++ t ++ p ++ c) ++ d) (t ++ p).
Proof.
  exists (a ++ b), (t ++ p), (c ++ d).
  split; [now rewrite <- !app_assoc | reflexivity].
Qed.

Lemma contains_ci_inside_end a b t p c :
  contains_ci (a ++ (b ++ t ++ p ++ c)) (t ++ p).
Proof.
  exists (a ++ b), (t ++ p), c.
  split; [now rewrite <- !app_assoc | reflexivity].
Qed.

Lemma ensure_draft_filter_idempotent sel table :
  Main1.ensure_draft_filter (Main1.ensure_draft_filter sel table) table
  = Main1.ensure_draft_filter sel table.
Proof.
  destruct (Main1.in_watch (upper table)) eqn:W.
  2:{ unfold Main1.ensure_draft_filter. rewrite W. reflexivity. }
  assert (Hr : Main1.ensure_draft_filter sel table = sel \/
               contains_ci (Main1.ensure_draft_filter sel table)
                           (upper table ++ str "-DRAFT =")).
  { unfold Main1.ensure_draft_filter. rewrite W. simpl negb. cbv iota.
    set (T := upper table).
    destruct (search (Main1.DRAFT_RE T) sel 0); [now left | right].
    destruct (search Main1.WHERE_RE sel 0) as [w|];
      [|destruct (search Main1.INTO_RE sel 0) as [m|]].
    - apply (contains_ci_inside _ (str " ") T (str "-DRAFT =")
                                (str " SPACE AND")).
    - apply (contains_ci_inside _ (str " WHERE ") T (str "-DRAFT =")
                                (str " SPACE ")).
    - apply (contains_ci_inside_end _ (str " WHERE ") T (str "-DRAFT =")
                                    (str " SPACE.")). }
  destruct Hr as [E | C].
  - now rewrite !E.
  - now apply ensure_draft_filter_unchanged.
Qed.

End DraftFilter.

(* ===================================================================== *)
(** * Whitespace *)
(* ===================================================================== *)

Lemma nth_error_skipn_cons {A : Type} (l : list A) : forall q x,
  nth_error l q = Some x -> exists rest, skipn q l = x :: rest.
Proof.
  induction l as [|a l IH]; intros [|q] x; simpl; try discriminate.
  - intros [= ->]. eauto.
  - apply IH.
Qed.

Section Whitespace.
Context {U : Unicode}.

Lemma match_at_spaces txt i :
  match_at (Rep true 1 isspace) txt i
  = if run isspace txt i =? 0 then None
    else Some {| m_start := i; m_end := i + run isspace txt i;
                 m_caps := [] |}.
Proof.
  unfold match_at. simpl bt. destruct (run isspace txt i) as [|n]; reflexivity.
Qed.

Lemma run_zero_nospace p txt q c :
  run p txt q = 0 -> nth_error txt q = Some c -> p c = false.
Proof.
  unfold run. intros R N. apply nth_error_skipn_cons in N as [rest E].
  rewrite E in R. simpl in R. now destruct (p c).
Qed.

Lemma no_match_nospace txt pos k :
  (forall q, pos <= q < pos + k ->
             match_at (Rep true 1 isspace) txt q = None) ->
  Forall (fun c => isspace c = false) (firstn k (skipn pos txt)).
Proof.
  intros H. apply Forall_forall. intros c Hc.
  apply In_nth_error in Hc as [n N].
  assert (Ln : n < k).
  { assert (n < length (firstn k (skipn pos txt)))
      by (apply nth_error_Some; congruence).
    rewrite length_firstn in *. lia. }
  rewrite nth_error_firstn in N.
  destruct (Nat.ltb_spec n k); [|lia].
  rewrite nth_error_skipn in N.
  specialize (H (pos + n) ltac:(lia)). rewrite match_at_spaces in H.
  destruct (Nat.eqb_spec (run isspace txt (pos + n)) 0) as [R|]; [|discriminate].
  eapply run_zero_nospace; eauto.
Qed.

Lemma collapse_nospace a : forall b,
  Forall (fun c => isspace c = false) a ->
  Main1.collapse false (a ++ b) = a ++ Main1.collapse false b.
Proof.
  induction a as [|c a IH]; intros b F; [reflexivity|].
  inversion F as [|? ? Hc Fa]; subst. simpl. rewrite Hc. f_equal. now apply IH.
Qed.

Lemma collapse_true_skip s :
  Main1.collapse true s
  = Main1.collapse false (skipn (run_len isspace s) s).
Proof.
  induction s as [|c s IH]; [reflexivity|]. simpl.
  destruct (isspace c) eqn:E; simpl; [exact IH | now rewrite E].
Qed.

Lemma collapse_run s k :
  run_len isspace s = S k ->
  Main1.collapse false s = 32%N :: Main1.collapse false (skipn (S k) s).
Proof.
  destruct s as [|c s]; simpl; [discriminate|].
  destruct (isspace c); [|discriminate].
  intros [= <-]. f_equal. apply collapse_true_skip.
Qed.

(** [re.sub] with [\s+] and one space is the scan [collapse]. *)
Lemma sub_spaces_from txt fuel : forall pos,
  pos <= length txt -> S (length txt) - pos <= fuel ->
  Main1.sub_from (finditer_from (Rep true 1 isspace) txt pos fuel)
                 (str " ") txt pos
  = Main1.collapse false (skipn pos txt).
Proof.
  induction fuel as [|f IH]; intros pos L F; [lia|]. simpl.
  destruct (search (Rep true 1 isspace) txt pos) as [m|] eqn:E.
  - apply search_Some in E as (B & A & Left).
    rewrite match_at_spaces in A.
    destruct (run isspace txt (m_start m)) as [|k] eqn:R; [discriminate|].
    simpl in A. injection A as A. apply (f_equal m_end) in A.
    simpl in A. simpl. rewrite <- A.
    replace (m_start m + S k =? m_start m) with false
      by (symmetry; apply Nat.eqb_neq; lia).
    pose proof (run_le isspace txt (m_start m) ltac:(lia)) as RL.
    rewrite R in RL. rewrite IH by lia.
    rewrite <- (firstn_skipn (m_start m - pos) (skipn pos txt)) at 2.
    rewrite collapse_nospace.
    2:{ apply no_match_nospace. intros q Hq. apply Left. lia. }
    f_equal. rewrite skipn_skipn.
    replace (m_start m - pos + pos) with (m_start m) by lia.
    rewrite (collapse_run _ k R). rewrite skipn_skipn.
    now replace (S k + m_start m) with (m_start m + S k) by lia.
  - simpl. pose proof (search_None _ _ _ E) as N.
    rewrite <- (app_nil_r (skipn pos txt)) at 2.
    rewrite collapse_nospace; [now rewrite app_nil_r|].
    rewrite <- (firstn_all (skipn pos txt)).
    apply no_match_nospace. rewrite length_skipn. intros q Hq. apply N. lia.
Qed.

Lemma sub_spaces txt :
  Main1.sub (Rep true 1 isspace) (str " ") txt = Main1.collapse false txt.
Proof.
  unfold Main1.sub, finditer. now rewrite sub_spaces_from by lia.
Qed.

End Whitespace.

Section Normalized.
Context {U : Unicode}.

Lemma has_ws_run_spec s :
  Main1.has_ws_run s = true <->
  exists a x y b, s = a ++ x :: y :: b /\ isspace x = true /\ isspace y = true.
Proof.
  split.
  - induction s as [|x s IH]; simpl; [discriminate|].
    destruct s as [|y s]; [discriminate|].
    intros H. apply orb_true_iff in H as [H | H].
    + apply andb_true_iff in H as [Hx Hy]. exists [], x, y, s. auto.
    + destruct (IH H) as (a & x' & y' & b & E & Hx & Hy).
      exists (x :: a), x', y', b. rewrite E. auto.
  - intros (a & x & y & b & -> & Hx & Hy).
    induction a as [|c a IH]; simpl.
    + now rewrite Hx, Hy.
    + destruct (a ++ x :: y :: b) eqn:E.
      * now destruct a.
      * rewrite IH. apply orb_true_r.
Qed.

Lemma has_ws_run_infix d1 m d2 :
  Main1.has_ws_run (d1 ++ m ++ d2) = false -> Main1.has_ws_run m = false.
Proof.
  intros H. destruct (Main1.has_ws_run m) eqn:E; [|reflexivity].
  apply has_ws_run_spec in E as (a & x & y & b & -> & Hx & Hy).
  rewrite <- H. symmetry. apply has_ws_run_spec.
  exists (d1 ++ a), x, y, (b ++ d2). rewrite <- !app_assoc. auto.
Qed.

Lemma lstrip_suffix l : exists d, l = d ++ lstrip l.
Proof.
  induction l as [|c l [d IH]]; simpl; [now exists []|].
  destruct (isspace c); [|now exists []].
  exists (c :: d). simpl. now rewrite <- IH.
Qed.

Lemma strip_infix l : exists d1 d2, l = d1 ++ strip l ++ d2.
Proof.
  unfold strip, rstrip. destruct (lstrip_suffix l) as [d1 E1].
  destruct (lstrip_suffix (rev (lstrip l))) as [d E2].
  exists d1, (rev d). rewrite <- rev_app_distr, <- E2, rev_involutive.
  exact E1.
Qed.

(** The scan leaves no two whitespace characters in a row, and after a
    whitespace character it does not start with one. *)
Lemma collapse_no_run s : forall b,
  Main1.has_ws_run (Main1.collapse b s) = false /\
  (b = true -> match Main1.collapse b s with
               | c :: _ => isspace c = false
               | [] => True
               end).
Proof.
  induction s as [|c s IH]; intros b; simpl; [auto|].
  destruct (isspace c) eqn:E.
  - destruct b.
    + apply IH.
    + split; [|discriminate]. destruct (IH true) as [H1 H2].
      simpl. destruct (Main1.collapse true s) as [|y t]; [reflexivity|].
      rewrite (H2 eq_refl), andb_false_r. exact H1.
  - split; [|now rewrite E]. destruct (IH false) as [H1 _].
    simpl. destruct (Main1.collapse false s) as [|y t]; [reflexivity|].
    rewrite E. exact H1.
Qed.

(** The normalized statement has no whitespace run of two characters. *)
Lemma normalized_no_run s :
  Main1.has_ws_run (strip (Main1.collapse false s)) = false.
Proof.
  destruct (strip_infix (Main1.collapse false s)) as (d1 & d2 & E).
  apply (has_ws_run_infix d1 _ d2). rewrite <- E. apply collapse_no_run.
Qed.

(** Its only whitespace characters are spaces. *)
Lemma collapse_only_spaces s : forall b,
  Main1.has_other_ws (Main1.collapse b s) = false.
Proof.
  induction s as [|c s IH]; intros b; simpl; [reflexivity|].
  destruct (isspace c) eqn:E.
  - destruct b; [apply IH|]. simpl. rewrite IH. now rewrite andb_false_r.
  - simpl. rewrite E, IH. reflexivity.
Qed.

Lemma has_other_ws_infix d1 m d2 :
  Main1.has_other_ws (d1 ++ m ++ d2) = false ->
  Main1.has_other_ws m = false.
Proof.
  unfold Main1.has_other_ws. rewrite !existsb_app. intros H.
  apply orb_false_iff in H as [_ H]. now apply orb_false_iff in H as [H _].
Qed.

Lemma normalized_only_spaces s :
  Main1.has_other_ws (strip (Main1.collapse false s)) = false.
Proof.
  destruct (strip_infix (Main1.collapse false s)) as (d1 & d2 & E).
  apply (has_other_ws_infix d1 _ d2). rewrite <- E.
  apply collapse_only_spaces.
Qed.

Lemma build_replacement_stmt_kept t tab ty nm :
  Main1.in_watch (upper tab) = true ->
  search (Main1.DRAFT_RE (upper tab)) t 0 <> None ->
  Main1.build_replacement_stmt t tab ty nm
  = strip (Main1.collapse false t).
Proof.
  intros W D. unfold Main1.build_replacement_stmt, Main1.ensure_draft_filter.
  rewrite W. simpl negb. cbv iota.
  destruct (search (Main1.DRAFT_RE (upper tab)) t 0); [|congruence].
  now rewrite sub_spaces.
Qed.

End Normalized.

(* ===================================================================== *)
(** * ASCII texts

    On a text of ASCII code points the functions of the two files compute
    the same with any tables as with [ascii_tables]. *)
(* ===================================================================== *)

Lemma ascii_nth txt i c :
  ascii_text txt -> nth_error txt i = Some c -> (c < 128)%N.
Proof.
  intros A N. apply nth_error_In in N.
  now apply (proj1 (Forall_forall _ _) A).
Qed.

Lemma ascii_skipn txt n : ascii_text txt -> ascii_text (skipn n txt).
Proof.
  intros A. apply Forall_forall. intros c H.
  apply (proj1 (Forall_forall _ _) A).
  rewrite <- (firstn_skipn n txt). apply in_or_app. now right.
Qed.

Lemma ascii_firstn txt n : ascii_text txt -> ascii_text (firstn n txt).
Proof.
  intros A. apply Forall_forall. intros c H.
  apply (proj1 (Forall_forall _ _) A).
  rewrite <- (firstn_skipn n txt). apply in_or_app. now left.
Qed.

Lemma ascii_app a b : ascii_text a -> ascii_text b -> ascii_text (a ++ b).
Proof. intros. now apply Forall_app. Qed.

Lemma ascii_textb_spec s : ascii_textb s = true -> ascii_text s.
Proof.
  unfold ascii_textb, ascii_text. rewrite forallb_forall, Forall_forall.
  intros H c Hc. now apply N.ltb_lt, H.
Qed.

Section Adequacy.
Context {U : Unicode}.

Lemma run_len_agree p q s :
  ascii_text s -> (forall c, (c < 128)%N -> p c = q c) ->
  run_len p s = run_len q s.
Proof.
  intros A H. induction A as [|c s Hc A IH]; simpl; [reflexivity|].
  rewrite <- (H c Hc). now rewrite IH.
Qed.

Lemma run_agree p q txt i :
  ascii_text txt -> (forall c, (c < 128)%N -> p c = q c) ->
  run p txt i = run q txt i.
Proof. intros A H. apply run_len_agree; [now apply ascii_skipn | exact H]. Qed.

Lemma word_at_agree txt i :
  ascii_text txt -> @word_at U txt i = @word_at ascii_tables txt i.
Proof.
  intros A. unfold word_at. destruct (nth_error txt i) as [c|] eqn:N;
    [|reflexivity].
  apply isword_ascii. eapply ascii_nth; eauto.
Qed.

Lemma boundary_agree txt i :
  ascii_text txt -> @boundary U txt i = @boundary ascii_tables txt i.
Proof.
  intros A. unfold boundary. rewrite (word_at_agree txt i A).
  destruct i as [|j]; [reflexivity|]. now rewrite (word_at_agree txt j A).
Qed.

Lemma greedy_try_ext k1 k2 lo i n :
  (forall j, k1 j = k2 j) -> greedy_try k1 lo i n = greedy_try k2 lo i n.
Proof.
  intros H. induction n as [|n IH]; simpl; rewrite H; [reflexivity|].
  now rewrite IH.
Qed.

Lemma lazy_try_ext k1 k2 i fuel : forall j,
  (forall j, k1 j = k2 j) -> lazy_try k1 i j fuel = lazy_try k2 i j fuel.
Proof.
  induction fuel as [|f IH]; intros j H; simpl; rewrite H; [reflexivity|].
  now rewrite IH.
Qed.

(** The matcher does not tell two patterns that agree apart, on ASCII
    text. *)
Lemma bt_agree r1 r2 txt :
  agree r1 r2 -> ascii_text txt ->
  forall i c k1 k2,
    (forall j c', k1 j c' = k2 j c') ->
    @bt U r1 txt i c k1 = @bt ascii_tables r2 txt i c k2.
Proof.
  intros G A. induction G as [|p q H|a a' b b' _ IHa _ IHb
                             |a a' b b' _ IHa _ IHb|g lo p q H
                             |name a a' _ IHa|];
    intros i c k1 k2 K; simpl.
  - apply K.
  - destruct (nth_error txt i) as [x|] eqn:N; [|reflexivity].
    rewrite <- (H x (ascii_nth _ _ _ A N)). destruct (p x); [apply K|reflexivity].
  - apply IHa. intros j c'. now apply IHb.
  - rewrite (IHa i c k1 k2 K). destruct (bt a' txt i c k2); [reflexivity|].
    now apply IHb.
  - rewrite (run_agree p q txt i A H). destruct g.
    + apply greedy_try_ext. intros j. apply K.
    + destruct (run q txt i <? lo); [reflexivity|].
      apply lazy_try_ext. intros j. apply K.
  - apply IHa. intros j c'. apply K.
  - rewrite (boundary_agree txt i A).
    destruct (boundary txt i); [apply K | reflexivity].
Qed.

Lemma match_at_agree r1 r2 txt i :
  agree r1 r2 -> ascii_text txt ->
  @match_at U r1 txt i = @match_at ascii_tables r2 txt i.
Proof.
  intros G A. unfold match_at.
  now rewrite (bt_agree r1 r2 txt G A i [] accept accept).
Qed.

Lemma search_agree r1 r2 txt pos :
  agree r1 r2 -> ascii_text txt ->
  @search U r1 txt pos = @search ascii_tables r2 txt pos.
Proof.
  intros G A. unfold search. destruct (length txt <? pos); [reflexivity|].
  generalize (length txt - pos) as fuel. intros fuel. revert pos.
  induction fuel as [|f IH]; intros pos; simpl;
    rewrite (match_at_agree r1 r2 txt pos G A); [reflexivity|].
  now rewrite IH.
Qed.

Lemma finditer_agree r1 r2 txt :
  agree r1 r2 -> ascii_text txt ->
  @finditer U r1 txt = @finditer ascii_tables r2 txt.
Proof.
  intros G A. unfold finditer. generalize 0 as pos.
  generalize (S (length txt)) as fuel.
  induction fuel as [|f IH]; intros pos; simpl; [reflexivity|].
  rewrite (search_agree r1 r2 txt pos G A).
  destruct (search r2 txt pos); [|reflexivity]. now rewrite IH.
Qed.

Lemma agree_refl_Chr p : agree (Chr p) (Chr p).
Proof. now constructor. Qed.

Lemma agree_seqs l1 l2 : Forall2 agree l1 l2 -> agree (seqs l1) (seqs l2).
Proof.
  induction 1 as [|a b l1 l2 G F IH]; simpl; [constructor|].
  destruct F; [assumption | now constructor].
Qed.

Lemma ichr_class_agree p c :
  literal_ok p -> (c < 128)%N ->
  @ichr_class U p c = @ichr_class ascii_tables p c.
Proof.
  intros Hp Hc. unfold ichr_class. destruct (cased p); [|reflexivity].
  destruct Hp as [Hp | Hp].
  - now rewrite !casematch_ascii.
  - now rewrite !casematch_greek.
Qed.

Lemma agree_ilit s :
  Forall literal_ok s -> agree (@ilit U s) (@ilit ascii_tables s).
Proof.
  intros F. unfold ilit. apply agree_seqs.
  induction F as [|p s Hp F IH]; simpl; constructor; [|assumption].
  constructor. intros c Hc. now apply ichr_class_agree.
Qed.

Lemma agree_spaces g lo :
  agree (Rep g lo (@isspace U)) (Rep g lo (@isspace ascii_tables)).
Proof. constructor. apply isspace_ascii. Qed.

Lemma literal_okb_spec s :
  forallb literal_okb s = true -> Forall literal_ok s.
Proof.
  rewrite forallb_forall, Forall_forall. intros H p Hp.
  specialize (H p Hp). unfold literal_okb in H. unfold literal_ok.
  apply orb_true_iff in H as [H | H].
  - left. now apply N.ltb_lt.
  - right. apply andb_true_iff in H as [H1 H2].
    apply N.leb_le in H1. apply N.ltb_lt in H2. lia.
Qed.

Lemma literal_ok_ascii s : ascii_text s -> Forall literal_ok s.
Proof. apply Forall_impl. intros p H. now left. Qed.

Lemma agree_ilit_str s :
  forallb literal_okb s = true -> agree (@ilit U s) (@ilit ascii_tables s).
Proof. intros H. now apply agree_ilit, literal_okb_spec. Qed.

Ltac agree_patterns :=
  repeat first
    [ apply agree_spaces
    | apply agree_refl_Chr
    | apply agree_ilit_str; reflexivity
    | apply A_Group | apply A_Alt | apply A_Seq | apply A_Eps
    | apply A_WordB ].

Lemma MB_TXN_RE_agree : agree (@Main.MB_TXN_RE U) (@Main.MB_TXN_RE ascii_tables).
Proof.
  unfold Main.MB_TXN_RE. cbn [seqs]. unfold Opt. agree_patterns.
Qed.

Lemma field_char_agree c :
  (c < 128)%N -> @Main1.field_char U c = @Main1.field_char ascii_tables c.
Proof.
  intros H. unfold Main1.field_char.
  now rewrite isword_ascii, isspace_ascii.
Qed.

Lemma dest_char_agree c :
  (c < 128)%N -> @Main1.dest_char U c = @Main1.dest_char ascii_tables c.
Proof. intros H. unfold Main1.dest_char. now rewrite isword_ascii. Qed.

Lemma SELECT_RE_agree :
  agree (@Main1.SELECT_RE U) (@Main1.SELECT_RE ascii_tables).
Proof.
  unfold Main1.SELECT_RE. cbn [seqs]. unfold Opt, period.
  agree_patterns; constructor;
    auto using field_char_agree, dest_char_agree, isword_ascii.
Qed.

Lemma DRAFT_RE_agree T :
  ascii_text T -> agree (@Main1.DRAFT_RE U T) (@Main1.DRAFT_RE ascii_tables T).
Proof.
  intros A. unfold Main1.DRAFT_RE. cbn [seqs]. unfold Opt, quote.
  apply A_Seq.
  { apply agree_ilit, literal_ok_ascii, ascii_app; [exact A|].
    apply ascii_textb_spec. reflexivity. }
  agree_patterns. constructor. apply isspace_ascii.
Qed.

Lemma WHERE_RE_agree : agree (@Main1.WHERE_RE U) (@Main1.WHERE_RE ascii_tables).
Proof. unfold Main1.WHERE_RE. cbn [seqs]. agree_patterns. Qed.

Lemma INTO_RE_agree : agree (@Main1.INTO_RE U) (@Main1.INTO_RE ascii_tables).
Proof. unfold Main1.INTO_RE. cbn [seqs]. agree_patterns. Qed.

End Adequacy.

Lemma mapM_ext {A B : Type} (f g : A -> option B) l :
  (forall a, f a = g a) -> mapM f l = mapM g l.
Proof.
  intros H. induction l as [|a l IH]; simpl; [reflexivity|].
  now rewrite H, IH.
Qed.

Lemma ascii_rev s : ascii_text s -> ascii_text (rev s).
Proof. apply Forall_rev. Qed.

Lemma ascii_lstrip_char x s : ascii_text s -> ascii_text (lstrip_char x s).
Proof.
  induction 1 as [|c s Hc A IH]; simpl; [constructor|].
  destruct (c =? x)%N; [assumption | now constructor].
Qed.

Lemma ascii_upper_text s : ascii_text s -> ascii_text (@upper ascii_tables s).
Proof.
  induction 1 as [|c s Hc A IH]; simpl; [constructor|].
  constructor; [|exact IH].
  unfold ascii_upper, between.
  destruct (N.leb_spec 97 c), (N.leb_spec c 122); simpl; lia.
Qed.

Section Functions.
Context {U : Unicode}.

Lemma upper_agree s : ascii_text s -> @upper U s = @upper ascii_tables s.
Proof.
  induction 1 as [|c s Hc A IH]; [reflexivity|].
  unfold upper in *. simpl. now rewrite IH, toupper_ascii.
Qed.

Lemma lstrip_agree s : ascii_text s -> @lstrip U s = @lstrip ascii_tables s.
Proof.
  induction 1 as [|c s Hc A IH]; simpl; [reflexivity|].
  rewrite isspace_ascii by assumption. now rewrite IH.
Qed.

Lemma ascii_lstrip s : ascii_text s -> ascii_text (@lstrip ascii_tables s).
Proof.
  induction 1 as [|c s Hc A IH]; simpl; [constructor|].
  destruct (ascii_isspace c); [assumption | now constructor].
Qed.

Lemma strip_agree s : ascii_text s -> @strip U s = @strip ascii_tables s.
Proof.
  intros A. unfold strip, rstrip. rewrite (lstrip_agree s A).
  now rewrite lstrip_agree by now apply ascii_rev, ascii_lstrip.
Qed.

Lemma collapse_agree s : forall b,
  ascii_text s -> @Main1.collapse U b s = @Main1.collapse ascii_tables b s.
Proof.
  intros b A. revert b. induction A as [|c s Hc A IH]; intros b; simpl;
    [reflexivity|].
  rewrite isspace_ascii by assumption. now rewrite !IH.
Qed.

Lemma ascii_collapse s : forall b,
  ascii_text s -> ascii_text (@Main1.collapse ascii_tables b s).
Proof.
  intros b A. revert b. induction A as [|c s Hc A IH]; intros b; simpl;
    [constructor|].
  destruct (ascii_isspace c).
  - destruct b; [apply IH | constructor; [reflexivity | apply IH]].
  - constructor; [assumption | apply IH].
Qed.

(** app/main.py *)
Lemma find_mb_txn_usage_agree txt :
  ascii_text txt ->
  @Main.find_mb_txn_usage U txt = @Main.find_mb_txn_usage ascii_tables txt.
Proof.
  intros A. unfold Main.find_mb_txn_usage.
  rewrite (finditer_agree _ _ txt MB_TXN_RE_agree A).
  apply mapM_ext. intros m. unfold Main.usage_of, group.
  destruct (lookup "stmt" (m_caps m)) as [[s e]|]; [|reflexivity].
  unfold Main.suggest_replacement.
  now rewrite upper_agree by now apply ascii_firstn, ascii_skipn.
Qed.

(** app/main1.py *)
Lemma find_selects_agree txt :
  ascii_text txt ->
  @Main1.find_selects U txt = @Main1.find_selects ascii_tables txt.
Proof.
  intros A. unfold Main1.find_selects.
  now rewrite (finditer_agree _ _ txt SELECT_RE_agree A).
Qed.

Lemma ensure_draft_filter_agree sel table :
  ascii_text sel -> ascii_text table ->
  @Main1.ensure_draft_filter U sel table
  = @Main1.ensure_draft_filter ascii_tables sel table.
Proof.
  intros As At. unfold Main1.ensure_draft_filter.
  rewrite (upper_agree table At).
  rewrite (search_agree _ _ sel 0
             (DRAFT_RE_agree _ (ascii_upper_text _ At)) As).
  rewrite (search_agree _ _ sel 0 WHERE_RE_agree As).
  now rewrite (search_agree _ _ sel 0 INTO_RE_agree As).
Qed.

Lemma ascii_ensure_draft_filter sel table :
  ascii_text sel -> ascii_text table ->
  ascii_text (@Main1.ensure_draft_filter ascii_tables sel table).
Proof.
  intros As At. pose proof (ascii_upper_text _ At) as Au.
  unfold Main1.ensure_draft_filter.
  destruct (negb _); [assumption|].
  destruct (search _ sel 0); [assumption|].
  destruct (search Main1.WHERE_RE sel 0) as [w|];
    [|destruct (search Main1.INTO_RE sel 0) as [m|]];
    rewrite ?slice_to_nat, ?slice_from_nat;
    repeat apply ascii_app;
    auto using ascii_firstn, ascii_skipn;
    try (apply ascii_textb_spec; reflexivity).
  unfold rstrip_char. now apply ascii_rev, ascii_lstrip_char, ascii_rev.
Qed.

Lemma build_replacement_stmt_agree t tab ty nm :
  ascii_text t -> ascii_text tab ->
  @Main1.build_replacement_stmt U t tab ty nm
  = @Main1.build_replacement_stmt ascii_tables t tab ty nm.
Proof.
  intros At Ab. unfold Main1.build_replacement_stmt.
  rewrite !sub_spaces, (ensure_draft_filter_agree t tab At Ab).
  pose proof (ascii_ensure_draft_filter t tab At Ab) as Ae.
  rewrite (collapse_agree _ false Ae).
  now rewrite strip_agree by now apply ascii_collapse.
Qed.

Lemma step_agree txt m acc :
  ascii_text txt ->
  @Main1.step U acc (Main1.select_of txt m)
  = @Main1.step ascii_tables acc (Main1.select_of txt m).
Proof.
  intros A. unfold Main1.step, Main1.select_of, group. simpl.
  destruct (lookup "table" (m_caps m)) as [[s e]|]; [|reflexivity].
  assert (Ab : ascii_text (firstn (e - s) (skipn s txt)))
    by now apply ascii_firstn, ascii_skipn.
  rewrite (upper_agree _ Ab).
  destruct (Main1.in_watch _); [|reflexivity].
  destruct (lookup "full" (m_caps m)) as [[s' e']|]; [|reflexivity].
  assert (At : ascii_text (firstn (e' - s') (skipn s' txt)))
    by now apply ascii_firstn, ascii_skipn.
  now rewrite (build_replacement_stmt_agree _ _ _ _ At Ab).
Qed.

Lemma selects_of_agree u :
  ascii_text (Main1.code_or_empty u) ->
  @Main1.selects_of U u = @Main1.selects_of ascii_tables u.
Proof.
  intros A. unfold Main1.selects_of. rewrite (find_selects_agree _ A).
  unfold Main1.find_selects.
  rewrite !flat_map_concat_map, !map_map. f_equal.
  apply map_ext. intros m. unfold Main1.infos_of.
  now rewrite (step_agree _ m ([], []) A).
Qed.

End Functions.

(* ===================================================================== *)
(** * The claims *)
(* ===================================================================== *)

(** Evaluation on an ASCII text: with any tables it is evaluation with
    [ascii_tables]. *)
Ltac on_ascii :=
  intros;
  rewrite ?find_mb_txn_usage_agree, ?find_selects_agree, ?selects_of_agree,
    ?ensure_draft_filter_agree
    by (apply ascii_textb_spec; reflexivity);
  vm_compute; repeat split.

(** C1.  The claim: for every occurrence of either matcher, the code at
    the recorded span is the recorded matched text.  It holds for the
    transaction-code rule, where both come from the group [full].  For the
    SELECT rule the recorded span is [span(0)] and the recorded text is
    [group('full')], which stops before the period: on every input the
    code at the span is the recorded text followed by a period, and so
    differs from it. *)
Theorem C1_span_text {U : Unicode} (txt : text) :
  (forall l o,
     Main.find_mb_txn_usage txt = Some l -> In o l ->
     Main.full o
       = Some (slice txt (fst (Main.span o)) (snd (Main.span o)))) /\
  (forall sel,
     In sel (Main1.find_selects txt) ->
     exists t,
       Main1.sel_text sel = Some t /\
       slice txt (fst (Main1.sel_span sel)) (snd (Main1.sel_span sel))
         = t ++ [46%N] /\
       slice txt (fst (Main1.sel_span sel)) (snd (Main1.sel_span sel))
         <> t).
Proof.
  split.
  - apply find_mb_txn_usage_span_full.
  - intros sel H. destruct (find_selects_span_text _ _ H) as (t & T & E).
    exists t. repeat split; auto. rewrite E. intros C.
    apply (f_equal (@length _)) in C. rewrite length_app in C. simpl in C. lia.
Qed.

(** The failing input of C1: one SELECT over VBRK.  The span is (0, 33),
    the 33 characters of the statement with its period; the recorded text
    has 32 characters. *)
Example select_span_covers_period {U : Unicode} :
  Main1.find_selects (str "SELECT * FROM VBRK INTO TABLE lt.")
    = [ {| Main1.sel_text := Some (str "SELECT * FROM VBRK INTO TABLE lt");
           Main1.sel_table := Some (str "VBRK");
           Main1.sel_target_type := str "itab";
           Main1.sel_target_name := Some (str "lt");
           Main1.sel_span := (0, 33)%Z |} ] /\
  slice (str "SELECT * FROM VBRK INTO TABLE lt.") 0 33
    = str "SELECT * FROM VBRK INTO TABLE lt.".
Proof. split; on_ascii. Qed.

(** C2, as stated, fails for the transaction-code rule: SUBMIT MB01 with
    no period after it is matched, and the matched text does not end with
    a period. *)
Lemma C2_counterexample :
  @Main.find_mb_txn_usage ascii_tables (str "SUBMIT MB01")
    = Some [ {| Main.full := Some (str "SUBMIT MB01");
                Main.stmt := str "SUBMIT";
                Main.txn := Some (str "MB01");
                Main.suggested_statement := str "SUBMIT MIGO.";
                Main.span := (0, 11)%Z |} ] /\
  last (str "SUBMIT MB01") 0%N <> 46%N.
Proof. vm_compute. split; [reflexivity | discriminate]. Qed.

(** C2, amended.  A match of the SELECT pattern extends up to and
    including a period: the last character of its recorded span is one.
    The transaction-code pattern takes the period as optional, and takes
    it when it is there: the recorded span of a match ends with a period,
    or no period follows it. *)
Theorem C2_period_terminator {U : Unicode} (txt : text) :
  (forall sel,
     In sel (Main1.find_selects txt) ->
     exists s j : nat,
       Main1.sel_span sel = (Z.of_nat s, Z.of_nat (S j)) /\
       s < j < length txt /\ nth_error txt j = Some 46%N) /\
  (forall l o,
     Main.find_mb_txn_usage txt = Some l -> In o l ->
     exists s e : nat,
       Main.span o = (Z.of_nat s, Z.of_nat e) /\
       s < e <= length txt /\
       (nth_error txt (e - 1) = Some 46%N \/ nth_error txt e <> Some 46%N)).
Proof.
  split.
  - intros sel H. apply find_selects_In in H as (m & A & ->).
    apply select_of_spec in A as (j & tab & E & L & B & P & _ & _ & Sp).
    exists (m_start m), j. repeat split; auto; lia.
  - intros l o H Ho.
    destruct (find_mb_txn_usage_In _ _ _ H Ho) as (m & B & A & Hu).
    destruct (usage_of_spec _ _ _ A Hu) as (Sp & _).
    exists (m_start m), (m_end m). split; [exact Sp|].
    pose proof (MB_TXN_RE_nonempty _ _ _ A).
    pose proof (match_at_in_text _ _ _ _ A B).
    split; [lia|]. now apply MB_TXN_RE_period in A.
Qed.

(** C3.  For a watch-listed table and a statement without the DRAFT filter
    that has the keyword WHERE, first at offset [p], the synthesizer
    returns the statement with [ <TABLE>-DRAFT = SPACE AND] inserted right
    after that keyword: the text up to and including WHERE, the inserted
    condition, and the rest of the statement, unchanged.  In the scenario
    of the specification the suggestion reads
    [... WHERE VBRP-DRAFT = SPACE AND id = 1 INTO ...]. *)
Theorem C3_draft_after_where :
  (forall (U : Unicode) sel table p,
     Main1.in_watch (upper table) = true ->
     search (Main1.DRAFT_RE (upper table)) sel 0 = None ->
     keyword_atb (str "WHERE") sel p = true ->
     (forall q, q < p -> keyword_atb (str "WHERE") sel q = false) ->
     Main1.ensure_draft_filter sel table
       = firstn (p + 5) sel
         ++ (str " " ++ upper table ++ str "-DRAFT = SPACE AND")
         ++ skipn (p + 5) sel) /\
  (forall U : Unicode,
     Main1.ensure_draft_filter
       (str "SELECT a, b FROM VBRP WHERE id = 1 INTO @ls_vbrp.") (str "VBRP")
     = str "SELECT a, b FROM VBRP WHERE VBRP-DRAFT = SPACE AND id = 1 INTO @ls_vbrp.") /\
  forall U : Unicode,
  Main1.selects_of
     {| Main1.pgm_name := str "ZPROG"; Main1.inc_name := str "ZINC";
        Main1.type := str "PROG"; Main1.name := None;
        Main1.class_implementation := None; Main1.start_line := None;
        Main1.end_line := None;
        Main1.code :=
          Some (str "SELECT a, b FROM VBRP WHERE id = 1 INTO @ls_vbrp.") |}
    = [ {| Main1.table := str "VBRP";
           Main1.target_type := str "wa";
           Main1.target_name := Some (str "@ls_vbrp");
           Main1.start_char_in_unit := 0;
           Main1.end_char_in_unit := 49;
           Main1.suggested_statement :=
             Some (str "SELECT a, b FROM VBRP WHERE VBRP-DRAFT = SPACE AND id = 1 INTO @ls_vbrp") |} ].
Proof.
  split; [|split; on_ascii].
  intros U sel table p W D K First.
  apply keyword_atb_spec in K.
  assert (First' : forall q, q < p -> ~ keyword_at (str "WHERE") sel q).
  { intros q Hq C. apply keyword_atb_spec in C.
    rewrite (First q Hq) in C. discriminate. }
  destruct (search_keyword _ _ _ K First') as (m & S & _ & E).
  unfold Main1.ensure_draft_filter. rewrite W, D. simpl negb. cbv iota.
  unfold Main1.WHERE_RE. rewrite S, E.
  now rewrite slice_to_nat, slice_from_nat.
Qed.

(** C4.  When the statement already contains [<TABLE>-DRAFT =], in any
    casing, for a watch-listed table, [ensure_draft_filter] returns it
    unchanged, whatever follows the equals sign; and applying
    [ensure_draft_filter] to its own result changes nothing, for every
    statement and table. *)
Theorem C4_draft_filter_idempotent {U : Unicode} :
  (forall sel table,
     Main1.in_watch (upper table) = true ->
     contains_ci sel (upper table ++ str "-DRAFT =") ->
     Main1.ensure_draft_filter sel table = sel) /\
  (forall sel table,
     Main1.ensure_draft_filter (Main1.ensure_draft_filter sel table) table
     = Main1.ensure_draft_filter sel table).
Proof.
  split.
  - apply ensure_draft_filter_unchanged.
  - apply ensure_draft_filter_idempotent.
Qed.

(** C5.  [remediate_array] returns when every unit goes through the dump,
    and only then.  In what it returns, the record of a unit holds under
    [selects] the records of the unit, and every one of them has a table
    name whose upper-case form is VBRK or VBRP; a matched SELECT over
    another table adds no record, whatever its destination clause is, and
    a unit whose matched SELECTs are all over other tables gets an empty
    list. *)
Theorem C5_selects_watch_list {U : Unicode} (units : list Main1.Unit) :
  (Main1.remediate_array units <> None <->
   forall u, In u units -> Main1.dumpable u = true) /\
  forall out,
    Main1.remediate_array units = Some out ->
    forall n u,
      nth_error units n = Some u ->
      (exists r,
         nth_error out n = Some r /\
         r = JObj (Main1.unit_fields u
                   ++ [("selects"%string,
                        JList (map Main1.sel_info_json
                                   (Main1.selects_of u)))]) /\
         json_get "selects" r
           = Some (JList (map Main1.sel_info_json (Main1.selects_of u)))) /\
      (forall i, In i (Main1.selects_of u) ->
                 Main1.in_watch (upper (Main1.table i)) = true /\
                 json_get "table" (Main1.sel_info_json i)
                   = Some (JStr (Main1.table i))) /\
      (forall sel tab,
          In sel (Main1.find_selects (Main1.code_or_empty u)) ->
          Main1.sel_table sel = Some tab ->
          Main1.in_watch (upper tab) = false ->
          Main1.infos_of sel = []) /\
      ((forall sel tab,
          In sel (Main1.find_selects (Main1.code_or_empty u)) ->
          Main1.sel_table sel = Some tab ->
          Main1.in_watch (upper tab) = false) ->
       Main1.selects_of u = []).
Proof.
  split; [apply remediate_array_defined|].
  intros out E n u Hu.
  destruct (mapM_nth _ _ _ E) as [_ N].
  destruct (N n u Hu) as (b & Hb & Eb).
  rewrite Main1_remediate_unit_spec in Eb.
  destruct (Main1.dumpable u); [|discriminate]. injection Eb as <-.
  split; [|split; [|split]].
  - eexists. split; [exact Hb|]. split; reflexivity.
  - intros i Hi. split; [|reflexivity].
    apply in_flat_map in Hi as (sel & _ & Hi).
    apply infos_of_In in Hi as (tab & t & _ & _ & W & <- & _). exact W.
  - intros sel tab _. apply infos_of_unwatched.
  - intros H. apply flat_map_nil. intros sel Hs.
    destruct (find_selects_In _ _ Hs) as (m & A & ->).
    destruct (select_of_spec _ _ A) as (j & tab & _ & _ & _ & _ & _ & T & _).
    apply (infos_of_unwatched _ tab T). now apply (H _ tab Hs).
Qed.

(** The table MARA is not on the watch list: its SELECTs are matched, in
    either form of the destination clause, and not reported. *)
Example mara_not_reported {U : Unicode} :
  let u code :=
    {| Main1.pgm_name := str "ZPROG"; Main1.inc_name := str "ZINC";
       Main1.type := str "PROG"; Main1.name := None;
       Main1.class_implementation := None; Main1.start_line := None;
       Main1.end_line := None; Main1.code := Some (str code) |} in
  length (Main1.find_selects
            (str "SELECT * FROM MARA INTO TABLE lt_mara.")) = 1 /\
  Main1.selects_of (u "SELECT * FROM MARA INTO TABLE lt_mara."%string) = [] /\
  length (Main1.find_selects
            (str "SELECT SINGLE matnr FROM mara INTO ls_mara.")) = 1 /\
  Main1.selects_of (u "SELECT SINGLE matnr FROM mara INTO ls_mara."%string)
    = [].
Proof. intros u. repeat split; on_ascii. Qed.

(** C6.  The suggestion of a transaction-code match is a function of its
    verb alone: SUBMIT MIGO. when the upper-cased verb starts with SUBMIT,
    and CALL TRANSACTION 'MIGO'. otherwise; two matches with the same verb
    have the same suggestion, whatever their codes.  A verb in ASCII text
    is SUBMIT in some casing and has the first suggestion, or starts with
    CALL in some casing and has the second.  The two scenarios of the
    specification follow. *)
Theorem C6_suggestion_by_verb :
  (forall (U : Unicode) txt l o,
     Main.find_mb_txn_usage txt = Some l -> In o l ->
     Main.suggested_statement o
       = (if startswith (upper (Main.stmt o)) (str "SUBMIT")
          then str "SUBMIT MIGO." else str "CALL TRANSACTION 'MIGO'.")) /\
  (forall (U : Unicode) txt l o txt' l' o',
     Main.find_mb_txn_usage txt = Some l -> In o l ->
     Main.find_mb_txn_usage txt' = Some l' -> In o' l' ->
     Main.stmt o = Main.stmt o' ->
     Main.suggested_statement o = Main.suggested_statement o') /\
  (forall (U : Unicode) txt l o,
     Main.find_mb_txn_usage txt = Some l -> In o l ->
     Forall (fun c => (c < 128)%N) (Main.stmt o) ->
     (upper (Main.stmt o) = str "SUBMIT" /\
      Main.suggested_statement o = str "SUBMIT MIGO.") \/
     (firstn 4 (upper (Main.stmt o)) = str "CALL" /\
      Main.suggested_statement o = str "CALL TRANSACTION 'MIGO'.")) /\
  (forall U : Unicode,
     Main.find_mb_txn_usage (str "CALL TRANSACTION 'MB01'.")
     = Some [ {| Main.full := Some (str "CALL TRANSACTION 'MB01'.");
                 Main.stmt := str "CALL TRANSACTION";
                 Main.txn := Some (str "MB01");
                 Main.suggested_statement := str "CALL TRANSACTION 'MIGO'.";
                 Main.span := (0, 24)%Z |} ]) /\
  forall U : Unicode,
  Main.find_mb_txn_usage (str "SUBMIT MB11.")
    = Some [ {| Main.full := Some (str "SUBMIT MB11.");
                Main.stmt := str "SUBMIT";
                Main.txn := Some (str "MB11");
                Main.suggested_statement := str "SUBMIT MIGO.";
                Main.span := (0, 12)%Z |} ].
Proof.
  assert (S : forall (U : Unicode) txt l o,
             Main.find_mb_txn_usage txt = Some l -> In o l ->
             Main.suggested_statement o
             = Main.suggest_replacement (Main.stmt o)).
  { intros U txt l o H Ho.
    destruct (find_mb_txn_usage_In _ _ _ H Ho) as (m & _ & A & Hu).
    now destruct (usage_of_spec _ _ _ A Hu) as (_ & _ & _ & E). }
  split; [|split; [|split; [|split]]].
  - intros U txt l o H Ho. now rewrite (S U txt l o H Ho).
  - intros U txt l o txt' l' o' H Ho H' Ho' E.
    rewrite (S U txt l o H Ho), (S U txt' l' o' H' Ho'). now rewrite E.
  - intros U txt l o. apply usage_verb.
  - on_ascii.
  - on_ascii.
Qed.

(** C7, as stated, fails when an empty span starts where another span
    does.  The spans (2, 2) and (2, 5) lie within the text and do not
    overlap; the text with both replaced reads abXYZQfgh.  The two pairs
    have the same start, the sort keeps them in the order they came in,
    and the second splice works on offsets the first one has moved. *)
Lemma C7_counterexample :
  let src := str "abcdefgh" in
  let repls := [((2, 2)%Z, str "XYZ"); ((2, 5)%Z, str "Q")] in
  (forall x, In x repls -> Main1.in_text src x) /\
  (forall x y, In x repls -> In y repls -> x <> y -> Main1.disjoint x y) /\
  Main1.replaced_text src 0 repls = str "abXYZQfgh" /\
  Main1.apply_span_replacements src repls = str "abQcdefgh".
Proof.
  split; [|split; [|split]].
  - intros x [<- | [<- | []]];
      unfold Main1.in_text, Main1.start, Main1.stop; simpl; lia.
  - intros x y [<- | [<- | []]] [<- | [<- | []]] N; try congruence;
      unfold Main1.disjoint, Main1.start, Main1.stop; simpl; lia.
  - reflexivity.
  - reflexivity.
Qed.

(** C7, amended: for pairs whose spans lie within the text, do not overlap
    and have distinct starts (non-empty spans that do not overlap have),
    [apply_span_replacements] sorts the pairs by start descending, that
    is into the reverse of the order [asc] from left to right, splices
    them in this order, and returns the text with each span replaced by
    its replacement. *)
Theorem C7_apply_span_replacements (src : text)
    (repls asc : list Main1.replacement) :
  (forall x, In x repls -> Main1.in_text src x) ->
  (forall x y, In x repls -> In y repls -> x <> y -> Main1.disjoint x y) ->
  Permutation asc repls -> Main1.ascending asc ->
  Main1.sorted_desc repls = rev asc /\
  Main1.apply_span_replacements src repls
    = fold_left Main1.splice (rev asc) src /\
  Main1.apply_span_replacements src repls = Main1.replaced_text src 0 asc.
Proof.
  intros Hin Hdis P A.
  pose proof (sorted_desc_of_perm repls asc P A) as E.
  unfold Main1.apply_span_replacements. rewrite E.
  repeat split.
  rewrite <- fold_left_rev_right, rev_involutive.
  rewrite (splice_chain src asc 0); try lia; auto.
  - now rewrite slice_to_Z by lia.
  - intros x Hx. apply (Permutation_in _ P) in Hx.
    split; [auto|]. destruct (Hin x Hx) as [[? _] _]. assumption.
  - intros x y Hx Hy. apply Hdis; eapply Permutation_in; eauto.
Qed.

(** C8 as worded fails: a unit whose program name is a lone surrogate does
    not go through [json.loads(u.model_dump_json())], and the endpoint
    raises instead of returning a list. *)
Lemma C8_counterexample :
  let u :=
    {| Main.pgm_name := [55296%N]; Main.inc_name := str "ZINC";
       Main.type := str "PROG"; Main.name := None;
       Main.class_implementation := None; Main.start_line := None;
       Main.end_line := None; Main.code := Some (str "SUBMIT MB01.") |} in
  let v :=
    {| Main1.pgm_name := [55296%N]; Main1.inc_name := str "ZINC";
       Main1.type := str "PROG"; Main1.name := None;
       Main1.class_implementation := None; Main1.start_line := None;
       Main1.end_line := None;
       Main1.code := Some (str "SELECT * FROM VBRK INTO TABLE lt.") |} in
  @Main.remediate_mb_txns ascii_tables [u] = None /\
  @Main1.remediate_array ascii_tables [v] = None.
Proof. intros u v. split; vm_compute; reflexivity. Qed.

(** C8, amended: for a list of units that go through the dump (no
    surrogate in a string field, no integer of more than 4300 digits),
    each endpoint returns a list of the same length in the same order.
    The record of a unit has the eight fields of the unit and one more,
    [mb_txn_usage] or [selects], in this order; each of the eight reads
    back as the value the unit has, the code among them; the ninth holds
    the records found in the code of the unit, in the order of their
    spans from left to right, and each record reads back the span, the
    code or table and the suggestion of its finding.  An endpoint returns
    for such lists only. *)
Theorem C8_units_echoed {U : Unicode} :
  (forall units,
     (forall u, In u units -> Main.dumpable u = true) ->
     exists out,
       Main.remediate_mb_txns units = Some out /\
       length out = length units /\
       forall n u,
         nth_error units n = Some u ->
         exists r usages,
           nth_error out n = Some r /\
           Main.find_mb_txn_usage (Main.code_or_empty u) = Some usages /\
           json_keys r
             = ["pgm_name"; "inc_name"; "type"; "name";
                "class_implementation"; "start_line"; "end_line"; "code";
                "mb_txn_usage"]%string /\
           json_get "pgm_name" r = Some (JStr (Main.pgm_name u)) /\
           json_get "inc_name" r = Some (JStr (Main.inc_name u)) /\
           json_get "type" r = Some (JStr (Main.type u)) /\
           json_get "name" r = Some (opt_json JStr (Main.name u)) /\
           json_get "class_implementation" r
             = Some (opt_json JStr (Main.class_implementation u)) /\
           json_get "start_line" r
             = Some (opt_json JInt (Main.start_line u)) /\
           json_get "end_line" r = Some (opt_json JInt (Main.end_line u)) /\
           json_get "code" r = Some (opt_json JStr (Main.code u)) /\
           json_get "mb_txn_usage" r
             = Some (JList (map Main.metadata_of usages)) /\
           StronglySorted
             (fun a b => (snd (Main.span a) <= fst (Main.span b))%Z /\
                         (fst (Main.span a) < fst (Main.span b))%Z)
             usages /\
           forall o, In o usages ->
             json_get "start_char_in_unit" (Main.metadata_of o)
               = Some (JInt (fst (Main.span o))) /\
             json_get "end_char_in_unit" (Main.metadata_of o)
               = Some (JInt (snd (Main.span o))) /\
             json_get "obsolete_mb_txn" (Main.metadata_of o)
               = Some (opt_json JStr (Main.txn o)) /\
             json_get "suggested_statement" (Main.metadata_of o)
               = Some (JStr (Main.suggested_statement o))) /\
  (forall units,
     (forall u, In u units -> Main1.dumpable u = true) ->
     exists out,
       Main1.remediate_array units = Some out /\
       length out = length units /\
       forall n u,
         nth_error units n = Some u ->
         exists r,
           nth_error out n = Some r /\
           json_keys r
             = ["pgm_name"; "inc_name"; "type"; "name";
                "class_implementation"; "start_line"; "end_line"; "code";
                "selects"]%string /\
           json_get "pgm_name" r = Some (JStr (Main1.pgm_name u)) /\
           json_get "inc_name" r = Some (JStr (Main1.inc_name u)) /\
           json_get "type" r = Some (JStr (Main1.type u)) /\
           json_get "name" r = Some (opt_json JStr (Main1.name u)) /\
           json_get "class_implementation" r
             = Some (opt_json JStr (Main1.class_implementation u)) /\
           json_get "start_line" r
             = Some (opt_json JInt (Main1.start_line u)) /\
           json_get "end_line" r
             = Some (opt_json JInt (Main1.end_line u)) /\
           json_get "code" r = Some (opt_json JStr (Main1.code u)) /\
           json_get "selects" r
             = Some (JList (map Main1.sel_info_json (Main1.selects_of u))) /\
           StronglySorted
             (fun a b =>
                (Main1.end_char_in_unit a <= Main1.start_char_in_unit b)%Z /\
                (Main1.start_char_in_unit a < Main1.start_char_in_unit b)%Z)
             (Main1.selects_of u) /\
           forall i, In i (Main1.selects_of u) ->
             json_get "table" (Main1.sel_info_json i)
               = Some (JStr (Main1.table i)) /\
             json_get "target_type" (Main1.sel_info_json i)
               = Some (JStr (Main1.target_type i)) /\
             json_get "target_name" (Main1.sel_info_json i)
               = Some (opt_json JStr (Main1.target_name i)) /\
             json_get "start_char_in_unit" (Main1.sel_info_json i)
               = Some (JInt (Main1.start_char_in_unit i)) /\
             json_get "end_char_in_unit" (Main1.sel_info_json i)
               = Some (JInt (Main1.end_char_in_unit i)) /\
             json_get "suggested_statement" (Main1.sel_info_json i)
               = Some (opt_json JStr (Main1.suggested_statement i))) /\
  (forall units,
     Main.remediate_mb_txns units <> None <->
     forall u, In u units -> Main.dumpable u = true) /\
  (forall units,
     Main1.remediate_array units <> None <->
     forall u, In u units -> Main1.dumpable u = true).
Proof.
  split; [|split; [|split]].
  - intros units D.
    destruct (Main.remediate_mb_txns units) as [out|] eqn:E.
    2:{ now apply remediate_mb_txns_defined in D. }
    exists out. split; [reflexivity|].
    destruct (mapM_nth _ _ _ E) as [L N]. split; [exact L|].
    intros n u Hu. destruct (N n u Hu) as (b & Hb & Eb).
    destruct (Main_remediate_unit_spec u) as (l & F & R).
    rewrite R, (D u (nth_error_In _ _ Hu)) in Eb. injection Eb as <-.
    eexists. exists l. split; [exact Hb|]. split; [exact F|].
    repeat (split; [reflexivity|]). split.
    + now apply (find_mb_txn_usage_sorted (Main.code_or_empty u)).
    + intros o _. repeat split.
  - intros units D.
    destruct (Main1.remediate_array units) as [out|] eqn:E.
    2:{ now apply remediate_array_defined in D. }
    exists out. split; [reflexivity|].
    destruct (mapM_nth _ _ _ E) as [L N]. split; [exact L|].
    intros n u Hu. destruct (N n u Hu) as (b & Hb & Eb).
    rewrite Main1_remediate_unit_spec, (D u (nth_error_In _ _ Hu)) in Eb.
    injection Eb as <-.
    eexists. split; [exact Hb|].
    repeat (split; [reflexivity|]). split.
    + apply selects_of_sorted.
    + intros i _. repeat split.
  - apply remediate_mb_txns_defined.
  - apply remediate_array_defined.
Qed.

(** C9.  No word boundary follows the code in the pattern: in
    SUBMIT MB011. the code MB01 is found as a prefix of the identifier
    MB011, and the span (0, 11) ends before its last character. *)
Theorem C9_code_prefix_of_identifier {U : Unicode} :
  Main.find_mb_txn_usage (str "SUBMIT MB011.")
    = Some [ {| Main.full := Some (str "SUBMIT MB01");
                Main.stmt := str "SUBMIT";
                Main.txn := Some (str "MB01");
                Main.suggested_statement := str "SUBMIT MIGO.";
                Main.span := (0, 11)%Z |} ] /\
  slice (str "SUBMIT MB011.") 7 12 = str "MB011" /\
  slice (str "SUBMIT MB011.") 11 13 = str "1.".
Proof. repeat split; on_ascii. Qed.

(** C10.  The [suggested_statement] of a reported SELECT is null exactly
    when the normalized suggestion is the matched text, character for
    character, and is the normalized suggestion otherwise.  So a statement
    that already has the DRAFT filter and has two whitespace characters in
    a row, or a whitespace character other than the space (a line break),
    still gets a suggestion: its own text with whitespace normalized. *)
Theorem C10_suggestion_null {U : Unicode} (u : Main1.Unit)
    (info : Main1.sel_info) :
  In info (Main1.selects_of u) ->
  exists sel t tab,
    In sel (Main1.find_selects (Main1.code_or_empty u)) /\
    Main1.sel_text sel = Some t /\ Main1.sel_table sel = Some tab /\
    Main1.table info = tab /\
    let new_stmt :=
      Main1.build_replacement_stmt t tab (Main1.sel_target_type sel)
                                   (Main1.sel_target_name sel) in
    (Main1.suggested_statement info = None <-> new_stmt = t) /\
    (new_stmt <> t -> Main1.suggested_statement info = Some new_stmt) /\
    (search (Main1.DRAFT_RE (upper tab)) t 0 <> None ->
     Main1.has_ws_run t = true \/ Main1.has_other_ws t = true ->
     Main1.suggested_statement info = Some (strip (Main1.collapse false t)) /\
     strip (Main1.collapse false t) <> t).
Proof.
  intros H. apply in_flat_map in H as (sel & Hs & Hi).
  apply infos_of_In in Hi as (tab & t & T & X & W & Tb & _ & _ & _ & _ & S).
  exists sel, t, tab. repeat split; auto; simpl in S |- *.
  - intros N. rewrite N in S.
    destruct (text_eqb _ t) eqn:E; [now apply text_eqb_eq in E | discriminate].
  - intros E. rewrite S, E.
    now rewrite (proj2 (text_eqb_eq t t) eq_refl).
  - intros N. rewrite S.
    now rewrite (proj2 (text_eqb_neq _ t) N).
  - rewrite S, (build_replacement_stmt_kept _ _ _ _ W H).
    assert (N : strip (Main1.collapse false t) <> t).
    { intros E. pose proof (normalized_no_run t) as R.
      pose proof (normalized_only_spaces t) as R'. rewrite E in R, R'.
      destruct H0; congruence. }
    now rewrite (proj2 (text_eqb_neq _ t) N).
  - intros E. pose proof (normalized_no_run t) as R.
    pose proof (normalized_only_spaces t) as R'. rewrite E in R, R'.
    destruct H0; congruence.
Qed.

(** A statement over two lines that has the DRAFT filter already: the
    suggestion is the statement on one line. *)
Example two_line_statement_suggested {U : Unicode} :
  Main1.selects_of
     {| Main1.pgm_name := str "ZPROG"; Main1.inc_name := str "ZINC";
        Main1.type := str "PROG"; Main1.name := None;
        Main1.class_implementation := None; Main1.start_line := None;
        Main1.end_line := None;
        Main1.code :=
          Some (str "SELECT * FROM VBRK" ++ [10%N; 32%N]
                ++ str "WHERE VBRK-DRAFT = SPACE INTO TABLE lt.") |}
    = [ {| Main1.table := str "VBRK";
           Main1.target_type := str "itab";
           Main1.target_name := Some (str "lt");
           Main1.start_char_in_unit := 0;
           Main1.end_char_in_unit := 59;
           Main1.suggested_statement :=
             Some (str "SELECT * FROM VBRK WHERE VBRK-DRAFT = SPACE INTO TABLE lt") |} ].
Proof. on_ascii. Qed.

(* ===================================================================== *)
(** * The theorems at concrete inputs *)
(* ===================================================================== *)

(** C1 at SUBMIT MB11. and at a SELECT over VBRK. *)
Lemma C1_span_text_witness :
  (let o := {| Main.full := Some (str "SUBMIT MB11.");
               Main.stmt := str "SUBMIT";
               Main.txn := Some (str "MB11");
               Main.suggested_statement := str "SUBMIT MIGO.";
               Main.span := (0, 12)%Z |} in
   @Main.find_mb_txn_usage ascii_tables (str "SUBMIT MB11.") = Some [o] /\
   Main.full o = Some (slice (str "SUBMIT MB11.") 0 12)) /\
  (let code := str "SELECT * FROM VBRK INTO TABLE lt." in
   let sel := {| Main1.sel_text := Some (str "SELECT * FROM VBRK INTO TABLE lt");
                 Main1.sel_table := Some (str "VBRK");
                 Main1.sel_target_type := str "itab";
                 Main1.sel_target_name := Some (str "lt");
                 Main1.sel_span := (0, 33)%Z |} in
   In sel (@Main1.find_selects ascii_tables code) /\
   exists t, Main1.sel_text sel = Some t /\
             slice code 0 33 = t ++ [46%N] /\ slice code 0 33 <> t).
Proof.
  split.
  - intros o.
    assert (E : @Main.find_mb_txn_usage ascii_tables (str "SUBMIT MB11.")
                = Some [o]) by (vm_compute; reflexivity).
    split; [exact E|].
    apply (proj1 (@C1_span_text ascii_tables (str "SUBMIT MB11.")) [o] o E).
    simpl. auto.
  - intros code sel.
    assert (I : In sel (@Main1.find_selects ascii_tables code))
      by (vm_compute; auto).
    split; [exact I|].
    apply (proj2 (@C1_span_text ascii_tables code) sel I).
Defined.

(** C2 at SUBMIT MB01 without a period, and at a SELECT. *)
Lemma C2_period_terminator_witness :
  (let code := str "SELECT * FROM VBRK INTO TABLE lt." in
   let sel := {| Main1.sel_text := Some (str "SELECT * FROM VBRK INTO TABLE lt");
                 Main1.sel_table := Some (str "VBRK");
                 Main1.sel_target_type := str "itab";
                 Main1.sel_target_name := Some (str "lt");
                 Main1.sel_span := (0, 33)%Z |} in
   In sel (@Main1.find_selects ascii_tables code) /\
   exists s j : nat,
     Main1.sel_span sel = (Z.of_nat s, Z.of_nat (S j)) /\
     s < j < length code /\ nth_error code j = Some 46%N) /\
  (let code := str "SUBMIT MB01" in
   let o := {| Main.full := Some (str "SUBMIT MB01");
               Main.stmt := str "SUBMIT";
               Main.txn := Some (str "MB01");
               Main.suggested_statement := str "SUBMIT MIGO.";
               Main.span := (0, 11)%Z |} in
   @Main.find_mb_txn_usage ascii_tables code = Some [o] /\
   exists s e : nat,
     Main.span o = (Z.of_nat s, Z.of_nat e) /\
     s < e <= length code /\
     (nth_error code (e - 1) = Some 46%N \/ nth_error code e <> Some 46%N)).
Proof.
  split.
  - intros code sel.
    assert (I : In sel (@Main1.find_selects ascii_tables code))
      by (vm_compute; auto).
    split; [exact I|].
    apply (proj1 (@C2_period_terminator ascii_tables code) sel I).
  - intros code o.
    assert (E : @Main.find_mb_txn_usage ascii_tables code = Some [o])
      by (vm_compute; reflexivity).
    split; [exact E|].
    apply (proj2 (@C2_period_terminator ascii_tables code) [o] o E).
    simpl. auto.
Defined.

(** C3 at the fourth scenario of the specification: WHERE stands at
    offset 22. *)
Lemma C3_draft_after_where_witness :
  let sel := str "SELECT a, b FROM VBRP WHERE id = 1 INTO @ls_vbrp." in
  @Main1.ensure_draft_filter ascii_tables sel (str "vbrp")
  = firstn 27 sel ++ str " VBRP-DRAFT = SPACE AND" ++ skipn 27 sel.
Proof.
  intros sel.
  apply (proj1 C3_draft_after_where ascii_tables sel (str "vbrp") 22).
  - vm_compute. reflexivity.
  - vm_compute. reflexivity.
  - vm_compute. reflexivity.
  - intros q Hq.
    do 22 (destruct q as [|q]; [vm_compute; reflexivity|]). lia.
Defined.

(** C4 at a statement that has the filter in lower case. *)
Lemma C4_draft_filter_idempotent_witness :
  let sel := str "SELECT * FROM VBRK WHERE vbrk-draft = ' ' INTO TABLE lt" in
  @Main1.ensure_draft_filter ascii_tables sel (str "vbrk") = sel.
Proof.
  intros sel.
  apply (proj1 (@C4_draft_filter_idempotent ascii_tables) sel (str "vbrk")).
  - vm_compute. reflexivity.
  - exists (str "SELECT * FROM VBRK WHERE "), (str "vbrk-draft ="),
           (str " ' ' INTO TABLE lt").
    split; vm_compute; reflexivity.
Defined.

(** C5 at a unit whose only SELECT is over MARA. *)
Lemma C5_selects_watch_list_witness :
  let u := {| Main1.pgm_name := str "ZPROG"; Main1.inc_name := str "ZINC";
              Main1.type := str "PROG"; Main1.name := None;
              Main1.class_implementation := None;
              Main1.start_line := Some 1%Z; Main1.end_line := Some 1%Z;
              Main1.code :=
                Some (str "SELECT * FROM MARA INTO TABLE lt_mara.") |} in
  let out := [JObj (Main1.unit_fields u ++ [("selects"%string, JList [])])] in
  @Main1.remediate_array ascii_tables [u] = Some out /\
  (exists r,
     nth_error out 0 = Some r /\
     r = JObj (Main1.unit_fields u
               ++ [("selects"%string,
                    JList (map Main1.sel_info_json
                               (@Main1.selects_of ascii_tables u)))]) /\
     json_get "selects" r
       = Some (JList (map Main1.sel_info_json
                          (@Main1.selects_of ascii_tables u)))) /\
  @Main1.selects_of ascii_tables u = [].
Proof.
  intros u out.
  assert (E : @Main1.remediate_array ascii_tables [u] = Some out)
    by (vm_compute; reflexivity).
  destruct (proj2 (@C5_selects_watch_list ascii_tables [u]) out E 0 u eq_refl)
    as (N & _ & _ & Z).
  split; [exact E|]. split; [exact N|].
  apply Z. intros sel tab Hs Ht.
  vm_compute in Hs. destruct Hs as [<- | []].
  vm_compute in Ht. injection Ht as <-. vm_compute. reflexivity.
Defined.

(** C6 at the second scenario of the specification. *)
Lemma C6_suggestion_by_verb_witness :
  let o := {| Main.full := Some (str "SUBMIT MB11.");
              Main.stmt := str "SUBMIT";
              Main.txn := Some (str "MB11");
              Main.suggested_statement := str "SUBMIT MIGO.";
              Main.span := (0, 12)%Z |} in
  @Main.find_mb_txn_usage ascii_tables (str "SUBMIT MB11.") = Some [o] /\
  Main.suggested_statement o
    = (if startswith (@upper ascii_tables (Main.stmt o)) (str "SUBMIT")
       then str "SUBMIT MIGO." else str "CALL TRANSACTION 'MIGO'.").
Proof.
  intros o.
  assert (E : @Main.find_mb_txn_usage ascii_tables (str "SUBMIT MB11.")
              = Some [o]) by (vm_compute; reflexivity).
  split; [exact E|].
  apply (proj1 C6_suggestion_by_verb ascii_tables (str "SUBMIT MB11.") [o] o E).
  simpl. auto.
Defined.

(** C7 at two spans given from right to left. *)
Lemma C7_apply_span_replacements_witness :
  let src := str "abcdefgh" in
  let repls := [((5, 6)%Z, str "X"); ((1, 3)%Z, str "YY")] in
  let asc := [((1, 3)%Z, str "YY"); ((5, 6)%Z, str "X")] in
  Main1.sorted_desc repls = rev asc /\
  Main1.apply_span_replacements src repls
    = fold_left Main1.splice (rev asc) src /\
  Main1.apply_span_replacements src repls = Main1.replaced_text src 0 asc.
Proof.
  intros src repls asc.
  apply (C7_apply_span_replacements src repls asc).
  - intros x [<- | [<- | []]];
      unfold Main1.in_text, Main1.start, Main1.stop; simpl; lia.
  - intros x y [<- | [<- | []]] [<- | [<- | []]] N; try congruence;
      unfold Main1.disjoint, Main1.start, Main1.stop; simpl; lia.
  - apply perm_swap.
  - repeat constructor; unfold Main1.start; simpl; lia.
Defined.

(** C8 at a list of two units, for each endpoint. *)
Lemma C8_units_echoed_witness :
  let u1 := {| Main.pgm_name := str "ZPROG"; Main.inc_name := str "ZINC";
               Main.type := str "PROG"; Main.name := Some (str "MAIN");
               Main.class_implementation := None;
               Main.start_line := Some 1%Z; Main.end_line := Some 2%Z;
               Main.code := Some (str "SUBMIT MB11. SUBMIT MBST.") |} in
  let u2 := {| Main.pgm_name := str "ZPROG"; Main.inc_name := str "ZINC";
               Main.type := str "PROG"; Main.name := None;
               Main.class_implementation := None;
               Main.start_line := None; Main.end_line := None;
               Main.code := None |} in
  let v := {| Main1.pgm_name := str "ZPROG"; Main1.inc_name := str "ZINC";
              Main1.type := str "PROG"; Main1.name := None;
              Main1.class_implementation := None;
              Main1.start_line := None; Main1.end_line := None;
              Main1.code :=
                Some (str "SELECT * FROM VBRK INTO TABLE lt.") |} in
  (exists out r usages,
     @Main.remediate_mb_txns ascii_tables [u1; u2] = Some out /\
     length out = 2 /\
     nth_error out 0 = Some r /\
     json_get "code" r = Some (JStr (str "SUBMIT MB11. SUBMIT MBST.")) /\
     json_get "start_line" r = Some (JInt 1) /\
     json_get "mb_txn_usage" r
       = Some (JList (map Main.metadata_of usages))) /\
  (exists out r,
     @Main1.remediate_array ascii_tables [v] = Some out /\
     length out = 1 /\
     nth_error out 0 = Some r /\
     json_get "code" r
       = Some (JStr (str "SELECT * FROM VBRK INTO TABLE lt.")) /\
     json_get "selects" r
       = Some (JList (map Main1.sel_info_json
                          (@Main1.selects_of ascii_tables v)))).
Proof.
  intros u1 u2 v. split.
  - destruct (proj1 (@C8_units_echoed ascii_tables) [u1; u2])
      as (out & E & L & H).
    { intros u [<- | [<- | []]]; vm_compute; reflexivity. }
    destruct (H 0 u1 eq_refl)
      as (r & usages & N & _ & _ & _ & _ & _ & _ & _ & S & _ & C & M & _).
    exists out, r, usages. repeat split; assumption.
  - destruct (proj1 (proj2 (@C8_units_echoed ascii_tables)) [v])
      as (out & E & L & H).
    { intros u [<- | []]. vm_compute. reflexivity. }
    destruct (H 0 v eq_refl)
      as (r & N & _ & _ & _ & _ & _ & _ & _ & _ & C & M & _).
    exists out, r. repeat split; assumption.
Defined.

(** C10 at a statement over two lines that has the filter. *)
Lemma C10_suggestion_null_witness :
  let u := {| Main1.pgm_name := str "ZPROG"; Main1.inc_name := str "ZINC";
              Main1.type := str "PROG"; Main1.name := None;
              Main1.class_implementation := None; Main1.start_line := None;
              Main1.end_line := None;
              Main1.code :=
                Some (str "SELECT * FROM VBRK" ++ [10%N; 32%N]
                      ++ str "WHERE VBRK-DRAFT = SPACE INTO TABLE lt.") |} in
  let info := {| Main1.table := str "VBRK";
                 Main1.target_type := str "itab";
                 Main1.target_name := Some (str "lt");
                 Main1.start_char_in_unit := 0;
                 Main1.end_char_in_unit := 59;
                 Main1.suggested_statement :=
                   Some (str "SELECT * FROM VBRK WHERE VBRK-DRAFT = SPACE INTO TABLE lt") |} in
  In info (@Main1.selects_of ascii_tables u) /\
  exists sel t tab,
    In sel (@Main1.find_selects ascii_tables (Main1.code_or_empty u)) /\
    Main1.sel_text sel = Some t /\ Main1.sel_table sel = Some tab /\
    Main1.table info = tab /\
    let new_stmt :=
      @Main1.build_replacement_stmt ascii_tables t tab
        (Main1.sel_target_type sel) (Main1.sel_target_name sel) in
    (Main1.suggested_statement info = None <-> new_stmt = t) /\
    (new_stmt <> t -> Main1.suggested_statement info = Some new_stmt) /\
    (search (@Main1.DRAFT_RE ascii_tables (@upper ascii_tables tab)) t 0
       <> None ->
     @Main1.has_ws_run ascii_tables t = true \/
     @Main1.has_other_ws ascii_tables t = true ->
     Main1.suggested_statement info
       = Some (@strip ascii_tables (@Main1.collapse ascii_tables false t)) /\
     @strip ascii_tables (@Main1.collapse ascii_tables false t) <> t).
Proof.
  intros u info.
  assert (I : In info (@Main1.selects_of ascii_tables u))
    by (vm_compute; auto).
  split; [exact I|].
  apply (@C10_suggestion_null ascii_tables u info I).
Defined.

(* ===================================================================== *)
(** * Further properties: scanning *)
(* ===================================================================== *)

Lemma Forall2_In_l {A B : Type} (R : A -> B -> Prop) l bs a :
  Forall2 R l bs -> In a l -> exists b, In b bs /\ R a b.
Proof.
  induction 1 as [|a' b l bs Hab _ IH]; simpl; [tauto|].
  intros [<- | H].
  - exists b. auto.
  - destruct (IH H) as (b' & Hb & Hr). exists b'. auto.
Qed.

Lemma mapM_ext_in {A B : Type} (f g : A -> option B) l :
  (forall a, In a l -> f a = g a) -> mapM f l = mapM g l.
Proof.
  induction l as [|a l IH]; simpl; intros H; [reflexivity|].
  rewrite (H a (or_introl eq_refl)), IH; [reflexivity|].
  intros; apply H; now right.
Qed.

Lemma mapM_map {A B : Type} (f : A -> option B) (g : A -> B) l :
  (forall a, In a l -> f a = Some (g a)) -> mapM f l = Some (map g l).
Proof.
  induction l as [|a l IH]; simpl; intros H; [reflexivity|].
  rewrite (H a (or_introl eq_refl)), IH; [reflexivity|].
  intros; apply H; now right.
Qed.

Section Scanning.
Context {U : Unicode}.

(** A text shorter than the shortest match has no match. *)
Lemma finditer_short r txt :
  length txt < min_len r -> finditer r txt = [].
Proof.
  intros H. destruct (finditer r txt) as [|m l] eqn:E; [reflexivity|].
  assert (I : In m (finditer r txt)) by (rewrite E; now left).
  apply finditer_In in I as [B A].
  pose proof (match_at_le _ _ _ _ A). pose proof (match_at_in_text _ _ _ _ A B).
  lia.
Qed.

(** Scanning misses no occurrence: an offset at which the pattern matches
    lies in a reported match. *)
Lemma finditer_from_covers r txt :
  (forall i m, match_at r txt i = Some m -> m_start m < m_end m) ->
  forall fuel pos q,
    S (length txt) - pos <= fuel -> pos <= q <= length txt ->
    match_at r txt q <> None ->
    exists m, In m (finditer_from r txt pos fuel) /\
              m_start m <= q < m_end m.
Proof.
  intros NE. induction fuel as [|f IH]; intros pos q F Q M; [lia|].
  simpl. destruct (search r txt pos) as [m0|] eqn:E.
  - pose proof (search_Some _ _ _ _ E) as (B & A & Left).
    pose proof (NE _ _ A) as N.
    destruct (Nat.lt_ge_cases q (m_start m0)) as [G | G].
    { exfalso. apply M, Left. lia. }
    destruct (Nat.lt_ge_cases q (m_end m0)) as [G' | G'].
    { exists m0. split; [now left | lia]. }
    replace (m_end m0 =? m_start m0) with false
      by (symmetry; apply Nat.eqb_neq; lia).
    destruct (IH (m_end m0) q) as (m & I & C); try lia; auto.
    exists m. split; [now right | exact C].
  - exfalso. apply M. apply (search_None _ _ _ E). lia.
Qed.

Lemma finditer_covers r txt q :
  (forall i m, match_at r txt i = Some m -> m_start m < m_end m) ->
  q <= length txt -> match_at r txt q <> None ->
  exists m, In m (finditer r txt) /\ m_start m <= q < m_end m.
Proof.
  intros NE Q M. apply finditer_from_covers; auto; lia.
Qed.

(** A match that takes a character starts inside the text. *)
Lemma Matches_nonempty_in_text txt r i c j c' :
  Matches txt r i c j c' -> i < j -> i < length txt.
Proof.
  induction 1 as [| p i c x Hx _ | a b i c j c' l c'' Ma IHa Mb IHb
                 | | | g lo p i c n Hlo Hn | |]; intros D; try lia; auto.
  - apply nth_error_Some; congruence.
  - pose proof (Matches_le _ _ _ _ _ _ Ma).
    pose proof (Matches_le _ _ _ _ _ _ Mb).
    destruct (Nat.eq_dec i j) as [->|]; [apply IHb; lia | apply IHa; lia].
  - destruct (Nat.lt_ge_cases i (length txt)) as [|G]; [assumption|].
    unfold run in Hn. rewrite skipn_all2 in Hn by lia. simpl in Hn. lia.
Qed.

Lemma match_at_start_in_text r txt i m :
  0 < min_len r -> match_at r txt i = Some m -> i <= length txt.
Proof.
  intros P H. pose proof (match_at_le _ _ _ _ H) as L.
  apply match_at_spec in H as [S M]. rewrite S in L.
  apply Nat.lt_le_incl. apply (Matches_nonempty_in_text _ _ _ _ _ _ M). lia.
Qed.

End Scanning.

(* ===================================================================== *)
(** * Further properties: what the groups of a match hold *)
(* ===================================================================== *)

Lemma run_len_firstn (p : char -> bool) : forall s n,
  n <= run_len p s ->
  length (firstn n s) = n /\ Forall (fun c => p c = true) (firstn n s).
Proof.
  induction s as [|a s IH]; intros n H; simpl in H.
  - assert (n = 0) by lia. subst. simpl. auto.
  - destruct n as [|n]; simpl; [auto|].
    destruct (p a) eqn:E; [|lia].
    destruct (IH n) as [L F]; [lia|]. split; [lia | constructor; auto].
Qed.

(** [l[a:b] ++ l[b:c] = l[a:c]] *)
Lemma slices_app {A : Type} (l : list A) a b c :
  a <= b <= c ->
  firstn (b - a) (skipn a l) ++ firstn (c - b) (skipn b l)
  = firstn (c - a) (skipn a l).
Proof.
  intros H. rewrite <- (firstn_firstn_skipn (skipn a l) (b - a) (c - a)) by lia.
  rewrite skipn_skipn.
  replace (c - a - (b - a)) with (c - b) by lia.
  now replace (b - a + a) with b by lia.
Qed.

Lemma In_slice {A : Type} (l : list A) d n x :
  In x (firstn n (skipn d l)) ->
  exists q, q < n /\ nth_error l (d + q) = Some x.
Proof.
  revert d. induction n as [|n IH]; intros d H; [destruct H|].
  destruct (skipn d l) as [|y rest] eqn:E; [destruct H|].
  apply skipn_cons_nth in E as [N E]. simpl in H. destruct H as [<- | H].
  - exists 0. rewrite Nat.add_0_r. split; [lia | exact N].
  - rewrite <- E in H. apply IH in H as (q & Hq & Hn).
    exists (S q). split; [lia|]. now rewrite <- plus_n_Sm.
Qed.

Section Anatomy.
Context {U : Unicode}.

Lemma Matches_nogroups txt r i c j c' :
  groups_of r = [] -> Matches txt r i c j c' -> c' = c.
Proof.
  intros G M. apply Matches_caps_names in M as (d & -> & I). rewrite G in I.
  destruct d as [|x d]; [reflexivity|]. exfalso. apply (I (fst x)). now left.
Qed.

Lemma Matches_alts_inv txt rs : forall i c j c',
  rs <> [] -> Matches txt (alts rs) i c j c' ->
  exists r, In r rs /\ Matches txt r i c j c'.
Proof.
  induction rs as [|r rs IH]; intros i c j c' N M; [congruence|].
  destruct rs as [|r' rs].
  - exists r. simpl in *. auto.
  - change (alts (r :: r' :: rs)) with (Alt r (alts (r' :: rs))) in M.
    apply Matches_Alt_inv in M as [M | M].
    + exists r. simpl. auto.
    + destruct (IH i c j c') as (x & I & Mx); [discriminate | exact M|].
      exists x. split; [now right | exact Mx].
Qed.

(** A group around a repeat holds a run of characters of the class. *)
Lemma Matches_Group_Rep txt name g lo p i c j c' :
  Matches txt (Group name (Rep g lo p)) i c j c' ->
  c' = (name, (i, j)) :: c /\ i + lo <= j /\
  length (firstn (j - i) (skipn i txt)) = j - i /\
  Forall (fun x => p x = true) (firstn (j - i) (skipn i txt)).
Proof.
  intros M. apply Matches_Group_inv in M as (c0 & -> & M).
  apply Matches_Rep_inv in M as (-> & n & -> & L & R).
  replace (i + n - i) with n by lia. unfold run in R.
  destruct (run_len_firstn p _ _ R). repeat split; auto; lia.
Qed.

(** The parts of a match of [MB_TXN_RE]: the verb from the start of the
    match, whitespace, and one of the listed codes in some casing. *)
Lemma MB_TXN_RE_anatomy txt i m :
  match_at Main.MB_TXN_RE txt i = Some m ->
  exists j1 s code,
    m_caps m = [("full", (i, m_end m)); ("txn", (s, s + length code));
                ("stmt", (i, j1))]%string /\
    In code Main.OBSOLETE_MB_TXNS /\
    i <= j1 /\ j1 + 1 <= s /\ s + length code <= m_end m /\
    Forall2 (fun p x => ichr_class p x = true) code
            (firstn (length code) (skipn s txt)).
Proof.
  intros H. apply match_at_spec in H as [_ M].
  unfold Main.MB_TXN_RE in M.
  apply Matches_Group_inv in M as (c0 & -> & M).
  cbn [seqs] in M.
  apply Matches_Seq_inv in M as (j1 & c1 & Ms & M).
  apply Matches_Seq_inv in M as (j2 & c2 & M2 & M).
  apply Matches_Seq_inv in M as (j3 & c3 & M3 & M).
  apply Matches_Seq_inv in M as (j4 & c4 & Mt & M).
  apply Matches_Group_inv in Ms as (c5 & -> & Ms).
  pose proof (Matches_le _ _ _ _ _ _ Ms) as L1.
  pose proof (Matches_le _ _ _ _ _ _ M3) as L3.
  pose proof (Matches_le _ _ _ _ _ _ M) as L4.
  apply Matches_nogroups in Ms as ->; [|reflexivity].
  apply Matches_Rep_inv in M2 as (-> & n & -> & L2 & _).
  apply Matches_nogroups in M3 as ->; [|reflexivity].
  apply Matches_nogroups in M as ->; [|reflexivity].
  apply Matches_Group_inv in Mt as (c6 & -> & Mt).
  apply Matches_alts_inv in Mt as (r & I & Mr); [|discriminate].
  apply in_map_iff in I as (code & <- & I).
  apply Matches_ilit_inv in Mr as (-> & -> & F).
  exists j1, j3, code. repeat split; auto; lia.
Qed.

(** Upper-casing an ASCII text that matches a literal without small
    letters gives the literal. *)
Lemma upper_of_code pat : forall mid,
  Forall (fun p => (p < 128)%N /\ between 97 122 p = false) pat ->
  ascii_text mid ->
  Forall2 (fun p x => ichr_class p x = true) pat mid ->
  upper mid = pat.
Proof.
  induction pat as [|p pat IH]; intros mid Fp Fm F;
    inversion F as [|? x ? rest Hc Hrest]; subst; [reflexivity|].
  inversion Fp as [|? ? [Lp Hl] Fp']; inversion Fm as [|? ? Hx Fm']; subst.
  unfold upper. simpl. fold (upper rest). rewrite (IH rest) by assumption.
  rewrite toupper_ascii by assumption. simpl. f_equal.
  revert Hc. unfold ichr_class, cased, ascii_isalpha. rewrite Hl.
  replace (128 <=? p)%N with false by (symmetry; apply N.leb_gt; lia).
  rewrite !orb_false_r.
  destruct (between 65 90 p) eqn:Hu.
  - rewrite casematch_ascii by assumption. intros E. apply N.eqb_eq in E.
    revert E Hu Hl. unfold ascii_lower, ascii_upper, between.
    destruct (N.leb_spec 65 p), (N.leb_spec p 90), (N.leb_spec 65 x),
      (N.leb_spec x 90), (N.leb_spec 97 x), (N.leb_spec x 122),
      (N.leb_spec 97 p), (N.leb_spec p 122);
      simpl; intros; try discriminate; lia.
  - intros E. apply N.eqb_eq in E. subst x. unfold ascii_upper.
    now rewrite Hl.
Qed.

End Anatomy.

(** A lazy repeat stops at the first length at which the rest of the
    pattern matches. *)
Lemma lazy_try_first k i fuel : forall j res,
  lazy_try k i j fuel = Some res ->
  exists m, j <= m <= j + fuel /\ k (i + m) = Some res /\
            forall q, j <= q < m -> k (i + q) = None.
Proof.
  induction fuel as [|f IH]; intros j res; simpl.
  - destruct (k (i + j)) eqn:E; [|discriminate].
    intros [= <-]. exists j. repeat split; try lia; auto; intros; lia.
  - destruct (k (i + j)) eqn:E.
    + intros [= <-]. exists j. repeat split; try lia; auto; intros; lia.
    + intros H. apply IH in H as (m & Hm & Hk & Hq).
      exists m. repeat split; try lia; auto.
      intros q Q. destruct (Nat.eq_dec q j) as [->|]; [exact E|].
      apply Hq. lia.
Qed.

Ltac plain M :=
  let L := fresh "L" in
  pose proof (Matches_le _ _ _ _ _ _ M) as L;
  apply Matches_nogroups in M; [subst | reflexivity].

Section SelectAnatomy.
Context {U : Unicode}.

Lemma bt_Seq a b txt i c k :
  bt (Seq a b) txt i c k = bt a txt i c (fun j c' => bt b txt j c' k).
Proof. reflexivity. Qed.

Lemma bt_Rep_lazy0 p txt i c k :
  bt (Rep false 0 p) txt i c k
  = lazy_try (fun j => k j c) i 0 (run p txt i - 0).
Proof. reflexivity. Qed.

(** The parts of a match of [SELECT_RE]: the groups it sets and where
    they lie.  [itab] tells which of the two destination clauses
    matched. *)
Lemma SELECT_RE_anatomy txt i m :
  match_at Main1.SELECT_RE txt i = Some m ->
  exists f0 f1 t0 t1 t2 d0 d1 e (itab : bool),
    m_end m = S e /\
    m_caps m = [("full", (i, e)); ("tail", (d1, e));
                ((if itab then "into_tab" else "into_wa"), (d0, d1));
                ("middle", (t1, t2)); ("table", (t0, t1));
                ("fields", (f0, f1))]%string /\
    i <= t0 /\ t0 + 1 <= t1 /\ t1 <= t2 /\ t2 <= d0 /\ d0 + 1 <= d1 /\
    d1 <= e /\ e < length txt /\
    Forall (fun x => isword x = true) (firstn (t1 - t0) (skipn t0 txt)) /\
    length (firstn (t1 - t0) (skipn t0 txt)) = t1 - t0 /\
    Forall (fun x => Main1.dest_char x = true)
           (firstn (d1 - d0) (skipn d0 txt)) /\
    length (firstn (d1 - d0) (skipn d0 txt)) = d1 - d0 /\
    nth_error txt e = Some 46%N /\
    forall q, d1 <= q < e -> nth_error txt q <> Some 46%N.
Proof.
  unfold match_at.
  destruct (bt Main1.SELECT_RE txt i [] accept) as [[e' c]|] eqn:E;
    [|discriminate].
  intros [= <-]. cbn [m_end m_caps].
  unfold Main1.SELECT_RE in E. rewrite bt_Seq, bt_Group in E.
  apply bt_seqs_last in E as (j0 & c0 & M & E); [|discriminate].
  simpl last in E. rewrite bt_Group, bt_Rep_lazy0 in E.
  apply lazy_try_first in E as (n & _ & E & First).
  cbn beta in E, First. unfold period in E, First. cbn [bt] in E, First.
  unfold accept in E, First.
  simpl removelast in M. cbn [seqs] in M.
  apply Matches_Seq_inv in M as (a1 & c1 & M1 & M).
  apply Matches_Seq_inv in M as (a2 & c2 & M2 & M).
  apply Matches_Seq_inv in M as (a3 & c3 & M3 & M).
  apply Matches_Seq_inv in M as (a4 & c4 & M4 & M).
  apply Matches_Seq_inv in M as (a5 & c5 & M5 & M).
  apply Matches_Seq_inv in M as (a6 & c6 & M6 & M).
  apply Matches_Seq_inv in M as (a7 & c7 & M7 & M).
  apply Matches_Seq_inv in M as (a8 & c8 & M8 & M).
  apply Matches_Seq_inv in M as (a9 & c9 & M9 & M).
  plain M1.
  plain M2.
  plain M3.
  apply Matches_Group_Rep in M4 as (-> & Lfld & _ & _).
  plain M5.
  plain M6.
  plain M7.
  apply Matches_Group_Rep in M8 as (-> & Ltab & Ntab & Ftab).
  apply Matches_Group_Rep in M9 as (-> & Lmid & _ & _).
  assert (D : exists d0 (itab : bool),
             a9 <= d0 /\
             Matches txt (Group (if itab then "into_tab" else "into_wa")
                                (Rep true 1 Main1.dest_char))
                     d0 (("middle", (a8, a9)) :: ("table", (a7, a8))
                         :: [("fields", (a3, a4))])%string j0 c0).
  { apply Matches_Alt_inv in M as [M | M]; cbn [seqs] in M.
    - apply Matches_Seq_inv in M as (b1 & e1 & B1 & M).
      apply Matches_Seq_inv in M as (b2 & e2 & B2 & M).
      apply Matches_Seq_inv in M as (b3 & e3 & B3 & M).
      apply Matches_Seq_inv in M as (b4 & e4 & B4 & M).
      plain B1.
      plain B2.
      plain B3.
      plain B4.
      exists b4, true. split; [lia | exact M].
    - apply Matches_Seq_inv in M as (b1 & e1 & B1 & M).
      apply Matches_Seq_inv in M as (b2 & e2 & B2 & M).
      plain B1.
      plain B2.
      exists b2, false. split; [lia | exact M]. }
  destruct D as (d0 & itab & Ld & Md).
  apply Matches_Group_Rep in Md as (-> & Ldest & Ndest & Fdest).
  destruct (nth_error txt (j0 + n)) as [x|] eqn:Nx; [|discriminate].
  destruct (N.eqb_spec 46 x) as [<-|]; [|discriminate].
  injection E as <- <-.
  exists a3, a4, a7, a8, a9, d0, j0, (j0 + n), itab.
  repeat split; auto; try lia.
  - apply nth_error_Some. congruence.
  - intros q Q C. specialize (First (q - j0)).
    replace (j0 + (q - j0)) with q in First by lia.
    rewrite C in First. simpl in First.
    discriminate First. lia.
Qed.

End SelectAnatomy.

(* ===================================================================== *)
(** * Further properties: the branches of [ensure_draft_filter] *)
(* ===================================================================== *)

Lemma lstrip_char_split x l :
  exists d, l = d ++ lstrip_char x l /\ Forall (fun c => c = x) d.
Proof.
  induction l as [|c l (d & E & F)]; [exists []; simpl; auto|].
  simpl. destruct (N.eqb_spec c x) as [->|].
  - exists (x :: d). split; [simpl; now rewrite <- E | now constructor].
  - exists []. simpl. auto.
Qed.

(** [s.rstrip(".")] takes periods off the end and nothing else. *)
Lemma rstrip_char_split x l :
  exists d, l = rstrip_char x l ++ d /\ Forall (fun c => c = x) d.
Proof.
  destruct (lstrip_char_split x (rev l)) as (d & E & F).
  exists (rev d). split; [|now apply Forall_rev].
  unfold rstrip_char. rewrite <- rev_app_distr, <- E. now rewrite rev_involutive.
Qed.

Section DraftBranches.
Context {U : Unicode}.

Lemma search_no_keyword kw txt :
  (forall q, ~ keyword_at kw txt q) ->
  search (seqs [WordB; ilit kw; WordB]) txt 0 = None.
Proof.
  intros No.
  destruct (search (seqs [WordB; ilit kw; WordB]) txt 0) as [m|] eqn:E;
    [|reflexivity].
  apply search_Some in E as (_ & A & _).
  apply match_at_spec in A as [_ M].
  apply keyword_Matches_inv in M as [K _]. now apply No in K.
Qed.

End DraftBranches.

(* ===================================================================== *)
(** * Further properties: normal form of a suggested statement *)
(* ===================================================================== *)

Section NormalForm.
Context {U : Unicode}.

Lemma lstrip_idem l : lstrip (lstrip l) = lstrip l.
Proof.
  induction l as [|c l IH]; [reflexivity|]. simpl.
  destruct (isspace c) eqn:E; [exact IH|]. simpl. now rewrite E.
Qed.

Lemma lstrip_head l c r : lstrip l = c :: r -> isspace c = false.
Proof.
  induction l as [|x l IH]; simpl; [discriminate|].
  destruct (isspace x) eqn:E; [exact IH|]. now intros [= <- _].
Qed.

Lemma lstrip_app_nonspace a c :
  isspace c = false -> lstrip (a ++ [c]) = lstrip a ++ [c].
Proof.
  intros C. induction a as [|x a IH]; simpl; [now rewrite C|].
  destruct (isspace x); [exact IH | reflexivity].
Qed.

Lemma rstrip_cons_nonspace c l :
  isspace c = false -> rstrip (c :: l) = c :: rstrip l.
Proof.
  intros C. unfold rstrip. simpl rev.
  rewrite lstrip_app_nonspace by assumption.
  now rewrite rev_app_distr.
Qed.

Lemma rstrip_idem l : rstrip (rstrip l) = rstrip l.
Proof. unfold rstrip. now rewrite rev_involutive, lstrip_idem. Qed.

(** [s.strip().strip() == s.strip()] *)
Lemma strip_idem l : strip (strip l) = strip l.
Proof.
  unfold strip. destruct (lstrip l) as [|c r] eqn:E; [reflexivity|].
  pose proof (lstrip_head _ _ _ E) as C.
  rewrite rstrip_cons_nonspace by assumption.
  simpl lstrip. rewrite C.
  rewrite rstrip_cons_nonspace by assumption. now rewrite rstrip_idem.
Qed.

(** Collapsing the whitespace of a text that has single spaces only
    changes nothing. *)
Lemma collapse_fixed s : forall b,
  Main1.has_ws_run s = false -> Main1.has_other_ws s = false ->
  (b = true -> match s with c :: _ => isspace c = false | [] => True end) ->
  Main1.collapse b s = s.
Proof.
  induction s as [|c s IH]; intros b R O H; [reflexivity|].
  simpl in O. apply orb_false_iff in O as [Oc O].
  assert (R' : Main1.has_ws_run s = false).
  { simpl in R. destruct s; [reflexivity|].
    now apply orb_false_iff in R as [_ R]. }
  simpl. destruct (isspace c) eqn:C.
  - destruct b; [specialize (H eq_refl); simpl in H; congruence|].
    simpl in Oc. apply negb_false_iff, N.eqb_eq in Oc. subst c.
    f_equal. apply IH; auto. intros _.
    destruct s as [|y s]; [exact I|]. simpl in R.
    apply orb_false_iff in R as [R _]. now rewrite C in R.
  - f_equal. apply IH; auto. discriminate.
Qed.

End NormalForm.

(* ===================================================================== *)
(** * Further properties: the replacements of a unit *)
(* ===================================================================== *)

Lemma StronglySorted_weaken {A : Type} (P Q : A -> A -> Prop) l :
  (forall a b, P a b -> Q a b) -> StronglySorted P l -> StronglySorted Q l.
Proof.
  intros PQ. induction 1 as [|a l S IH F]; constructor; auto.
  revert F. apply Forall_impl. auto.
Qed.

Lemma StronglySorted_In_cases {A : Type} (P : A -> A -> Prop) l x y :
  StronglySorted P l -> In x l -> In y l -> x = y \/ P x y \/ P y x.
Proof.
  induction 1 as [|a l S IH F]; simpl; [tauto|].
  pose proof (proj1 (Forall_forall _ _) F) as Fa.
  intros [<- | Hx] [<- | Hy]; auto.
Qed.

Section Replacements.
Context {U : Unicode}.

Lemma repls_of_length sel : length (Main1.repls_of sel) <= 1.
Proof.
  unfold Main1.repls_of, Main1.step.
  destruct (Main1.sel_table sel) as [tab|]; [|simpl; lia].
  destruct (Main1.in_watch (upper tab)); [|simpl; lia].
  destruct (Main1.sel_text sel) as [t|]; [|simpl; lia].
  destruct (negb _); simpl; lia.
Qed.

(** A replacement carries the span of its statement and the statement
    [build_replacement_stmt] gives, which differs from the matched
    text. *)
Lemma repls_of_In sel x :
  In x (Main1.repls_of sel) ->
  exists tab t,
    Main1.sel_table sel = Some tab /\ Main1.sel_text sel = Some t /\
    Main1.in_watch (upper tab) = true /\
    x = (Main1.sel_span sel,
         Main1.build_replacement_stmt t tab (Main1.sel_target_type sel)
                                      (Main1.sel_target_name sel)) /\
    snd x <> t.
Proof.
  unfold Main1.repls_of, Main1.step.
  destruct (Main1.sel_table sel) as [tab|]; [|intros []].
  destruct (Main1.in_watch (upper tab)) eqn:W; [|intros []].
  destruct (Main1.sel_text sel) as [t|]; [|intros []].
  destruct (text_eqb _ t) eqn:E; simpl; [intros []|].
  intros [<- | []]. exists tab, t. repeat split; auto.
  simpl. now apply text_eqb_neq.
Qed.

(** The record that goes with a replacement. *)
Lemma repls_of_info sel x :
  In x (Main1.repls_of sel) ->
  exists info,
    In info (Main1.infos_of sel) /\
    Main1.start_char_in_unit info = fst (fst x) /\
    Main1.end_char_in_unit info = snd (fst x) /\
    Main1.suggested_statement info = Some (snd x).
Proof.
  unfold Main1.repls_of, Main1.infos_of, Main1.step.
  destruct (Main1.sel_table sel) as [tab|]; [|intros []].
  destruct (Main1.in_watch (upper tab)) eqn:W; [|intros []].
  destruct (Main1.sel_text sel) as [t|]; [|intros []].
  destruct (text_eqb _ t) eqn:E; simpl; [intros []|].
  intros [<- | []]. eexists. split; [left; reflexivity|]. simpl. auto.
Qed.

(** The replacements of a text come from left to right, one after the
    end of the other, inside the text. *)
Lemma repls_sorted txt :
  StronglySorted
    (fun x y => (Main1.stop x <= Main1.start y)%Z /\
                (Main1.start x < Main1.start y)%Z)
    (flat_map Main1.repls_of (Main1.find_selects txt)).
Proof.
  unfold Main1.find_selects.
  rewrite flat_map_concat_map, map_map, <- flat_map_concat_map.
  apply (StronglySorted_flat_map _ before).
  - apply finditer_sorted.
  - intros; apply repls_of_length.
  - intros m m' x x' _ _ [B1 B2] Hx Hx'.
    apply repls_of_In in Hx as (tab & t & _ & _ & _ & -> & _).
    apply repls_of_In in Hx' as (tab' & t' & _ & _ & _ & -> & _).
    unfold Main1.start, Main1.stop, Main1.select_of, span0. simpl. lia.
Qed.

Lemma repls_in_text txt x :
  In x (flat_map Main1.repls_of (Main1.find_selects txt)) ->
  Main1.in_text txt x.
Proof.
  intros H. apply in_flat_map in H as (sel & Hs & Hx).
  apply find_selects_In in Hs as (m & Hm & ->).
  apply repls_of_In in Hx as (tab & t & _ & _ & _ & -> & _).
  apply SELECT_RE_match in Hm as (_ & j & E & L & B & _).
  unfold Main1.in_text, Main1.start, Main1.stop, Main1.select_of, span0.
  simpl. lia.
Qed.

End Replacements.

(* ===================================================================== *)
(** * Further properties: the filter in a normalised statement *)
(* ===================================================================== *)

(** Case analysis on the comparisons of a goal. *)
Ltac bounds :=
  repeat (match goal with
          | |- context [N.leb ?a ?b] => destruct (N.leb_spec a b)
          | |- context [N.eqb ?a ?b] => destruct (N.eqb_spec a b)
          | _ : context [N.leb ?a ?b] |- _ => destruct (N.leb_spec a b)
          | _ : context [N.eqb ?a ?b] |- _ => destruct (N.eqb_spec a b)
          end; simpl in *; try (exfalso; lia));
  intros; try reflexivity; try discriminate; try lia.

Lemma ascii_lower_nonspace c p :
  ascii_lower c = ascii_lower p -> ascii_isspace p = false ->
  ascii_isspace c = false.
Proof. unfold ascii_lower, ascii_isspace, between. bounds. Qed.

Lemma run_len_app_all (p : char -> bool) ws rest :
  Forall (fun c => p c = true) ws -> length ws <= run_len p (ws ++ rest).
Proof.
  induction 1 as [|c ws Hc _ IH]; simpl; [lia|]. rewrite Hc. lia.
Qed.

Section FilterKept.
Context {U : Unicode}.

Lemma ichr_class_ascii_inv p c :
  (p < 128)%N -> (c < 128)%N -> ichr_class p c = true ->
  ascii_lower c = ascii_lower p.
Proof.
  intros Hp Hc. unfold ichr_class, cased.
  destruct (N.leb_spec 128 p); [lia|]. rewrite orb_false_r.
  destruct (ascii_isalpha p).
  - rewrite casematch_ascii by assumption. intros E.
    apply N.eqb_eq in E. now symmetry.
  - intros E. apply N.eqb_eq in E. now subst.
Qed.

(** ASCII text that matches a literal without whitespace holds no
    whitespace. *)
Lemma literal_nonspace pat : forall lit,
  Forall (fun p => (p < 128)%N /\ ascii_isspace p = false) pat ->
  ascii_text lit ->
  Forall2 (fun p x => ichr_class p x = true) pat lit ->
  Forall (fun c => isspace c = false) lit.
Proof.
  induction pat as [|p pat IH]; intros lit Fp A F;
    inversion F as [|? x ? rest Hc Hrest]; subst; constructor.
  - inversion Fp as [|? ? [Lp Sp] _]; inversion A as [|? ? Lx _]; subst.
    rewrite isspace_ascii by assumption.
    apply (ascii_lower_nonspace x p); [|exact Sp].
    now apply ichr_class_ascii_inv.
  - inversion Fp; inversion A; subst. now apply IH.
Qed.

(** The parts of a text at a match of [DRAFT_RE]. *)
Lemma DRAFT_RE_parts T s q j c :
  Matches s (Main1.DRAFT_RE T) q [] j c ->
  exists lit ws post,
    s = firstn q s ++ lit ++ ws ++ 61%N :: post /\
    Forall2 (fun p x => ichr_class p x = true) (T ++ str "-DRAFT") lit /\
    Forall (fun x => isspace x = true) ws.
Proof.
  unfold Main1.DRAFT_RE. cbn [seqs]. intros M.
  apply Matches_Seq_inv in M as (j1 & c1 & M1 & M).
  apply Matches_Seq_inv in M as (j2 & c2 & M2 & M).
  apply Matches_Seq_inv in M as (j3 & c3 & M3 & _).
  apply Matches_ilit_inv in M1 as (-> & -> & F).
  apply Matches_Rep_inv in M2 as (-> & n & -> & _ & R).
  apply Matches_ilit_inv in M3 as (_ & _ & F3).
  set (pat := T ++ str "-DRAFT") in *. set (j1 := q + length pat) in *.
  destruct (skipn (j1 + n) s) as [|x post] eqn:E;
    [inversion F3|].
  simpl in F3. inversion F3 as [|? ? ? ? Hx _]; subst.
  change (ichr_class 61%N x) with (N.eqb 61%N x) in Hx.
  apply N.eqb_eq in Hx. subst x.
  unfold run in R. destruct (run_len_firstn isspace _ _ R) as [_ Fw].
  exists (firstn (length pat) (skipn q s)), (firstn n (skipn j1 s)), post.
  repeat split; auto.
  etransitivity; [symmetry; apply (firstn_skipn q s)|]. f_equal.
  etransitivity; [symmetry; apply (firstn_skipn (length pat) (skipn q s))|].
  f_equal. rewrite skipn_skipn, (Nat.add_comm (length pat) q). fold j1.
  etransitivity; [symmetry; apply (firstn_skipn n (skipn j1 s))|].
  f_equal. rewrite skipn_skipn, (Nat.add_comm n j1). exact E.
Qed.

(** A text that holds the table, [-DRAFT], whitespace or none and the
    equals sign has a match of [DRAFT_RE]. *)
Lemma DRAFT_RE_found_parts T pre lit ws post :
  Forall2 (fun p x => ichr_class p x = true) (T ++ str "-DRAFT") lit ->
  Forall (fun x => isspace x = true) ws ->
  search (Main1.DRAFT_RE T) (pre ++ lit ++ ws ++ 61%N :: post) 0 <> None.
Proof.
  intros F W. set (pat := T ++ str "-DRAFT") in *.
  set (txt := pre ++ lit ++ ws ++ 61%N :: post).
  assert (La : length lit = length pat)
    by (symmetry; eapply Forall2_length; eauto).
  assert (S1 : skipn (length pre) txt = lit ++ ws ++ 61%N :: post).
  { unfold txt. now rewrite skipn_pre. }
  assert (S2 : skipn (length pre + length pat) txt = ws ++ 61%N :: post).
  { rewrite Nat.add_comm, <- skipn_skipn, S1, <- La. apply skipn_pre. }
  assert (N3 : nth_error txt (length pre + length pat + length ws)
               = Some 61%N).
  { rewrite <- nth_error_skipn, S2. apply nth_error_pre. }
  assert (M : exists j, Matches txt (Main1.DRAFT_RE T) (length pre) [] j []).
  { eexists. unfold Main1.DRAFT_RE. simpl seqs. fold pat.
    econstructor.
    { apply Matches_ilit. rewrite S1, <- La, firstn_pre. exact F. }
    econstructor.
    { apply (M_Rep txt true 0 isspace (length pre + length pat) []
                   (length ws)); [lia|].
      unfold run. rewrite S2. now apply run_len_app_all. }
    econstructor.
    { unfold ilit. simpl. econstructor; [exact N3 | reflexivity]. }
    econstructor.
    { apply (M_Rep txt true 0 isspace _ [] 0); lia. }
    econstructor; [apply M_AltR; constructor|].
    econstructor; [apply M_AltR; constructor|].
    apply M_AltR. constructor. }
  destruct M as [j M].
  apply (search_complete _ txt 0 (length pre) j []); [|exact M].
  split; [lia|]. unfold txt. rewrite length_app. lia.
Qed.

Lemma collapse_app_state a : forall b,
  exists a' b', forall x,
    Main1.collapse b (a ++ x) = a' ++ Main1.collapse b' x.
Proof.
  induction a as [|c a IH]; intros b.
  - exists [], b. reflexivity.
  - simpl. destruct (isspace c).
    + destruct (IH true) as (a' & b' & H). destruct b.
      * exists a', b'. exact H.
      * exists (32%N :: a'), b'. intros x. simpl. now rewrite H.
    + destruct (IH false) as (a' & b' & H).
      exists (c :: a'), b'. intros x. simpl. now rewrite H.
Qed.

Lemma collapse_nonspace_any c l b x :
  Forall (fun c => isspace c = false) (c :: l) ->
  Main1.collapse b ((c :: l) ++ x) = (c :: l) ++ Main1.collapse false x.
Proof.
  intros F. inversion F as [|? ? Hc Fl]; subst. simpl. rewrite Hc.
  f_equal. now apply collapse_nospace.
Qed.

Lemma collapse_spaces_then ws :
  Forall (fun x => isspace x = true) ws ->
  forall b, exists ws',
    Forall (fun x => isspace x = true) ws' /\
    forall c x, isspace c = false ->
      Main1.collapse b (ws ++ c :: x) = ws' ++ c :: Main1.collapse false x.
Proof.
  induction 1 as [|w ws Hw _ IH]; intros b.
  - exists []. split; [constructor|]. intros c x Hc. simpl. now rewrite Hc.
  - destruct (IH true) as (ws' & F' & H). destruct b.
    + exists ws'. split; [exact F'|]. intros c x Hc. simpl. rewrite Hw.
      now apply H.
    + exists (32%N :: ws'). split.
      * constructor; [now rewrite isspace_ascii | exact F'].
      * intros c x Hc. simpl. rewrite Hw. f_equal. now apply H.
Qed.

Lemma lstrip_app_cons a c r :
  isspace c = false -> lstrip (a ++ c :: r) = lstrip a ++ c :: r.
Proof.
  intros C. induction a as [|x a IH]; simpl; [now rewrite C|].
  destruct (isspace x); [exact IH | reflexivity].
Qed.

Lemma rstrip_app_cons x c b :
  isspace c = false -> rstrip (x ++ c :: b) = x ++ c :: rstrip b.
Proof.
  intros C. unfold rstrip. rewrite rev_app_distr. simpl rev.
  rewrite <- app_assoc. simpl app.
  rewrite lstrip_app_cons by assumption.
  rewrite rev_app_distr. simpl rev. rewrite rev_involutive.
  now rewrite <- app_assoc.
Qed.

(** Normalising the whitespace of an ASCII statement keeps the filter the
    pattern finds in it. *)
Lemma DRAFT_RE_normalized T s :
  T = str "VBRK" \/ T = str "VBRP" -> ascii_text s ->
  search (Main1.DRAFT_RE T) s 0 <> None ->
  search (Main1.DRAFT_RE T) (strip (Main1.collapse false s)) 0 <> None.
Proof.
  intros HT A Hs.
  destruct (search (Main1.DRAFT_RE T) s 0) as [m|] eqn:E; [|congruence].
  clear Hs. apply search_Some in E as (_ & M & _).
  apply match_at_spec in M as [_ M].
  apply DRAFT_RE_parts in M as (lit & ws & post & Es & F & W).
  set (pre := firstn (m_start m) s) in *. clearbody pre.
  assert (Nl : Forall (fun c => isspace c = false) lit).
  { apply (literal_nonspace (T ++ str "-DRAFT")); [| |exact F].
    - destruct HT as [-> | ->]; repeat constructor.
    - rewrite Es in A. apply Forall_app in A as [_ A].
      now apply Forall_app in A as [A _]. }
  destruct lit as [|c0 lit].
  { inversion F as [E0|]. destruct HT as [-> | ->]; discriminate E0. }
  assert (C61 : isspace 61%N = false) by now rewrite isspace_ascii.
  destruct (collapse_app_state pre false) as (pre' & b' & Hp).
  destruct (collapse_spaces_then ws W false) as (ws' & W' & Hw).
  assert (Ec : Main1.collapse false s
               = pre' ++ (c0 :: lit) ++ ws' ++ 61%N :: Main1.collapse false post).
  { rewrite Es, Hp, collapse_nonspace_any by assumption.
    now rewrite Hw by assumption. }
  inversion Nl as [|? ? Hc0 _]; subst.
  unfold strip. rewrite Ec. simpl app.
  rewrite lstrip_app_cons by assumption.
  replace (lstrip pre' ++ c0 :: lit ++ ws' ++ 61%N :: Main1.collapse false post)
    with ((lstrip pre' ++ c0 :: lit ++ ws') ++ 61%N
          :: Main1.collapse false post)
    by (rewrite <- app_assoc; simpl; now rewrite <- app_assoc).
  rewrite rstrip_app_cons by assumption.
  rewrite <- app_assoc. simpl app. rewrite <- app_assoc.
  apply (DRAFT_RE_found_parts T (lstrip pre') (c0 :: lit) ws'); assumption.
Qed.

Lemma ensure_draft_filter_ascii t tab :
  Main1.in_watch (upper tab) = true -> ascii_text t ->
  ascii_text (Main1.ensure_draft_filter t tab).
Proof.
  intros W A. pose proof (in_watch_cases _ W) as HT.
  assert (AT : ascii_text (upper tab)).
  { destruct HT as [-> | ->]; repeat constructor. }
  unfold Main1.ensure_draft_filter. rewrite W. simpl negb. cbv iota.
  destruct (search (Main1.DRAFT_RE (upper tab)) t 0); [exact A|].
  destruct (search Main1.WHERE_RE t 0) as [w|];
    [|destruct (search Main1.INTO_RE t 0) as [m|]];
    rewrite ?slice_to_nat, ?slice_from_nat;
    repeat apply ascii_app;
    auto using ascii_firstn, ascii_skipn; try (repeat constructor).
  destruct (rstrip_char_split 46%N t) as (d & E & _).
  rewrite E in A. now apply Forall_app in A as [A _].
Qed.

(** [ensure_draft_filter] leaves a statement in which the pattern finds
    the filter. *)
Lemma ensure_draft_filter_found sel table :
  Main1.in_watch (upper table) = true ->
  search (Main1.DRAFT_RE (upper table))
         (Main1.ensure_draft_filter sel table) 0 <> None.
Proof.
  intros W. pose proof (in_watch_cases _ W) as T.
  unfold Main1.ensure_draft_filter. rewrite W. simpl negb. cbv iota.
  destruct (search (Main1.DRAFT_RE (upper table)) sel 0) eqn:D;
    [rewrite D; discriminate|].
  apply DRAFT_RE_found; [exact T|].
  destruct (search Main1.WHERE_RE sel 0) as [w|];
    [|destruct (search Main1.INTO_RE sel 0) as [m|]].
  - apply (contains_ci_inside _ (str " ") (upper table) (str "-DRAFT =")
                              (str " SPACE AND")).
  - apply (contains_ci_inside _ (str " WHERE ") (upper table)
                              (str "-DRAFT =") (str " SPACE ")).
  - apply (contains_ci_inside_end _ (str " WHERE ") (upper table)
                                  (str "-DRAFT =") (str " SPACE.")).
Qed.

(** Normalising twice is normalising once. *)
Lemma normalize_idem s :
  strip (Main1.collapse false (strip (Main1.collapse false s)))
  = strip (Main1.collapse false s).
Proof.
  rewrite collapse_fixed; auto using strip_idem, normalized_no_run,
    normalized_only_spaces.
  discriminate.
Qed.

Lemma build_replacement_stmt_found t tab ty nm :
  Main1.in_watch (upper tab) = true -> ascii_text t ->
  search (Main1.DRAFT_RE (upper tab))
         (Main1.build_replacement_stmt t tab ty nm) 0 <> None.
Proof.
  intros W A. unfold Main1.build_replacement_stmt. rewrite sub_spaces.
  apply DRAFT_RE_normalized.
  - now apply in_watch_cases.
  - now apply ensure_draft_filter_ascii.
  - now apply ensure_draft_filter_found.
Qed.

End FilterKept.

(* ===================================================================== *)
(** * Further properties: letter case *)
(* ===================================================================== *)

Lemma ascii_upper_lt c : (c < 128)%N -> (ascii_upper c < 128)%N.
Proof. unfold ascii_upper, between. bounds. Qed.

Lemma ascii_upper_idem c : ascii_upper (ascii_upper c) = ascii_upper c.
Proof. unfold ascii_upper, between. bounds. Qed.

Lemma ascii_lower_upper c : ascii_lower (ascii_upper c) = ascii_lower c.
Proof. unfold ascii_lower, ascii_upper, between. bounds. Qed.

Lemma ascii_isspace_upper c : ascii_isspace (ascii_upper c) = ascii_isspace c.
Proof. unfold ascii_isspace, ascii_upper, between. bounds. Qed.

Lemma ascii_isword_upper c : ascii_isword (ascii_upper c) = ascii_isword c.
Proof.
  unfold ascii_isword, ascii_isalpha, ascii_upper, between. bounds.
Qed.

(** A character that is no letter is told from every small letter and
    from its capital alike. *)
Lemma eqb_upper p c :
  ascii_isalpha p = false -> N.eqb p (ascii_upper c) = N.eqb p c.
Proof. unfold ascii_isalpha, ascii_upper, between. bounds. Qed.

Lemma ascii_map_upper s : ascii_text s -> ascii_text (map ascii_upper s).
Proof.
  induction 1; simpl; constructor; auto using ascii_upper_lt.
Qed.

Lemma map_upper_idem s :
  map ascii_upper (map ascii_upper s) = map ascii_upper s.
Proof. rewrite map_map. apply map_ext. intros; apply ascii_upper_idem. Qed.

Lemma mapM_option_map {A B C : Type} (f : A -> option B) (f' : A -> option C)
      (g : B -> C) l :
  (forall a, f' a = option_map g (f a)) ->
  mapM f' l = option_map (map g) (mapM f l).
Proof.
  intros H. induction l as [|a l IH]; simpl; [reflexivity|].
  rewrite H, IH. destruct (f a); simpl; [|reflexivity].
  now destruct (mapM f l).
Qed.

Section Caseless.
Context {U : Unicode}.

(** [s.upper()] of ASCII text. *)
Lemma upper_ascii s : ascii_text s -> upper s = map ascii_upper s.
Proof.
  induction 1 as [|c s Hc A IH]; [reflexivity|].
  unfold upper in *. simpl. now rewrite IH, toupper_ascii.
Qed.

Lemma isspace_upper c : (c < 128)%N -> isspace (ascii_upper c) = isspace c.
Proof.
  intros H. rewrite !isspace_ascii by auto using ascii_upper_lt.
  apply ascii_isspace_upper.
Qed.

Lemma isword_upper c : (c < 128)%N -> isword (ascii_upper c) = isword c.
Proof.
  intros H. rewrite !isword_ascii by auto using ascii_upper_lt.
  apply ascii_isword_upper.
Qed.

Lemma ichr_class_upper p c :
  literal_ok p -> (c < 128)%N ->
  ichr_class p (ascii_upper c) = ichr_class p c.
Proof.
  intros Hp Hc. pose proof (ascii_upper_lt c Hc) as Hu.
  unfold ichr_class, cased. destruct Hp as [Hp | Hp].
  - destruct (N.leb_spec 128 p); [lia|]. rewrite orb_false_r.
    destruct (ascii_isalpha p) eqn:A.
    + rewrite !casematch_ascii by assumption.
      now rewrite ascii_lower_upper.
    + now apply eqb_upper.
  - destruct (N.leb_spec 128 p); [|lia]. rewrite orb_true_r.
    now rewrite !casematch_greek.
Qed.

Lemma caseless_seqs l : Forall caseless l -> caseless (seqs l).
Proof.
  induction 1 as [|a l G F IH]; simpl; [constructor|].
  destruct F; [assumption | now constructor].
Qed.

Lemma caseless_ilit s :
  forallb literal_okb s = true -> caseless (ilit s).
Proof.
  intros H. apply literal_okb_spec in H. unfold ilit. apply caseless_seqs.
  induction H as [|p s Hp F IH]; simpl; constructor; [|assumption].
  constructor. intros c Hc. now apply ichr_class_upper.
Qed.

Lemma caseless_spaces g lo : caseless (Rep g lo isspace).
Proof. constructor. apply isspace_upper. Qed.

Lemma caseless_quote : caseless quote.
Proof. constructor. intros c _. unfold ascii_upper, between. bounds. Qed.

Lemma caseless_period : caseless period.
Proof. constructor. intros c _. now apply eqb_upper. Qed.

Ltac caseless_patterns :=
  repeat first
    [ apply caseless_spaces
    | apply caseless_quote
    | apply caseless_period
    | apply caseless_ilit; reflexivity
    | apply CL_Group | apply CL_Alt | apply CL_Seq | apply CL_Eps
    | apply CL_WordB ].

Lemma MB_TXN_RE_caseless : caseless Main.MB_TXN_RE.
Proof.
  unfold Main.MB_TXN_RE. cbn [seqs]. unfold Opt. caseless_patterns.
Qed.

Lemma eqb_upper_const (k c : N) :
  ascii_isalpha k = false -> (ascii_upper c =? k)%N = (c =? k)%N.
Proof. intros H. rewrite !(N.eqb_sym _ k). now apply eqb_upper. Qed.

Lemma field_char_upper c :
  (c < 128)%N -> Main1.field_char (ascii_upper c) = Main1.field_char c.
Proof.
  intros H. unfold Main1.field_char.
  rewrite isword_upper, isspace_upper by assumption.
  now rewrite !eqb_upper_const by reflexivity.
Qed.

Lemma dest_char_upper c :
  (c < 128)%N -> Main1.dest_char (ascii_upper c) = Main1.dest_char c.
Proof.
  intros H. unfold Main1.dest_char. rewrite isword_upper by assumption.
  now rewrite !eqb_upper_const by reflexivity.
Qed.

Lemma SELECT_RE_caseless : caseless Main1.SELECT_RE.
Proof.
  unfold Main1.SELECT_RE. cbn [seqs]. unfold Opt.
  caseless_patterns; constructor;
    auto using field_char_upper, dest_char_upper, isword_upper.
Qed.

Lemma run_len_upper p s :
  ascii_text s -> (forall c, (c < 128)%N -> p (ascii_upper c) = p c) ->
  run_len p (map ascii_upper s) = run_len p s.
Proof.
  intros A H. induction A as [|c s Hc A IH]; simpl; [reflexivity|].
  rewrite (H c Hc). now rewrite IH.
Qed.

Lemma word_at_upper txt i :
  ascii_text txt -> word_at (map ascii_upper txt) i = word_at txt i.
Proof.
  intros A. unfold word_at. rewrite nth_error_map.
  destruct (nth_error txt i) as [c|] eqn:N; [|reflexivity].
  simpl. apply isword_upper. eapply ascii_nth; eauto.
Qed.

Lemma boundary_upper txt i :
  ascii_text txt -> boundary (map ascii_upper txt) i = boundary txt i.
Proof.
  intros A. unfold boundary. rewrite (word_at_upper txt i A).
  destruct i as [|j]; [reflexivity|]. now rewrite (word_at_upper txt j A).
Qed.

(** The matcher does not tell ASCII text from its upper case, for a
    pattern that does not. *)
Lemma bt_caseless r txt :
  caseless r -> ascii_text txt ->
  forall i c k1 k2,
    (forall j c', k1 j c' = k2 j c') ->
    bt r (map ascii_upper txt) i c k1 = bt r txt i c k2.
Proof.
  intros G A. induction G as [|p H|a b _ IHa _ IHb|a b _ IHa _ IHb
                             |g lo p H|name a _ IHa|];
    intros i c k1 k2 K; simpl.
  - apply K.
  - rewrite nth_error_map.
    destruct (nth_error txt i) as [x|] eqn:N; [|reflexivity]. simpl.
    rewrite (H x (ascii_nth _ _ _ A N)). destruct (p x); [apply K|reflexivity].
  - apply IHa. intros j c'. now apply IHb.
  - rewrite (IHa i c k1 k2 K). destruct (bt a txt i c k2); [reflexivity|].
    now apply IHb.
  - assert (R : run p (map ascii_upper txt) i = run p txt i).
    { unfold run. rewrite skipn_map.
      apply run_len_upper; [now apply ascii_skipn | exact H]. }
    rewrite R. destruct g.
    + apply greedy_try_ext. intros j. apply K.
    + destruct (run p txt i <? lo); [reflexivity|].
      apply lazy_try_ext. intros j. apply K.
  - apply IHa. intros j c'. apply K.
  - rewrite (boundary_upper txt i A).
    destruct (boundary txt i); [apply K | reflexivity].
Qed.

Lemma match_at_caseless r txt i :
  caseless r -> ascii_text txt ->
  match_at r (map ascii_upper txt) i = match_at r txt i.
Proof.
  intros G A. unfold match_at.
  now rewrite (bt_caseless r txt G A i [] accept accept).
Qed.

Lemma search_caseless r txt pos :
  caseless r -> ascii_text txt ->
  search r (map ascii_upper txt) pos = search r txt pos.
Proof.
  intros G A. unfold search. rewrite length_map.
  destruct (length txt <? pos); [reflexivity|].
  generalize (length txt - pos) as fuel. intros fuel. revert pos.
  induction fuel as [|f IH]; intros pos; simpl;
    rewrite (match_at_caseless r txt pos G A); [reflexivity|].
  now rewrite IH.
Qed.

Lemma finditer_caseless r txt :
  caseless r -> ascii_text txt ->
  finditer r (map ascii_upper txt) = finditer r txt.
Proof.
  intros G A. unfold finditer. rewrite length_map. generalize 0 as pos.
  generalize (S (length txt)) as fuel.
  induction fuel as [|f IH]; intros pos; simpl; [reflexivity|].
  rewrite (search_caseless r txt pos G A).
  destruct (search r txt pos); [|reflexivity]. now rewrite IH.
Qed.

Lemma group_upper txt m name :
  group (map ascii_upper txt) m name
  = option_map (map ascii_upper) (group txt m name).
Proof.
  unfold group. destruct (lookup name (m_caps m)) as [[s e]|]; [|reflexivity].
  simpl. now rewrite skipn_map, firstn_map.
Qed.

Lemma group_ascii txt m name x :
  ascii_text txt -> group txt m name = Some x -> ascii_text x.
Proof.
  intros A. unfold group.
  destruct (lookup name (m_caps m)) as [[s e]|]; [|discriminate].
  intros [= <-]. now apply ascii_firstn, ascii_skipn.
Qed.

Lemma option_map_upper (o : option text) :
  (forall x, o = Some x -> ascii_text x) ->
  option_map (map ascii_upper) o = option_map upper o.
Proof.
  destruct o as [x|]; [|reflexivity]. intros H. simpl.
  now rewrite upper_ascii by now apply H.
Qed.

Lemma truthy_upper (o : option text) :
  truthy (option_map (map ascii_upper) o) = truthy o.
Proof. now destruct o as [[|c x]|]. Qed.

End Caseless.

(* ===================================================================== *)
(** * Further properties of the two files *)
(* ===================================================================== *)

(** X1.  Code too short to hold a statement gives an empty list: for
    units whose code is missing, empty or shorter than ten characters,
    [remediate_mb_txns] does what the dump of each unit does, with an
    empty [mb_txn_usage] put after the fields, so that it raises where
    the dump raises and nowhere else; for units that go through the dump
    it returns these records.  The same holds of [remediate_array], with
    [selects], for code shorter than twenty-two characters. *)
Theorem X1_short_code_no_findings {U : Unicode} :
  (forall units,
     (forall u, In u units -> length (Main.code_or_empty u) < 10) ->
     Main.remediate_mb_txns units
     = mapM (fun u =>
               option_map
                 (fun obj => JObj (obj ++ [("mb_txn_usage"%string, JList [])]))
                 (Main.model_dump u))
            units /\
     ((forall u, In u units -> Main.dumpable u = true) ->
      Main.remediate_mb_txns units
      = Some (map (fun u => JObj (Main.unit_fields u
                                  ++ [("mb_txn_usage"%string, JList [])]))
                  units))) /\
  (forall units,
     (forall u, In u units -> length (Main1.code_or_empty u) < 22) ->
     Main1.remediate_array units
     = mapM (fun u =>
               option_map
                 (fun obj => JObj (obj ++ [("selects"%string, JList [])]))
                 (Main1.model_dump u))
            units /\
     ((forall u, In u units -> Main1.dumpable u = true) ->
      Main1.remediate_array units
      = Some (map (fun u => JObj (Main1.unit_fields u
                                  ++ [("selects"%string, JList [])]))
                  units))).
Proof.
  split; intros units H.
  - assert (E : forall u, In u units ->
              Main.remediate_unit u
              = option_map
                  (fun obj =>
                     JObj (obj ++ [("mb_txn_usage"%string, JList [])]))
                  (Main.model_dump u)).
    { intros u Hu. unfold Main.remediate_unit, Main.find_mb_txn_usage.
      rewrite finditer_short by exact (H u Hu). simpl mapM. cbv iota beta.
      unfold Main.model_dump. now destruct (Main.dumpable u). }
    split; [now apply mapM_ext_in|].
    intros D. apply mapM_map. intros u Hu.
    rewrite (E u Hu). unfold Main.model_dump. now rewrite (D u Hu).
  - assert (E : forall u, In u units ->
              Main1.remediate_unit u
              = option_map
                  (fun obj => JObj (obj ++ [("selects"%string, JList [])]))
                  (Main1.model_dump u)).
    { intros u Hu. unfold Main1.remediate_unit, Main1.find_selects.
      rewrite finditer_short by exact (H u Hu). simpl.
      unfold Main1.model_dump. now destruct (Main1.dumpable u). }
    split; [now apply mapM_ext_in|].
    intros D. apply mapM_map. intros u Hu.
    rewrite (E u Hu). unfold Main1.model_dump. now rewrite (D u Hu).
Qed.

(** X2.  The scan misses no statement: an offset at which the pattern of
    either file matches lies inside the span of a reported entry, which
    is the entry that starts there or an earlier one that reaches over
    it. *)
Theorem X2_no_occurrence_missed {U : Unicode} (txt : text) (q : nat) :
  (forall l,
     Main.find_mb_txn_usage txt = Some l ->
     match_at Main.MB_TXN_RE txt q <> None ->
     exists o, In o l /\
               (fst (Main.span o) <= Z.of_nat q < snd (Main.span o))%Z) /\
  (match_at Main1.SELECT_RE txt q <> None ->
   exists sel, In sel (Main1.find_selects txt) /\
               (fst (Main1.sel_span sel) <= Z.of_nat q
                < snd (Main1.sel_span sel))%Z).
Proof.
  split.
  - intros l H M.
    destruct (match_at Main.MB_TXN_RE txt q) as [m0|] eqn:E; [|congruence].
    assert (Q : q <= length txt).
    { refine (match_at_start_in_text _ _ _ _ _ E). apply (Nat.lt_0_succ 9). }
    rewrite <- E in M.
    destruct (finditer_covers _ _ _ (MB_TXN_RE_nonempty txt) Q M) as (m & I & C).
    apply mapM_Some in H.
    destruct (Forall2_In_l _ _ _ _ H I) as (o & Ho & Hu).
    apply finditer_In in I as [_ A].
    destruct (usage_of_spec _ _ _ A Hu) as (S & _).
    exists o. split; [exact Ho|]. rewrite S. simpl. lia.
  - intros M.
    destruct (match_at Main1.SELECT_RE txt q) as [m0|] eqn:E; [|congruence].
    assert (Q : q <= length txt).
    { refine (match_at_start_in_text _ _ _ _ _ E). apply (Nat.lt_0_succ 21). }
    rewrite <- E in M.
    destruct (finditer_covers _ _ _ (SELECT_RE_nonempty txt) Q M) as (m & I & C).
    exists (Main1.select_of txt m). split.
    + unfold Main1.find_selects. now apply in_map.
    + unfold Main1.select_of, span0. simpl. lia.
Qed.

(** X3.  What an entry of [find_mb_txn_usage] holds: its [full] text is
    the verb [stmt], a gap that is not empty (the whitespace and the
    quote), the code [txn] and what is left of the match; [txn] matches
    one of the seventeen listed codes character for character, in some
    casing, and when it is ASCII text its upper case is the listed
    code. *)
Theorem X3_txn_is_listed {U : Unicode} (txt : text)
    (l : list Main.usage) (o : Main.usage) :
  Main.find_mb_txn_usage txt = Some l -> In o l ->
  exists code t gap rest,
    In code Main.OBSOLETE_MB_TXNS /\
    Main.txn o = Some t /\
    Main.full o = Some (Main.stmt o ++ gap ++ t ++ rest) /\
    gap <> [] /\
    Forall2 (fun p x => ichr_class p x = true) code t /\
    (ascii_text t -> upper t = code).
Proof.
  intros H Ho.
  destruct (find_mb_txn_usage_In _ _ _ H Ho) as (m & B & Hm & Hu).
  pose proof (match_at_in_text _ _ _ _ Hm B) as Le.
  destruct (MB_TXN_RE_anatomy _ _ _ Hm) as (j1 & s & code & C & I & L1 & L2 & L3 & F).
  set (i := m_start m) in *. set (e := m_end m) in *.
  unfold Main.usage_of, group in Hu. rewrite C in Hu. cbn [lookup] in Hu.
  simpl in Hu. injection Hu as <-. cbn [Main.txn Main.full Main.stmt].
  replace (s + length code - s) with (length code) by lia.
  exists code, (firstn (length code) (skipn s txt)),
    (firstn (s - j1) (skipn j1 txt)),
    (firstn (e - (s + length code)) (skipn (s + length code) txt)).
  repeat split; auto.
  - f_equal.
    replace (length code) with (s + length code - s) at 1 by lia.
    rewrite (slices_app txt s (s + length code) e) by lia.
    rewrite (slices_app txt j1 s e) by lia.
    now rewrite (slices_app txt i j1 e) by lia.
  - intros Z. apply (f_equal (@length _)) in Z.
    rewrite length_firstn, length_skipn in Z. simpl in Z. lia.
  - intros A. set (t := firstn (length code) (skipn s txt)) in *.
    clearbody t. clear - I F A. simpl in I.
    repeat (destruct I as [<- | I]); try destruct I;
      try (apply upper_of_code;
           [solve [repeat constructor] | exact A | exact F]).
    exfalso. inversion F as [|? x ? ? Hc _]; subst.
    inversion A as [|? ? Hx _]; subst.
    change (ichr_class 924%N x) with (casematch 924%N x) in Hc.
    rewrite casematch_greek in Hc by lia. discriminate.
Qed.

(** X4.  What an entry of [find_selects] holds: its table is a run of one
    or more word characters, its target name a run of one or more
    characters of the destination class, and its target type is [itab]
    or [wa]. *)
Theorem X4_select_captures {U : Unicode} (txt : text) (sel : Main1.select) :
  In sel (Main1.find_selects txt) ->
  exists tab nm,
    Main1.sel_table sel = Some tab /\ tab <> [] /\
    Forall (fun c => isword c = true) tab /\
    Main1.sel_target_name sel = Some nm /\ nm <> [] /\
    Forall (fun c => Main1.dest_char c = true) nm /\
    (Main1.sel_target_type sel = str "itab" \/
     Main1.sel_target_type sel = str "wa").
Proof.
  intros H. apply find_selects_In in H as (m & Hm & ->).
  destruct (SELECT_RE_anatomy _ _ _ Hm)
    as (f0 & f1 & t0 & t1 & t2 & d0 & d1 & e & itab & E & C & L1 & L2 & L3
        & L4 & L5 & L6 & L7 & Ft & Nt & Fd & Nd & Pe & Np).
  set (tab := firstn (t1 - t0) (skipn t0 txt)) in *.
  set (nm := firstn (d1 - d0) (skipn d0 txt)) in *.
  assert (Tn : tab <> []).
  { intros Z. rewrite Z in Nt. simpl in Nt. lia. }
  assert (Nn : nm <> []).
  { intros Z. rewrite Z in Nd. simpl in Nd. lia. }
  exists tab, nm.
  unfold Main1.select_of, group. rewrite C.
  destruct itab; cbn [lookup]; simpl String.eqb; cbv iota;
    fold tab; fold nm;
    cbn [Main1.sel_table Main1.sel_target_name Main1.sel_target_type];
    repeat split; auto.
  - clearbody nm. destruct nm; [congruence | reflexivity].
  - left. clearbody nm. destruct nm; [congruence | reflexivity].
Qed.

(** X5.  A SELECT statement ends at the first period after its
    destination: the text of the span is the matched text and a period,
    and the matched text ends with the target name followed by a tail
    that holds no period. *)
Theorem X5_select_ends_at_first_period {U : Unicode} (txt : text)
    (sel : Main1.select) :
  In sel (Main1.find_selects txt) ->
  exists pre nm tl,
    Main1.sel_text sel = Some (pre ++ nm ++ tl) /\
    Main1.sel_target_name sel = Some nm /\
    ~ In 46%N tl /\
    slice txt (fst (Main1.sel_span sel)) (snd (Main1.sel_span sel))
      = pre ++ nm ++ tl ++ [46%N].
Proof.
  intros H. destruct (find_selects_span_text _ _ H) as (t & Ht & Hs).
  apply find_selects_In in H as (m & Hm & ->).
  destruct (SELECT_RE_anatomy _ _ _ Hm)
    as (f0 & f1 & t0 & t1 & t2 & d0 & d1 & e & itab & E & C & L1 & L2 & L3
        & L4 & L5 & L6 & L7 & Ft & Nt & Fd & Nd & Pe & Np).
  set (i := m_start m) in *.
  exists (firstn (d0 - i) (skipn i txt)), (firstn (d1 - d0) (skipn d0 txt)),
    (firstn (e - d1) (skipn d1 txt)).
  assert (T : t = firstn (d0 - i) (skipn i txt)
                  ++ firstn (d1 - d0) (skipn d0 txt)
                  ++ firstn (e - d1) (skipn d1 txt)).
  { rewrite (slices_app txt d0 d1 e) by lia.
    rewrite (slices_app txt i d0 e) by lia.
    revert Ht. unfold Main1.select_of, group. rewrite C. simpl.
    now intros [= <-]. }
  split; [now rewrite Ht, T|]. split; [|split].
  - unfold Main1.select_of, group. rewrite C. cbn [Main1.sel_target_name].
    destruct itab; cbn [lookup]; simpl String.eqb; cbv iota; [|reflexivity].
    destruct (firstn (d1 - d0) (skipn d0 txt)); [simpl in Nd; lia|].
    reflexivity.
  - intros I. apply In_slice in I as (q & Hq & Hn).
    apply (Np (d1 + q)); [lia | exact Hn].
  - rewrite Hs, T. now rewrite <- !app_assoc.
Qed.

(** X6.  [ensure_draft_filter] on a statement without the keyword WHERE,
    for a table of the watch list whose DRAFT filter is not in the
    statement: the filter goes in as a WHERE clause in front of the first
    keyword INTO; with no keyword INTO either, it goes to the end, in
    place of the periods the statement ends with. *)
Theorem X6_draft_filter_without_where {U : Unicode} (sel table : text) :
  Main1.in_watch (upper table) = true ->
  search (Main1.DRAFT_RE (upper table)) sel 0 = None ->
  (forall q, q <= length sel -> keyword_atb (str "WHERE") sel q = false) ->
  (forall p,
     keyword_atb (str "INTO") sel p = true ->
     (forall q, q < p -> keyword_atb (str "INTO") sel q = false) ->
     Main1.ensure_draft_filter sel table
     = firstn p sel
       ++ (str " WHERE " ++ upper table ++ str "-DRAFT = SPACE ")
       ++ skipn p sel) /\
  ((forall q, q <= length sel -> keyword_atb (str "INTO") sel q = false) ->
   exists dots,
     sel = rstrip_char 46%N sel ++ dots /\
     Forall (fun c => c = 46%N) dots /\
     Main1.ensure_draft_filter sel table
     = rstrip_char 46%N sel
       ++ (str " WHERE " ++ upper table ++ str "-DRAFT = SPACE.")).
Proof.
  intros W D NoW.
  assert (No : forall kw,
             (forall q, q <= length sel -> keyword_atb kw sel q = false) ->
             search (seqs [WordB; ilit kw; WordB]) sel 0 = None).
  { intros kw N. apply search_no_keyword. intros q K.
    pose proof (boundary_in_text _ _ (proj1 K)) as B.
    apply keyword_atb_spec in K. rewrite (N q B) in K. discriminate. }
  unfold Main1.ensure_draft_filter. rewrite W, D. simpl negb. cbv iota.
  unfold Main1.WHERE_RE. rewrite (No _ NoW). split.
  - intros p K First.
    destruct (search_keyword (str "INTO") sel p) as (m & E & S & _).
    { now apply keyword_atb_spec. }
    { intros q Q C. apply keyword_atb_spec in C.
      rewrite (First q Q) in C. discriminate. }
    unfold Main1.INTO_RE. rewrite E, S.
    now rewrite slice_to_nat, slice_from_nat.
  - intros NoI. unfold Main1.INTO_RE. rewrite (No _ NoI).
    destruct (rstrip_char_split 46%N sel) as (d & E & F).
    exists d. auto.
Qed.

(** X7.  [ensure_draft_filter] only adds text: its result is the
    statement with one piece of text put in at one place and everything
    else kept as it is; only periods at the very end of the statement
    may go, and then the piece put in takes their place and ends with a
    period. *)
Theorem X7_draft_filter_only_inserts {U : Unicode} (sel table : text) :
  exists a dots b ins,
    sel = a ++ dots ++ b /\
    Main1.ensure_draft_filter sel table = a ++ ins ++ b /\
    Forall (fun c => c = 46%N) dots /\
    (dots = [] \/ (b = [] /\ exists ins', ins = ins' ++ [46%N])).
Proof.
  unfold Main1.ensure_draft_filter.
  destruct (negb (Main1.in_watch (upper table))).
  { exists sel, [], [], []. rewrite !app_nil_r. auto. }
  destruct (search (Main1.DRAFT_RE (upper table)) sel 0).
  { exists sel, [], [], []. rewrite !app_nil_r. auto. }
  destruct (search Main1.WHERE_RE sel 0) as [w|];
    [|destruct (search Main1.INTO_RE sel 0) as [m|]].
  - exists (firstn (m_end w) sel), [], (skipn (m_end w) sel),
      (str " " ++ upper table ++ str "-DRAFT = SPACE AND").
    rewrite slice_to_nat, slice_from_nat. simpl app at 1.
    rewrite firstn_skipn. auto.
  - exists (firstn (m_start m) sel), [], (skipn (m_start m) sel),
      (str " WHERE " ++ upper table ++ str "-DRAFT = SPACE ").
    rewrite slice_to_nat, slice_from_nat. simpl app at 1.
    rewrite firstn_skipn. auto.
  - destruct (rstrip_char_split 46%N sel) as (d & E & F).
    exists (rstrip_char 46%N sel), d, [],
      (str " WHERE " ++ upper table ++ str "-DRAFT = SPACE.").
    rewrite !app_nil_r. repeat split; auto.
    right. split; [reflexivity|].
    exists (str " WHERE " ++ upper table ++ str "-DRAFT = SPACE").
    change (str "-DRAFT = SPACE.") with (str "-DRAFT = SPACE" ++ [46%N]).
    now rewrite <- !app_assoc.
Qed.

(** X8.  After [ensure_draft_filter], a statement on a table of the watch
    list holds the DRAFT filter of the table: the pattern the function
    looks for finds it in the result, whichever branch was taken; and the
    statement comes back unchanged exactly when the pattern finds the
    filter in it already. *)
Theorem X8_draft_filter_present {U : Unicode} (sel table : text) :
  Main1.in_watch (upper table) = true ->
  search (Main1.DRAFT_RE (upper table))
         (Main1.ensure_draft_filter sel table) 0 <> None /\
  (Main1.ensure_draft_filter sel table = sel <->
   search (Main1.DRAFT_RE (upper table)) sel 0 <> None).
Proof.
  intros W. pose proof (ensure_draft_filter_found sel table W) as F.
  split; [exact F|]. split.
  - intros E. now rewrite E in F.
  - intros D. unfold Main1.ensure_draft_filter. rewrite W. simpl negb.
    cbv iota.
    destruct (search (Main1.DRAFT_RE (upper table)) sel 0); congruence.
Qed.

(** X9.  A suggested statement is in normal form: it has no whitespace
    at either end, no two whitespace characters in a row and no
    whitespace other than the space, and normalising it again (runs of
    whitespace to one space, then strip) gives it back.  This holds of
    every text [build_replacement_stmt] returns, and so of every
    [suggested_statement] in the records of a unit. *)
Theorem X9_suggestion_normal_form {U : Unicode} :
  (forall t tab ty nm,
     let s := Main1.build_replacement_stmt t tab ty nm in
     Main1.has_ws_run s = false /\ Main1.has_other_ws s = false /\
     strip s = s /\
     strip (Main1.sub (Rep true 1 isspace) (str " ") s) = s) /\
  (forall u info s,
     In info (Main1.selects_of u) ->
     Main1.suggested_statement info = Some s ->
     Main1.has_ws_run s = false /\ Main1.has_other_ws s = false /\
     strip s = s /\
     strip (Main1.sub (Rep true 1 isspace) (str " ") s) = s).
Proof.
  assert (N : forall t tab ty nm,
             let s := Main1.build_replacement_stmt t tab ty nm in
             Main1.has_ws_run s = false /\ Main1.has_other_ws s = false /\
             strip s = s /\
             strip (Main1.sub (Rep true 1 isspace) (str " ") s) = s).
  { intros t tab ty nm s. subst s. unfold Main1.build_replacement_stmt.
    rewrite !sub_spaces.
    set (stmt := Main1.ensure_draft_filter t tab).
    pose proof (normalized_no_run stmt) as R.
    pose proof (normalized_only_spaces stmt) as O.
    repeat split; auto using strip_idem.
    rewrite collapse_fixed; auto using strip_idem. discriminate. }
  split; [exact N|].
  intros u info s I E. unfold Main1.selects_of in I.
  apply in_flat_map in I as (sel & _ & I).
  apply infos_of_In in I as (tab & t & _ & _ & _ & _ & _ & _ & _ & _ & S).
  rewrite S in E. cbv zeta in E.
  destruct (text_eqb _ t); [discriminate|]. injection E as <-. apply N.
Qed.

(** X10.  The replacements [remediate_array] collects for a text fit
    [apply_span_replacements]: they come from left to right, their spans
    lie within the text and do not overlap, each belongs to a record with
    the same span and the replacement as its [suggested_statement], and
    applying them gives the text with each of these spans replaced. *)
Theorem X10_replacements_fit_applier {U : Unicode} (txt : text)
    (repls : list Main1.replacement) (infos : list Main1.sel_info) :
  Main1.loop (Main1.find_selects txt) ([], []) = Some (repls, infos) ->
  Main1.ascending repls /\
  (forall x, In x repls -> Main1.in_text txt x) /\
  (forall x y, In x repls -> In y repls -> x <> y -> Main1.disjoint x y) /\
  (forall x, In x repls ->
     exists info,
       In info infos /\
       Main1.start_char_in_unit info = Main1.start x /\
       Main1.end_char_in_unit info = Main1.stop x /\
       Main1.suggested_statement info = Some (snd x)) /\
  Main1.apply_span_replacements txt repls
    = Main1.replaced_text txt 0 repls.
Proof.
  intros H. apply loop_spec in H. simpl in H. injection H as -> ->.
  pose proof (repls_sorted txt) as S.
  set (repls := flat_map Main1.repls_of (Main1.find_selects txt)) in *.
  assert (A : Main1.ascending repls).
  { revert S. apply StronglySorted_weaken. tauto. }
  assert (I : forall x, In x repls -> Main1.in_text txt x).
  { intros x. apply repls_in_text. }
  assert (D : forall x y, In x repls -> In y repls -> x <> y ->
                          Main1.disjoint x y).
  { intros x y Hx Hy N.
    destruct (StronglySorted_In_cases _ _ _ _ S Hx Hy) as [E | [[L _] | [L _]]];
      [congruence | now left | now right]. }
  split; [exact A|]. split; [exact I|]. split; [exact D|]. split.
  - intros x Hx. apply in_flat_map in Hx as (sel & Hs & Hx).
    apply repls_of_info in Hx as (info & Hi & P).
    exists info. split; [|exact P]. apply in_flat_map. eauto.
  - unfold Main1.apply_span_replacements.
    rewrite (sorted_desc_ascending _ A).
    rewrite <- fold_left_rev_right, rev_involutive.
    rewrite (splice_chain txt repls 0); try lia; auto.
    + now rewrite slice_to_Z by lia.
    + intros x Hx. split; [auto|]. destruct (I x Hx) as [[? _] _]. assumption.
Qed.

(** X11.  The order in which the pairs are handed to
    [apply_span_replacements] does not matter when no two of them start
    at the same offset: the function sorts them itself. *)
Theorem X11_applier_order_independent (src : text)
    (l1 l2 : list Main1.replacement) :
  Permutation l1 l2 -> NoDup (map Main1.start l1) ->
  Main1.apply_span_replacements src l1
  = Main1.apply_span_replacements src l2.
Proof.
  intros P N. unfold Main1.apply_span_replacements.
  now rewrite (sorted_desc_perm l1 l2 P N).
Qed.

(** X12.  A suggested statement holds the DRAFT filter of its table: for
    a table of the watch list and a statement in ASCII, the pattern
    [ensure_draft_filter] looks for finds the filter in what
    [build_replacement_stmt] returns, after the whitespace has been
    normalised; so it does in every [suggested_statement] of a unit whose
    code is ASCII. *)
Theorem X12_suggestion_holds_filter {U : Unicode} :
  (forall t tab ty nm,
     Main1.in_watch (upper tab) = true -> ascii_text t ->
     search (Main1.DRAFT_RE (upper tab))
            (Main1.build_replacement_stmt t tab ty nm) 0 <> None) /\
  (forall u info s,
     ascii_text (Main1.code_or_empty u) ->
     In info (Main1.selects_of u) ->
     Main1.suggested_statement info = Some s ->
     search (Main1.DRAFT_RE (upper (Main1.table info))) s 0 <> None).
Proof.
  split; [apply build_replacement_stmt_found|].
  intros u info s A I E. unfold Main1.selects_of in I.
  apply in_flat_map in I as (sel & Hs & I).
  apply infos_of_In in I as (tab & t & _ & Ht & W & Et & _ & _ & _ & _ & S).
  rewrite S in E. cbv zeta in E.
  destruct (text_eqb _ t); [discriminate|]. injection E as <-.
  rewrite Et. apply build_replacement_stmt_found; [exact W|].
  apply find_selects_In in Hs as (m & _ & ->).
  revert Ht. unfold Main1.select_of, group. simpl.
  destruct (lookup "full" (m_caps m)) as [[a b]|]; [|discriminate].
  intros [= <-]. now apply ascii_firstn, ascii_skipn.
Qed.

(** X13.  [build_replacement_stmt] applied to its own result changes
    nothing, for a statement in ASCII: the filter it put in is found, and
    the whitespace is already normalised. *)
Theorem X13_build_replacement_idempotent {U : Unicode}
    (t tab ty ty' : text) (nm nm' : option text) :
  ascii_text t ->
  Main1.build_replacement_stmt
    (Main1.build_replacement_stmt t tab ty nm) tab ty' nm'
  = Main1.build_replacement_stmt t tab ty nm.
Proof.
  intros A. destruct (Main1.in_watch (upper tab)) eqn:W.
  - pose proof (build_replacement_stmt_found t tab ty nm W A) as F.
    set (s := Main1.build_replacement_stmt t tab ty nm) in *.
    assert (E : Main1.ensure_draft_filter s tab = s).
    { unfold Main1.ensure_draft_filter. rewrite W. simpl negb. cbv iota.
      destruct (search (Main1.DRAFT_RE (upper tab)) s 0); congruence. }
    unfold Main1.build_replacement_stmt at 1. rewrite E, sub_spaces.
    unfold s, Main1.build_replacement_stmt. rewrite sub_spaces.
    apply normalize_idem.
  - unfold Main1.build_replacement_stmt, Main1.ensure_draft_filter.
    rewrite W. simpl negb. cbv iota. rewrite !sub_spaces.
    apply normalize_idem.
Qed.

(** X14.  Letter case does not matter to either scan: in the upper case
    of an ASCII text the same statements are found at the same spans,
    with the same suggestions and target types, and the captured texts
    are the upper case of those captured in the text itself. *)
Theorem X14_letter_case_irrelevant {U : Unicode} (txt : text) :
  ascii_text txt ->
  Main.find_mb_txn_usage (upper txt)
  = option_map
      (map (fun o =>
              {| Main.full := option_map upper (Main.full o);
                 Main.stmt := upper (Main.stmt o);
                 Main.txn := option_map upper (Main.txn o);
                 Main.suggested_statement := Main.suggested_statement o;
                 Main.span := Main.span o |}))
      (Main.find_mb_txn_usage txt) /\
  Main1.find_selects (upper txt)
  = map (fun s =>
           {| Main1.sel_text := option_map upper (Main1.sel_text s);
              Main1.sel_table := option_map upper (Main1.sel_table s);
              Main1.sel_target_type := Main1.sel_target_type s;
              Main1.sel_target_name :=
                option_map upper (Main1.sel_target_name s);
              Main1.sel_span := Main1.sel_span s |})
        (Main1.find_selects txt).
Proof.
  intros A. rewrite (upper_ascii txt A). split.
  - unfold Main.find_mb_txn_usage.
    rewrite (finditer_caseless _ txt MB_TXN_RE_caseless A).
    apply mapM_option_map. intros m. unfold Main.usage_of.
    rewrite !group_upper.
    destruct (group txt m "stmt") as [st|] eqn:S; [|reflexivity].
    pose proof (group_ascii _ _ _ _ A S) as As. simpl. f_equal.
    rewrite !option_map_upper by (intros x; now apply group_ascii).
    rewrite <- (upper_ascii st As). f_equal.
    unfold Main.suggest_replacement.
    rewrite (upper_ascii (upper st)), (upper_ascii st As), map_upper_idem;
      [reflexivity|].
    rewrite (upper_ascii st As). now apply ascii_map_upper.
  - unfold Main1.find_selects.
    rewrite (finditer_caseless _ txt SELECT_RE_caseless A), map_map.
    apply map_ext. intros m. unfold Main1.select_of.
    rewrite !group_upper, truthy_upper. cbn [Main1.sel_text Main1.sel_table
      Main1.sel_target_type Main1.sel_target_name Main1.sel_span].
    assert (P : py_or (option_map (map ascii_upper) (group txt m "into_tab"))
                      (option_map (map ascii_upper) (group txt m "into_wa"))
                = option_map upper
                    (py_or (group txt m "into_tab") (group txt m "into_wa"))).
    { unfold py_or. rewrite truthy_upper.
      destruct (truthy (group txt m "into_tab"));
        apply option_map_upper; intros x; now apply group_ascii. }
    rewrite P.
    now rewrite !option_map_upper by (intros x; now apply group_ascii).
Qed.

(* ===================================================================== *)
(** * The further properties at concrete inputs *)
(* ===================================================================== *)

(** X1 at a unit without code and a unit whose code breaks off after the
    verb. *)
Lemma X1_short_code_no_findings_witness :
  let u := fun c =>
    {| Main.pgm_name := str "ZPROG"; Main.inc_name := str "ZINC";
       Main.type := str "PROG"; Main.name := None;
       Main.class_implementation := None; Main.start_line := None;
       Main.end_line := None; Main.code := c |} in
  @Main.remediate_mb_txns ascii_tables [u None; u (Some (str "SUBMIT MB"))]
  = Some [JObj (Main.unit_fields (u None)
                ++ [("mb_txn_usage"%string, JList [])]);
          JObj (Main.unit_fields (u (Some (str "SUBMIT MB")))
                ++ [("mb_txn_usage"%string, JList [])])].
Proof.
  intros u.
  apply (proj2 (proj1 (@X1_short_code_no_findings ascii_tables)
                      [u None; u (Some (str "SUBMIT MB"))]
                      ltac:(intros x [<- | [<- | []]]; vm_compute; lia))).
  intros x [<- | [<- | []]]; vm_compute; reflexivity.
Defined.

(** X2 at a text with two statements, at the offset of the second. *)
Lemma X2_no_occurrence_missed_witness :
  let txt := str "SUBMIT MB01. CALL TRANSACTION 'mb1a'." in
  let o1 := {| Main.full := Some (str "SUBMIT MB01.");
               Main.stmt := str "SUBMIT";
               Main.txn := Some (str "MB01");
               Main.suggested_statement := str "SUBMIT MIGO.";
               Main.span := (0, 12)%Z |} in
  let o2 := {| Main.full := Some (str "CALL TRANSACTION 'mb1a'.");
               Main.stmt := str "CALL TRANSACTION";
               Main.txn := Some (str "mb1a");
               Main.suggested_statement := str "CALL TRANSACTION 'MIGO'.";
               Main.span := (13, 37)%Z |} in
  @Main.find_mb_txn_usage ascii_tables txt = Some [o1; o2] /\
  exists o, In o [o1; o2] /\
            (fst (Main.span o) <= 13 < snd (Main.span o))%Z.
Proof.
  intros txt o1 o2.
  assert (E : @Main.find_mb_txn_usage ascii_tables txt = Some [o1; o2])
    by (vm_compute; reflexivity).
  split; [exact E|].
  apply (proj1 (@X2_no_occurrence_missed ascii_tables txt 13) [o1; o2] E).
  vm_compute. discriminate.
Defined.

(** X3 at a call written in small letters. *)
Lemma X3_txn_is_listed_witness :
  let txt := str "call transaction 'mb1a'." in
  let o := {| Main.full := Some (str "call transaction 'mb1a'.");
              Main.stmt := str "call transaction";
              Main.txn := Some (str "mb1a");
              Main.suggested_statement := str "CALL TRANSACTION 'MIGO'.";
              Main.span := (0, 24)%Z |} in
  @Main.find_mb_txn_usage ascii_tables txt = Some [o] /\
  exists code t gap rest,
    In code Main.OBSOLETE_MB_TXNS /\
    Main.txn o = Some t /\
    Main.full o = Some (Main.stmt o ++ gap ++ t ++ rest) /\
    gap <> [] /\
    Forall2 (fun p x => @ichr_class ascii_tables p x = true) code t /\
    (ascii_text t -> @upper ascii_tables t = code).
Proof.
  intros txt o.
  assert (E : @Main.find_mb_txn_usage ascii_tables txt = Some [o])
    by (vm_compute; reflexivity).
  split; [exact E|].
  apply (@X3_txn_is_listed ascii_tables txt [o] o E).
  simpl. auto.
Defined.

(** X4 at a statement that reads into an internal table. *)
Lemma X4_select_captures_witness :
  let txt := str "SELECT * FROM VBRK INTO TABLE lt UP TO 5 ROWS. x" in
  let sel :=
    {| Main1.sel_text :=
         Some (str "SELECT * FROM VBRK INTO TABLE lt UP TO 5 ROWS");
       Main1.sel_table := Some (str "VBRK");
       Main1.sel_target_type := str "itab";
       Main1.sel_target_name := Some (str "lt");
       Main1.sel_span := (0, 46)%Z |} in
  In sel (@Main1.find_selects ascii_tables txt) /\
  exists tab nm,
    Main1.sel_table sel = Some tab /\ tab <> [] /\
    Forall (fun c => @isword ascii_tables c = true) tab /\
    Main1.sel_target_name sel = Some nm /\ nm <> [] /\
    Forall (fun c => @Main1.dest_char ascii_tables c = true) nm /\
    (Main1.sel_target_type sel = str "itab" \/
     Main1.sel_target_type sel = str "wa").
Proof.
  intros txt sel.
  assert (I : In sel (@Main1.find_selects ascii_tables txt))
    by (vm_compute; auto).
  split; [exact I|].
  apply (@X4_select_captures ascii_tables txt sel I).
Defined.

(** X5 at the same statement: the tail is the addition after the target
    name. *)
Lemma X5_select_ends_at_first_period_witness :
  let txt := str "SELECT * FROM VBRK INTO TABLE lt UP TO 5 ROWS. x" in
  let sel :=
    {| Main1.sel_text :=
         Some (str "SELECT * FROM VBRK INTO TABLE lt UP TO 5 ROWS");
       Main1.sel_table := Some (str "VBRK");
       Main1.sel_target_type := str "itab";
       Main1.sel_target_name := Some (str "lt");
       Main1.sel_span := (0, 46)%Z |} in
  In sel (@Main1.find_selects ascii_tables txt) /\
  exists pre nm tl,
    Main1.sel_text sel = Some (pre ++ nm ++ tl) /\
    Main1.sel_target_name sel = Some nm /\
    ~ In 46%N tl /\
    slice txt (fst (Main1.sel_span sel)) (snd (Main1.sel_span sel))
      = pre ++ nm ++ tl ++ [46%N].
Proof.
  intros txt sel.
  assert (I : In sel (@Main1.find_selects ascii_tables txt))
    by (vm_compute; auto).
  split; [exact I|].
  apply (@X5_select_ends_at_first_period ascii_tables txt sel I).
Defined.

(** X6 at a statement with INTO at offset 19 and at one without INTO that
    ends with two periods. *)
Lemma X6_draft_filter_without_where_witness :
  (let sel := str "SELECT * FROM VBRK INTO x" in
   @Main1.ensure_draft_filter ascii_tables sel (str "vbrk")
   = firstn 19 sel ++ str " WHERE VBRK-DRAFT = SPACE " ++ skipn 19 sel) /\
  (let sel := str "SELECT * FROM VBRK.." in
   exists dots,
     sel = rstrip_char 46%N sel ++ dots /\
     Forall (fun c => c = 46%N) dots /\
     @Main1.ensure_draft_filter ascii_tables sel (str "vbrk")
     = rstrip_char 46%N sel ++ str " WHERE VBRK-DRAFT = SPACE.").
Proof.
  split; intros sel.
  - apply (proj1 (@X6_draft_filter_without_where ascii_tables sel (str "vbrk")
                    eq_refl eq_refl
                    ltac:(intros q Hq;
                          do 26 (destruct q as [|q];
                                 [vm_compute; reflexivity|]);
                          vm_compute in Hq; lia))
                 19).
    + vm_compute. reflexivity.
    + intros q Hq.
      do 19 (destruct q as [|q]; [vm_compute; reflexivity|]). lia.
  - apply (proj2 (@X6_draft_filter_without_where ascii_tables sel (str "vbrk")
                    eq_refl eq_refl
                    ltac:(intros q Hq;
                          do 21 (destruct q as [|q];
                                 [vm_compute; reflexivity|]);
                          vm_compute in Hq; lia))).
    intros q Hq.
    do 21 (destruct q as [|q]; [vm_compute; reflexivity|]).
    vm_compute in Hq. lia.
Defined.

(** X8 at a statement without the filter. *)
Lemma X8_draft_filter_present_witness :
  let sel := str "SELECT * FROM VBRK INTO TABLE lt" in
  let T := @upper ascii_tables (str "vbrk") in
  search (@Main1.DRAFT_RE ascii_tables T)
         (@Main1.ensure_draft_filter ascii_tables sel (str "vbrk")) 0
  <> None /\
  (@Main1.ensure_draft_filter ascii_tables sel (str "vbrk") = sel <->
   search (@Main1.DRAFT_RE ascii_tables T) sel 0 <> None).
Proof.
  intros sel T.
  apply (@X8_draft_filter_present ascii_tables sel (str "vbrk")).
  vm_compute. reflexivity.
Defined.

(** X9 at a unit whose statement has a run of three spaces. *)
Lemma X9_suggestion_normal_form_witness :
  let u := {| Main1.pgm_name := str "ZPROG"; Main1.inc_name := str "ZINC";
              Main1.type := str "PROG"; Main1.name := None;
              Main1.class_implementation := None;
              Main1.start_line := None; Main1.end_line := None;
              Main1.code :=
                Some (str "SELECT *   FROM VBRK INTO TABLE lt.") |} in
  let s := str "SELECT * FROM VBRK WHERE VBRK-DRAFT = SPACE INTO TABLE lt" in
  let info := {| Main1.table := str "VBRK";
                 Main1.target_type := str "itab";
                 Main1.target_name := Some (str "lt");
                 Main1.start_char_in_unit := 0;
                 Main1.end_char_in_unit := 35;
                 Main1.suggested_statement := Some s |} in
  In info (@Main1.selects_of ascii_tables u) /\
  @Main1.has_ws_run ascii_tables s = false /\
  @Main1.has_other_ws ascii_tables s = false /\
  @strip ascii_tables s = s /\
  @strip ascii_tables
     (@Main1.sub ascii_tables (Rep true 1 (@isspace ascii_tables)) (str " ") s)
  = s.
Proof.
  intros u s info.
  assert (I : In info (@Main1.selects_of ascii_tables u))
    by (vm_compute; auto).
  split; [exact I|].
  apply (proj2 (@X9_suggestion_normal_form ascii_tables) u info s I).
  reflexivity.
Defined.

(** X10 at a text with two statements. *)
Lemma X10_replacements_fit_applier_witness :
  let txt := str "SELECT * FROM VBRK INTO TABLE lt. SELECT a FROM VBRP WHERE x = 1 INTO wa." in
  let s1 := str "SELECT * FROM VBRK WHERE VBRK-DRAFT = SPACE INTO TABLE lt" in
  let s2 := str "SELECT a FROM VBRP WHERE VBRP-DRAFT = SPACE AND x = 1 INTO wa" in
  let repls := [((0, 33)%Z, s1); ((34, 73)%Z, s2)] in
  let infos := [ {| Main1.table := str "VBRK";
                    Main1.target_type := str "itab";
                    Main1.target_name := Some (str "lt");
                    Main1.start_char_in_unit := 0;
                    Main1.end_char_in_unit := 33;
                    Main1.suggested_statement := Some s1 |};
                 {| Main1.table := str "VBRP";
                    Main1.target_type := str "wa";
                    Main1.target_name := Some (str "wa");
                    Main1.start_char_in_unit := 34;
                    Main1.end_char_in_unit := 73;
                    Main1.suggested_statement := Some s2 |} ] in
  @Main1.loop ascii_tables (@Main1.find_selects ascii_tables txt) ([], [])
    = Some (repls, infos) /\
  Main1.ascending repls /\
  (forall x, In x repls -> Main1.in_text txt x) /\
  (forall x y, In x repls -> In y repls -> x <> y -> Main1.disjoint x y) /\
  (forall x, In x repls ->
     exists info,
       In info infos /\
       Main1.start_char_in_unit info = Main1.start x /\
       Main1.end_char_in_unit info = Main1.stop x /\
       Main1.suggested_statement info = Some (snd x)) /\
  Main1.apply_span_replacements txt repls
    = Main1.replaced_text txt 0 repls.
Proof.
  intros txt s1 s2 repls infos.
  assert (E : @Main1.loop ascii_tables (@Main1.find_selects ascii_tables txt)
                ([], []) = Some (repls, infos))
    by (vm_compute; reflexivity).
  split; [exact E|].
  apply (@X10_replacements_fit_applier ascii_tables txt repls infos E).
Defined.

(** X11 at two pairs handed over in either order. *)
Lemma X11_applier_order_independent_witness :
  let src := str "abcdefgh" in
  let x := ((0, 1)%Z, str "X") in
  let y := ((3, 5)%Z, str "YZ") in
  Main1.apply_span_replacements src [x; y]
  = Main1.apply_span_replacements src [y; x].
Proof.
  intros src x y.
  apply (X11_applier_order_independent src [x; y] [y; x]).
  - apply perm_swap.
  - repeat constructor; simpl; intuition discriminate.
Defined.

(** X12 at the record of a unit whose statement lacks the filter. *)
Lemma X12_suggestion_holds_filter_witness :
  let u := {| Main1.pgm_name := str "ZPROG"; Main1.inc_name := str "ZINC";
              Main1.type := str "PROG"; Main1.name := None;
              Main1.class_implementation := None;
              Main1.start_line := None; Main1.end_line := None;
              Main1.code :=
                Some (str "SELECT *   FROM VBRK INTO TABLE lt.") |} in
  let s := str "SELECT * FROM VBRK WHERE VBRK-DRAFT = SPACE INTO TABLE lt" in
  let info := {| Main1.table := str "VBRK";
                 Main1.target_type := str "itab";
                 Main1.target_name := Some (str "lt");
                 Main1.start_char_in_unit := 0;
                 Main1.end_char_in_unit := 35;
                 Main1.suggested_statement := Some s |} in
  In info (@Main1.selects_of ascii_tables u) /\
  search (@Main1.DRAFT_RE ascii_tables
            (@upper ascii_tables (Main1.table info))) s 0 <> None.
Proof.
  intros u s info.
  assert (I : In info (@Main1.selects_of ascii_tables u))
    by (vm_compute; auto).
  split; [exact I|].
  apply (proj2 (@X12_suggestion_holds_filter ascii_tables) u info s).
  - apply ascii_textb_spec. reflexivity.
  - exact I.
  - reflexivity.
Defined.

(** X13 at a statement with a run of spaces, for a table name in small
    letters. *)
Lemma X13_build_replacement_idempotent_witness :
  let t := str "SELECT *   FROM VBRK INTO TABLE lt" in
  let s := @Main1.build_replacement_stmt ascii_tables t (str "vbrk")
             (str "itab") (Some (str "lt")) in
  s = str "SELECT * FROM VBRK WHERE VBRK-DRAFT = SPACE INTO TABLE lt" /\
  @Main1.build_replacement_stmt ascii_tables s (str "vbrk") (str "itab")
     (Some (str "lt"))
  = s.
Proof.
  intros t s. split; [vm_compute; reflexivity|].
  apply (@X13_build_replacement_idempotent ascii_tables t (str "vbrk")
           (str "itab") (str "itab") (Some (str "lt")) (Some (str "lt"))).
  apply ascii_textb_spec. reflexivity.
Defined.

(** X14 at a statement in small letters. *)
Lemma X14_letter_case_irrelevant_witness :
  let txt := str "submit mb01. select * from vbrk into table lt." in
  @Main.find_mb_txn_usage ascii_tables (@upper ascii_tables txt)
  = option_map
      (map (fun o =>
              {| Main.full := option_map (@upper ascii_tables) (Main.full o);
                 Main.stmt := @upper ascii_tables (Main.stmt o);
                 Main.txn := option_map (@upper ascii_tables) (Main.txn o);
                 Main.suggested_statement := Main.suggested_statement o;
                 Main.span := Main.span o |}))
      (@Main.find_mb_txn_usage ascii_tables txt) /\
  @Main1.find_selects ascii_tables (@upper ascii_tables txt)
  = map (fun s =>
           {| Main1.sel_text :=
                option_map (@upper ascii_tables) (Main1.sel_text s);
              Main1.sel_table :=
                option_map (@upper ascii_tables) (Main1.sel_table s);
              Main1.sel_target_type := Main1.sel_target_type s;
              Main1.sel_target_name :=
                option_map (@upper ascii_tables) (Main1.sel_target_name s);
              Main1.sel_span := Main1.sel_span s |})
        (@Main1.find_selects ascii_tables txt).
Proof.
  intros txt. apply (@X14_letter_case_irrelevant ascii_tables txt).
  apply ascii_textb_spec. reflexivity.
Defined.
